(** * ml-vis-frontend: the self-hosted numeric routines, embedded and verified

    The repository is a gallery of browser visualisations.  This development
    embeds the pieces of it that compute something: the monotone-chain convex
    hull and the cluster grouping of the DBSCAN page, the response handling of
    its fetch, its data generator, the KNN vote, the K-Means step, the SOM
    neighbourhood function, the activation tables of the perceptron pages and
    the request of the decision-tree page.

    Number model.  A JavaScript [number] is read as an exact number: a
    rational ([Q]) wherever the code only adds, subtracts, multiplies, divides
    and compares, and a real ([R]) where it calls [Math.exp], [Math.hypot].
    Rounding of binary64 is outside this model.  Where binary64 decides
    what the code does it is modelled itself: the constant products and
    quotients of the DBSCAN page, whose floor decides a count, and the
    formulas with [Math.exp], which underflows to 0 and overflows to
    [Infinity] at arguments that the pages reach.  Where the code can meet
    [undefined], [NaN] or [Infinity] in the exact model they are an
    explicit [None].

    [Math.random] is a stream [rand : nat -> Q] read through a counter that
    the generators thread; [Math.cos] and [Math.sin] are parameters.

    A JavaScript array used as a stack (push and pop at the end) is a list
    whose head is the top of the stack; it is reversed where the code reads
    it as an array again. *)

From Stdlib Require Import String Ascii DecimalString DecimalNat Floats Reals.
From Stdlib Require Import ZArith QArith Qround Qminmax Psatz Bool Arith PeanoNat.
From Stdlib Require Import List Sorted Permutation.
Import ListNotations.

Set Warnings "-inexact-float,-register-all".

(** * Part I: the embedding *)

(** ** What every page takes from the JavaScript runtime *)

Module JS.

Local Open Scope Q_scope.

(** [Array.prototype.sort] is a stable sort; with a comparator that is a total
    preorder its result is the one stable ordering, which insertion from the
    right computes: [a] goes before the first [b] with [compare a b <= 0]. *)
Fixpoint insertBy {A : Type} (compare : A -> A -> Q) (a : A) (l : list A) : list A :=
  match l with
  | [] => [a]
  | b :: l' =>
      if Qle_bool (compare a b) 0 then a :: b :: l'
      else b :: insertBy compare a l'
  end.

Definition sortBy {A : Type} (compare : A -> A -> Q) (l : list A) : list A :=
  fold_right (insertBy compare) [] l.



(** A computation that calls [Math.random()]: it reads the stream of results
    at a counter and moves the counter on. *)
Definition Gen (A : Type) : Type := (nat -> Q) -> nat -> A * nat.

Definition ret {A : Type} (a : A) : Gen A := fun _ n => (a, n).

Definition bind {A B : Type} (g : Gen A) (k : A -> Gen B) : Gen B :=
  fun rand n => let (a, n') := g rand n in k a rand n'.

(** [Math.random()] *)
Definition random : Gen Q := fun rand n => (rand n, S n).

(** [n] runs of [g], in order: [Array.from({ length: n }, () => g())] and the
    counting [for] loops that push one result per round. *)
Fixpoint replicateG {A : Type} (n : nat) (g : Gen A) : Gen (list A) :=
  match n with
  | O => ret []
  | S n' => bind g (fun a => bind (replicateG n' g) (fun l => ret (a :: l)))
  end.

(** [g] run on each element, in order. *)
Fixpoint traverseG {A B : Type} (g : A -> Gen B) (l : list A) : Gen (list B) :=
  match l with
  | [] => ret []
  | a :: l' => bind (g a) (fun b => bind (traverseG g l') (fun bs => ret (b :: bs)))
  end.

(** The results of [Math.random()] lie in [0, 1). *)
Definition unitStream (rand : nat -> Q) : Prop := forall n, 0 <= rand n /\ rand n < 1.

End JS.

Declare Scope gen_scope.
Delimit Scope gen_scope with gen.
Notation "x <- g ;; k" := (JS.bind g (fun x => k))
  (at level 61, g at next level, right associativity) : gen_scope.

(** ** src/components/algorithms/dbscan.tsx *)

Module DBSCANPage.

Local Open Scope Q_scope.

(** [{ x: number; y: number }] *)
Record Point : Type := mkPoint { px : Q; py : Q }.

(** [{ x: number; y: number; cluster: number }]; the label is the integer the
    backend sends, [-1] for noise. *)
Record LabeledPoint : Type := mkLabeled { lx : Q; ly : Q; cluster : Z }.

Definition toPoint (p : LabeledPoint) : Point := mkPoint (lx p) (ly p).

(** [const cross = (o, a, b) => (a.x - o.x) * (b.y - o.y) - (a.y - o.y) * (b.x - o.x)] *)
Definition cross (o a b : Point) : Q :=
  (px a - px o) * (py b - py o) - (py a - py o) * (px b - px o).

(** The comparator of the sort: [(a, b) => (a.x === b.x ? a.y - b.y : a.x - b.x)]. *)
Definition compareXY (a b : Point) : Q :=
  if Qeq_bool (px a) (px b) then py a - py b else px a - px b.

(** The inner loop of both chains, on a stack whose head is its top:
    [while (s.length >= 2 && cross(s[s.length - 2], s[s.length - 1], p) <= 0) s.pop()]. *)
Fixpoint popWhile (stack : list Point) (p : Point) : list Point :=
  match stack with
  | top :: ((below :: _) as rest) =>
      if Qle_bool (cross below top p) 0 then popWhile rest p else stack
  | _ => stack
  end.

(** One iteration of [for (const p of ...)]: the pops, then [s.push(p)]. *)
Definition pushPoint (stack : list Point) (p : Point) : list Point :=
  p :: popWhile stack p.

(** A whole chain, from the empty stack. *)
Definition buildChain (pts : list Point) : list Point :=
  fold_left pushPoint pts [].

(** [computeConvexHull]: the chains are turned back into arrays ([rev]),
    [pop()] drops the last element of each, and [lower.concat(upper)]. *)
Definition computeConvexHull (points : list Point) : list Point :=
  if (length points <? 3)%nat then points
  else
    let sorted := JS.sortBy compareXY (map (fun p => mkPoint (px p) (py p)) points) in
    let lower := rev (buildChain sorted) in
    let upper := rev (buildChain (rev sorted)) in
    removelast lower ++ removelast upper.


(** *** [renderDBSCAN]: the clusters and their overlays *)

(** [new Map<number, { x, y }[]>()]: the entries in insertion order. *)
Definition ClusterMap : Type := list (Z * list LabeledPoint).

(** [clusters.has(id)] *)
Fixpoint mapHas (clusters : ClusterMap) (id : Z) : bool :=
  match clusters with
  | [] => false
  | (id', _) :: rest => if Z.eqb id id' then true else mapHas rest id
  end.

(** [clusters.set(id, v)]: an existing key keeps its place, a new one goes last. *)
Fixpoint mapSet (clusters : ClusterMap) (id : Z) (v : list LabeledPoint) : ClusterMap :=
  match clusters with
  | [] => [(id, v)]
  | (id', v') :: rest =>
      if Z.eqb id id' then (id', v) :: rest else (id', v') :: mapSet rest id v
  end.

(** [clusters.get(id)!.push(pt)]: the array held by the map grows in place. *)
Fixpoint mapPush (clusters : ClusterMap) (id : Z) (pt : LabeledPoint) : ClusterMap :=
  match clusters with
  | [] => []
  | (id', v') :: rest =>
      if Z.eqb id id' then (id', v' ++ [pt]) :: rest else (id', v') :: mapPush rest id pt
  end.

(** The body of [for (const pt of labeledPoints)]. *)
Definition groupPoint (clusters : ClusterMap) (pt : LabeledPoint) : ClusterMap :=
  if negb (Z.eqb (cluster pt) (-1)) then
    let clusters' :=
      if negb (mapHas clusters (cluster pt)) then mapSet clusters (cluster pt) []
      else clusters in
    mapPush clusters' (cluster pt) pt
  else clusters.

Definition groupClusters (labeledPoints : list LabeledPoint) : ClusterMap :=
  fold_left groupPoint labeledPoints [].

(** [clusters.forEach((points, clusterId) => { const hull = computeConvexHull(points) ... })];
    the hull reads the coordinates of the points only. *)
Definition hullOverlays (labeledPoints : list LabeledPoint) : list (Z * list Point) :=
  map (fun entry => (fst entry, computeConvexHull (map toPoint (snd entry))))
      (groupClusters labeledPoints).

(** [if (hull.length < 3) return]: the overlays that are drawn. *)
Definition drawnOverlays (labeledPoints : list LabeledPoint) : list (Z * list Point) :=
  filter (fun entry => negb (length (snd entry) <? 3)%nat) (hullOverlays labeledPoints).

Definition isNoise (pt : LabeledPoint) : bool := Z.eqb (cluster pt) (-1).

(** *** [fetchLabeledPoints]: the answer of [POST /dbscan] *)







(** *** The generated data set *)

Definition TOTAL_POINTS : Q := 200.
Definition NOISE_RATIO : Q := 1 # 10.

(** The two constants on binary64. *)
Definition TOTAL_POINTS_f : float := 200%float.
Definition NOISE_RATIO_f : float := 0.1%float.

Definition clamp (v : Q) : Q := Qmax (-1) (Qmin 1 v).

Section Generator.

(** [Math.cos], [Math.sin] and [Math.PI]. *)
Variables (cos sin : Q -> Q) (PI : Q).

Local Open Scope gen_scope.

(** The first loop of [generateClusterData]: one centre per cluster. *)
Definition genCenter : JS.Gen Point :=
  centerX <- JS.random ;;
  centerY <- JS.random ;;
  JS.ret (mkPoint (centerX * (16 # 10) - (8 # 10)) (centerY * (16 # 10) - (8 # 10))).

(** The body of the inner loop: one point around [center]. *)
Definition genAround (center : Point) : JS.Gen Point :=
  a <- JS.random ;;
  d <- JS.random ;;
  let angle := a * PI * 2 in
  let distance := d * (3 # 10) in
  JS.ret (mkPoint (clamp (px center + cos angle * distance))
                  (clamp (py center + sin angle * distance))).

(** [generateClusterData(numClusters, clusterPointCount)]; the two counts are
    whole numbers, [Math.floor] of a quotient by zero bounds a loop that does
    not run. *)
Definition generateClusterData (numClusters clusterPointCount : Z) : JS.Gen (list Point) :=
  clusterCenters <- JS.replicateG (Z.to_nat numClusters) genCenter ;;
  let pointsPerCluster := Qfloor (inject_Z clusterPointCount / inject_Z numClusters) in
  perCluster <- JS.traverseG
                  (fun center => JS.replicateG (Z.to_nat pointsPerCluster) (genAround center))
                  clusterCenters ;;
  JS.ret (concat perCluster).

(** [Math.floor(TOTAL_POINTS * (1 - NOISE_RATIO))] and [Math.floor(TOTAL_POINTS * NOISE_RATIO)]. *)
Definition clusterPointCount : Z := Qfloor (TOTAL_POINTS * (1 - NOISE_RATIO)).
Definition noiseCount : Z := Qfloor (TOTAL_POINTS * NOISE_RATIO).

Definition genNoise : JS.Gen Point :=
  x <- JS.random ;;
  y <- JS.random ;;
  JS.ret (mkPoint (x * 2 - 1) (y * 2 - 1)).

(** [clusterPoints] of the memo, then [noisePoints] of the effect:
    the two parts of [allPoints = [...clusterPoints, ...noisePoints]]. *)
Definition generateAllPoints (numClusters : Z) : JS.Gen (list Point * list Point) :=
  clusterPoints <- generateClusterData numClusters clusterPointCount ;;
  noisePoints <- JS.replicateG (Z.to_nat noiseCount) genNoise ;;
  JS.ret (clusterPoints, noisePoints).

End Generator.

(** The slider of [numClusters]: [min: 1, max: 5, step: 1]. *)
Definition numClustersInRange (numClusters : Z) : Prop := (1 <= numClusters <= 5)%Z.

(** *** [renderDBSCAN]: where and how a point is drawn *)

(** [const margin = 40] *)
Definition margin : Q := 40.

(** [margin + ((p.x + 1) / 2) * plotWidth], with [plotWidth = width - 2 * margin]. *)
Definition canvasX (width : Q) (p : Point) : Q :=
  margin + ((px p + 1) / 2) * (width - 2 * margin).

(** [margin + plotHeight - ((p.y + 1) / 2) * plotHeight], with [plotHeight = height - 2 * margin]. *)
Definition canvasY (height : Q) (p : Point) : Q :=
  margin + (height - 2 * margin) - ((py p + 1) / 2) * (height - 2 * margin).

Definition clusterColors : list string :=
  ["#4ade80"; "#60a5fa"; "#f472b6"; "#fb923c"; "#a78bfa"; "#facc15"; "#22d3ee"]%string.

(** [clusterColors[id % clusterColors.length]]: the remainder has the sign of
    [id], and a negative index reads [undefined] ([None]). *)
Definition paletteColor (id : Z) : option string :=
  let r := Z.rem id (Z.of_nat (length clusterColors)) in
  if (r <? 0)%Z then None else nth_error clusterColors (Z.to_nat r).

(** The colour of the dot of a labelled point. *)
Definition pointColor (pt : LabeledPoint) : option string :=
  if Z.eqb (cluster pt) (-1) then Some "#f87171"%string else paletteColor (cluster pt).

(** The legend: [clusters.size] and [labeledPoints.filter((p) => p.cluster === -1).length]. *)
Definition clustersFound (labeledPoints : list LabeledPoint) : nat :=
  length (groupClusters labeledPoints).

Definition noisePointsShown (labeledPoints : list LabeledPoint) : nat :=
  length (filter isNoise labeledPoints).

(** The points of the label [id], in the order of the input. *)
Definition labelledWith (id : Z) (labeledPoints : list LabeledPoint) : list LabeledPoint :=
  filter (fun q => Z.eqb (cluster q) id) labeledPoints.

(** The invariant of the grouping loop after the points [seen]: one entry
    per label seen, holding the points of that label in their order. *)
Record grouped (seen : list LabeledPoint) (clusters : ClusterMap) : Prop := mkGrouped {
  grouped_keys : NoDup (map fst clusters);
  grouped_entries : forall id pts, In (id, pts) clusters ->
                      id <> (-1)%Z /\ pts <> [] /\ pts = labelledWith id seen;
  grouped_all : forall q, In q seen -> cluster q <> (-1)%Z -> In (cluster q) (map fst clusters)
}.

(** The number of points filed in the map. *)
Definition pointsFiled (clusters : ClusterMap) : nat :=
  list_sum (map (fun entry => length (snd entry)) clusters).

(** The labels of the points that are not noise, each once. *)
Definition labelsPresent (labeledPoints : list LabeledPoint) : list Z :=
  nodup Z.eq_dec (map cluster (filter (fun q => negb (isNoise q)) labeledPoints)).

(** Inside the square the data lives in. *)
Definition inSquare (p : Point) : Prop := -1 <= px p <= 1 /\ -1 <= py p <= 1.

(** *** What the claims speak about *)

(** The sides of a polygon given by its vertices in order, the last side
    closing it. *)
Definition polygonEdges (h : list Point) : list (Point * Point) :=
  match h with
  | [] => []
  | v :: r => combine h (r ++ [v])
  end.

(** [p] is to the left of, or on, the line of every side of [h].  For a
    polygon [h] that is convex and counter-clockwise this is: [p] is inside
    [h] or on its boundary.  It is not for another [h]; what is proved of a
    polygon with [inside] states its turns as well. *)
Definition inside (h : list Point) (p : Point) : Prop :=
  forall a b, In (a, b) (polygonEdges h) -> 0 <= cross a b p.

Definition collinear (a b c : Point) : Prop := cross a b c == 0.

(** Every point filed under [id] carries the label [id], which is not the
    noise label, and is one of the points seen. *)
Definition wellFiled (seen : list LabeledPoint) (clusters : ClusterMap) : Prop :=
  forall id pts, In (id, pts) clusters ->
    id <> (-1)%Z /\ forall q, In q pts -> cluster q = id /\ In q seen.



End DBSCANPage.

(** ** The invariant of the two chains of [computeConvexHull] *)

Module HullInvariant.

Import DBSCANPage.
Local Open Scope Q_scope.

(** Order by [x], then by [y]: what the comparator sorts by. *)
Definition lexle (a b : Point) : Prop :=
  px a < px b \/ (px a == px b /\ py a <= py b).

(** The same coordinates (two fractions may differ and denote one number). *)
Definition samePoint (a b : Point) : Prop := px a == px b /\ py a == py b.

(** The lower chain sweeps upwards in [lexle], the upper chain downwards. *)
Definition ord (up : bool) (a b : Point) : Prop :=
  if up then lexle a b else lexle b a.

(** Directions.

    A vector is forward when it points to the right, or straight up (or is
    null).  On forward vectors [u x v >= 0] is the order of their angles, and
    it is transitive through a vector that is not null. *)

Definition forward (ux uy : Q) : Prop := 0 < ux \/ (ux == 0 /\ 0 <= uy).

(** A vector along the sweep: forward for the lower chain, backward for the
    upper chain. *)
Definition along (up : bool) (ux uy : Q) : Prop :=
  if up then forward ux uy else forward (- ux) (- uy).


(** The stack [st] (top first) is a left-turning chain that keeps every point
    of [S] on its left: each side [t2 t1] goes along the sweep, has all of
    [S] on its left, and the chain turns strictly left at [t2]. *)
Fixpoint chainOk (up : bool) (S st : list Point) : Prop :=
  match st with
  | t1 :: ((t2 :: r') as r) =>
      ord up t2 t1 /\
      (forall q, In q S -> 0 <= cross t2 t1 q) /\
      match r' with t3 :: _ => 0 < cross t3 t2 t1 | [] => True end /\
      chainOk up S r
  | _ => True
  end.

(** The invariant of a chain after the points [S] have been pushed: the
    stack holds points of [S], its top is the last of [S] in the sweep and
    its bottom the first. *)
Record chainInv (up : bool) (S st : list Point) : Prop := mkChainInv {
  inv_ok : chainOk up S st;
  inv_sub : incl st S;
  inv_top : forall q, In q S -> match st with t :: _ => ord up q t | [] => False end;
  inv_bot : forall q, In q S -> ord up (last st q) q
}.

(** Consecutive pairs of a list: the sides of an open chain. *)
Definition pathEdges (l : list Point) : list (Point * Point) := combine l (tl l).

(** Consecutive triples of a list: the turns of an open chain. *)
Fixpoint pathTriples (l : list Point) : list (Point * Point * Point) :=
  match l with
  | a :: ((b :: c :: _) as r) => (a, b, c) :: pathTriples r
  | _ => []
  end.

(** The turns of a polygon, one at each vertex: the triples of consecutive
    vertices, going round past the first one. *)
Definition polygonTriples (h : list Point) : list (Point * Point * Point) :=
  pathTriples (h ++ firstn 2 h).

End HullInvariant.

(** ** src/components/algorithms/knn.tsx *)

Module KNNVisualizer.

Local Open Scope Q_scope.

(** [{ x: number; y: number; label: number }]; a label is
    [Math.floor(Math.random() * config.classes)], a natural number. *)
Record DataPoint : Type := mkDataPoint { x : Q; y : Q; label : nat }.

(** [{ ...d, dist }] *)
Record Neighbor : Type := mkNeighbor { datum : DataPoint; dist : Q }.

Record Config : Type := mkConfig { points : nat; classes : nat; k : nat }.

(** The state of the component. *)
Record State : Type := mkState {
  config : Config;
  data : list DataPoint;
  testPoint : option (Q * Q);
  prediction : option nat;
  neighbors : list Neighbor
}.

(** [getBoundingClientRect()], as far as it is read. *)
Record Rect : Type := mkRect { left : Q; top : Q }.

(** The keys of [counts: Record<number, number>] are strings: a label is
    written in decimal when it indexes the object and read back by
    [parseInt], which yields [NaN] ([None]) on a key without digits. *)
Definition keyOf (l : nat) : string := NilEmpty.string_of_uint (Nat.to_uint l).

Definition parseInt (s : string) : option nat :=
  option_map Nat.of_uint (NilEmpty.uint_of_string s).

(** The object [counts], its entries in the order the keys were created.
    ([Object.entries] lists integer keys in ascending order; the entries are
    only filtered and searched, so the order is not observed.) *)
Definition Counts : Type := list (string * nat).

(** [counts[key]], [None] for [undefined]. *)
Fixpoint getCount (counts : Counts) (key : string) : option nat :=
  match counts with
  | [] => None
  | (key', c) :: rest => if String.eqb key key' then Some c else getCount rest key
  end.

(** [counts[key] = c] *)
Fixpoint setCount (counts : Counts) (key : string) (c : nat) : Counts :=
  match counts with
  | [] => [(key, c)]
  | (key', c') :: rest =>
      if String.eqb key key' then (key', c) :: rest else (key', c') :: setCount rest key c
  end.

(** [counts[d.label] = (counts[d.label] || 0) + 1] *)
Definition countLabel (counts : Counts) (l : nat) : Counts :=
  let previous :=
    match getCount counts (keyOf l) with
    | Some c => if (c =? 0)%nat then 0%nat else c
    | None => 0%nat
    end in
  setCount counts (keyOf l) (previous + 1)%nat.

Definition countVotes (topK : list Neighbor) : Counts :=
  fold_left (fun counts d => countLabel counts (label (datum d))) topK [].

(** [Math.max(...values)]; [None] is the [-Infinity] of no values. *)
Definition maxOf (values : list nat) : option nat :=
  match values with
  | [] => None
  | v :: rest => Some (fold_left Nat.max rest v)
  end.

(** [Object.entries(counts).filter(([_, count]) => count === maxCount).map(([label]) => parseInt(label))] *)
Definition tiedLabels (counts : Counts) : list (option nat) :=
  let maxCount := maxOf (map snd counts) in
  map (fun entry => parseInt (fst entry))
      (filter (fun entry =>
                 match maxCount with
                 | Some m => (snd entry =? m)%nat
                 | None => false
                 end) counts).

(** [tiedLabels.includes(l)]: [NaN] is equal to no label. *)
Definition includes (tied : list (option nat)) (l : nat) : bool :=
  existsb (fun t => match t with Some l' => (l' =? l)%nat | None => false end) tied.

(** The squared distance to the click. *)
Definition sqDist (d : DataPoint) (cx cy : Q) : Q := (x d - cx) ^ 2 + (y d - cy) ^ 2.

(** [handleCanvasClick]: nothing happens without a canvas; otherwise the test
    point, the neighbours and the prediction are set. *)
Definition handleCanvasClick (rect : option Rect) (clientX clientY : Q) (st : State) : State :=
  match rect with
  | None => st
  | Some r =>
      let cx := clientX - left r in
      let cy := clientY - top r in
      let distances := map (fun d => mkNeighbor d (sqDist d cx cy)) (data st) in
      let sorted := JS.sortBy (fun a b => dist a - dist b) distances in
      let topK := firstn (k (config st)) sorted in
      let counts := countVotes topK in
      let tied := tiedLabels counts in
      let closestTied := find (fun p => includes tied (label (datum p))) topK in
      mkState (config st) (data st) (Some (cx, cy))
              (option_map (fun p => label (datum p)) closestTied)
              topK
  end.

(** *** The data and the colours *)

(** [const colors = ["red", "green", "blue", "orange", "purple", "cyan"]] *)
Definition colors : list string :=
  ["red"; "green"; "blue"; "orange"; "purple"; "cyan"]%string.

Local Open Scope gen_scope.

(** One element of [Array.from({ length: config.points }, () => ({ x, y, label }))]. *)
Definition genDataPoint (classes : nat) : JS.Gen DataPoint :=
  rx <- JS.random ;;
  ry <- JS.random ;;
  rl <- JS.random ;;
  JS.ret (mkDataPoint (rx * 780 + 10) (ry * 580 + 10)
                      (Z.to_nat (Qfloor (rl * inject_Z (Z.of_nat classes))))).

(** The effect on [config.points] and [config.classes]: new data, and the
    test point, the prediction and the neighbours cleared. *)
Definition regenerate (cfg : Config) : JS.Gen State :=
  newData <- JS.replicateG (points cfg) (genDataPoint (classes cfg)) ;;
  JS.ret (mkState cfg newData None None []).

(** [ctx.fillStyle = colors[p.label]]; [None] is [undefined]. *)
Definition dataColor (p : DataPoint) : option string := nth_error colors (label p).

(** [ctx.fillStyle = prediction !== null ? colors[prediction] : "gray"] *)
Definition testPointColor (st : State) : option string :=
  match prediction st with
  | Some l => nth_error colors l
  | None => Some "gray"%string
  end.

(** *** What the claim speaks about *)

(** The votes of label [l] among the neighbours [topK]. *)
Definition votes (l : nat) (topK : list Neighbor) : nat :=
  count_occ Nat.eq_dec (map (fun p => label (datum p)) topK) l.


(** The invariant of the loop that fills [counts], after the labels [seen]:
    one entry per label seen, under its key, with its number of votes. *)
Record countsInv (seen : list nat) (counts : Counts) : Prop := mkCountsInv {
  keys_unique : NoDup (map fst counts);
  entries_sound : forall key c, In (key, c) counts ->
                    exists l, key = keyOf l /\ c = count_occ Nat.eq_dec seen l /\ (0 < c)%nat;
  entries_complete : forall l, (0 < count_occ Nat.eq_dec seen l)%nat ->
                       In (keyOf l, count_occ Nat.eq_dec seen l) counts
}.

End KNNVisualizer.

(** ** The K-Means page (in src/components/algorithms/plotlygraph.tsx) *)

Module KMeansVisualizer.

Local Open Scope Q_scope.
Local Open Scope gen_scope.

(** [{ x: number; y: number; cluster?: number }] *)
Record DataPoint : Type := mkDataPoint { x : Q; y : Q; cluster : option nat }.

(** [{ x: number; y: number }], a centroid. *)
Record Center : Type := mkCenter { cx : Q; cy : Q }.

(** [euclideanDistance]: the squared distance. *)
Definition euclideanDistance (ax ay bx b_y : Q) : Q := (ax - bx) ^ 2 + (ay - b_y) ^ 2.

(** The body of [centers.forEach((c, i) => ...)] on the pair
    [(minDist, cluster)]; [None] is the [Infinity] that [minDist] starts at. *)
Definition visitCenter (p : DataPoint) (best : option Q * nat) (c : Center) (i : nat)
  : option Q * nat :=
  let dist := euclideanDistance (x p) (y p) (cx c) (cy c) in
  match fst best with
  | None => (Some dist, i)
  | Some minDist => if Qlt_le_dec dist minDist then (Some dist, i) else best
  end.

Fixpoint visitFrom (p : DataPoint) (i : nat) (centers : list Center) (best : option Q * nat)
  : option Q * nat :=
  match centers with
  | [] => best
  | c :: rest => visitFrom p (S i) rest (visitCenter p best c i)
  end.

(** The cluster given to [p]: [let minDist = Infinity; let cluster = 0; centers.forEach(...)]. *)
Definition nearestCenter (centers : list Center) (p : DataPoint) : nat :=
  snd (visitFrom p 0 centers (None, 0%nat)).

(** The two [points.map] of [step]. *)
Definition assignClusters (centers : list Center) (points : list DataPoint)
  : list DataPoint :=
  map (fun p => mkDataPoint (x p) (y p) (Some (nearestCenter centers p)))
      (map (fun p => mkDataPoint (x p) (y p) None) points).

(** [{ x: 0, y: 0, count: 0 }] *)
Record Sum : Type := mkSum { sx : Q; sy : Q; count : nat }.

(** [l[i] = f(l[i])] on an index in range. *)
Fixpoint updateAt {A : Type} (i : nat) (f : A -> A) (l : list A) : list A :=
  match l, i with
  | [], _ => []
  | a :: l', O => f a :: l'
  | a :: l', S i' => a :: updateAt i' f l'
  end.

(** The body of [points.forEach]: [sums[cluster]] of an index out of range is
    [undefined], and reading its field throws ([None]). *)
Definition addPoint (sums : option (list Sum)) (p : DataPoint) : option (list Sum) :=
  match sums with
  | None => None
  | Some sums =>
      let c := match cluster p with Some c => c | None => 0%nat end in
      match nth_error sums c with
      | None => None
      | Some _ =>
          Some (updateAt c (fun s => mkSum (sx s + x p) (sy s + y p) (S (count s))) sums)
      end
  end.

Definition accumulate (clusters : nat) (points : list DataPoint) : option (list Sum) :=
  fold_left addPoint points (Some (repeat (mkSum 0 0 0) clusters)).

(** One element of [sums.map]: the mean, or a fresh random position for a
    cluster without points. *)
Definition newCenter (s : Sum) : JS.Gen Center :=
  nx <- (if (count s =? 0)%nat
         then (r <- JS.random ;; JS.ret (r * 780 + 10))
         else JS.ret (sx s / inject_Z (Z.of_nat (count s)))) ;;
  ny <- (if (count s =? 0)%nat
         then (r <- JS.random ;; JS.ret (r * 580 + 10))
         else JS.ret (sy s / inject_Z (Z.of_nat (count s)))) ;;
  JS.ret (mkCenter nx ny).

(** [step], up to the drawing: the new points and centres, or [None] when
    the accumulation throws.  [clusters] is [config.clusters]. *)
Definition step (clusters : nat) (points : list DataPoint) (centers : list Center)
  : JS.Gen (option (list DataPoint * list Center)) :=
  let points' := assignClusters centers points in
  match accumulate clusters points' with
  | None => JS.ret None
  | Some sums =>
      centers' <- JS.traverseG newCenter sums ;;
      JS.ret (Some (points', centers'))
  end.

(** The animation: [step] runs, and runs again while [++iter < config.iterations];
    [rounds] is the number of runs left after this one. *)
Fixpoint runSteps (rounds : nat) (clusters : nat) (points : list DataPoint)
         (centers : list Center) : JS.Gen (option (list DataPoint * list Center)) :=
  r <- step clusters points centers ;;
  match r, rounds with
  | Some (points', centers'), S rounds' => runSteps rounds' clusters points' centers'
  | _, _ => JS.ret r
  end.

(** What the effect that animates comes to. *)
Inductive Run : Type :=
| Skipped
| Threw
| Finished (points : list DataPoint) (centers : list Center).

(** The whole effect for [config.iterations]: nothing without data or
    without centroids, and else at least one run of [step]. *)
Definition animate (iterations clusters : nat) (data : list DataPoint)
           (centroids : list Center) : JS.Gen Run :=
  if ((length data =? 0)%nat || (length centroids =? 0)%nat)%bool then JS.ret Skipped
  else
    r <- runSteps (Nat.pred iterations) clusters data centroids ;;
    JS.ret (match r with
            | Some (points, centers) => Finished points centers
            | None => Threw
            end).

(** [generateRandomPoints] *)
Definition genPoint : JS.Gen DataPoint :=
  rx <- JS.random ;;
  ry <- JS.random ;;
  JS.ret (mkDataPoint (rx * 780 + 10) (ry * 580 + 10) None).

Definition generateRandomPoints (points : nat) : JS.Gen (list DataPoint) :=
  JS.replicateG points genPoint.

(** *** [initializeCentroids] *)

Inductive InitMode : Type := RandomInit | KMeansPlusPlus.

(** One element of the array of the mode ["random"]. *)
Definition genCenter : JS.Gen Center :=
  rx <- JS.random ;;
  ry <- JS.random ;;
  JS.ret (mkCenter (rx * 780 + 10) (ry * 580 + 10)).

(** A centroid of the mode ["kmeans++"] is an element [points[i]] of the
    data, [None] when the index is out of range and the element [undefined]. *)
Definition Centroid : Type := option DataPoint.

(** What a loop that may not end, in code that may throw, comes to. *)
Inductive Outcome (A : Type) : Type :=
| Done (a : A)
| Throws
| OutOfFuel.
Arguments Done {A} a.
Arguments Throws {A}.
Arguments OutOfFuel {A}.

(** [Math.min(...values)] on at least one value. *)
Definition minOf (v : Q) (values : list Q) : Q := fold_left Qmin values v.

(** [Math.min(...centroids.map(c => euclideanDistance(p, c)))]; reading the
    coordinates of an [undefined] centroid throws, and no centroid at all
    gives [Infinity], which the code never meets. *)
Definition distanceToCentroids (centroids : list Centroid) (p : DataPoint) : option Q :=
  match centroids with
  | [] => None
  | _ =>
      match fold_right (fun c acc =>
                          match c, acc with
                          | Some c', Some ds =>
                              Some (euclideanDistance (x p) (y p) (x c') (y c') :: ds)
                          | _, _ => None
                          end) (Some []) centroids with
      | Some (d :: ds) => Some (minOf d ds)
      | _ => None
      end
  end.

(** [points.map(p => Math.min(...))]: the distances, unless one throws. *)
Fixpoint distancesTo (centroids : list Centroid) (points : list DataPoint) : option (list Q) :=
  match points with
  | [] => Some []
  | p :: rest =>
      match distanceToCentroids centroids p, distancesTo centroids rest with
      | Some d, Some ds => Some (d :: ds)
      | _, _ => None
      end
  end.

(** The [for] loop that picks an index: the first [i] at which the running
    sum reaches [r]; [None] when the loop ends without a pick. *)
Fixpoint pickIndex (distances : list Q) (r acc : Q) (i : nat) : option nat :=
  match distances with
  | [] => None
  | d :: rest =>
      if Qle_bool r (acc + d) then Some i else pickIndex rest r (acc + d) (S i)
  end.

(** [while (centroids.length < config.clusters) { ... }], with [fuel] rounds
    at most. *)
Fixpoint plusPlusLoop (fuel clusters : nat) (points : list DataPoint)
         (centroids : list Centroid) : JS.Gen (Outcome (list Centroid)) :=
  if (length centroids <? clusters)%nat then
    match fuel with
    | O => JS.ret OutOfFuel
    | S fuel' =>
        match distancesTo centroids points with
        | None => JS.ret Throws
        | Some distances =>
            rnd <- JS.random ;;
            let r := rnd * fold_left Qplus distances 0 in
            match pickIndex distances r 0 0 with
            | Some i => plusPlusLoop fuel' clusters points (centroids ++ [nth_error points i])
            | None => plusPlusLoop fuel' clusters points centroids
            end
        end
    end
  else JS.ret (Done centroids).

(** [initializeCentroids] in the mode ["kmeans++"]:
    [[points[Math.floor(Math.random() * points.length)]]], then the loop. *)
Definition initializePlusPlus (fuel clusters : nat) (points : list DataPoint)
  : JS.Gen (Outcome (list Centroid)) :=
  rnd <- JS.random ;;
  let first := Z.to_nat (Qfloor (rnd * inject_Z (Z.of_nat (length points)))) in
  plusPlusLoop fuel clusters points [nth_error points first].

(** [initializeCentroids] in the mode ["random"]. *)
Definition initializeRandom (clusters : nat) : JS.Gen (list Center) :=
  JS.replicateG clusters genCenter.

(** *** What the claim speaks about *)

(** The squared distance from [p] to the centre [c]. *)
Definition distTo (p : DataPoint) (c : Center) : Q :=
  euclideanDistance (x p) (y p) (cx c) (cy c).

(** The pair [(minDist, cluster)] after the centres [seen]: the least
    distance so far and the first index at which it is found. *)
Definition bestSoFar (p : DataPoint) (seen : list Center) (best : option Q * nat) : Prop :=
  match fst best with
  | None => seen = [] /\ snd best = 0%nat
  | Some d =>
      exists c, nth_error seen (snd best) = Some c /\ d = distTo p c /\
                forall k c', nth_error seen k = Some c' ->
                             d <= distTo p c' /\ ((k < snd best)%nat -> d < distTo p c')
  end.

(** The points assigned to cluster [i]. *)
Definition assignedTo (i : nat) (points : list DataPoint) : list DataPoint :=
  filter (fun p => match cluster p with Some c => (c =? i)%nat | None => false end) points.

Definition sumQ (l : list Q) : Q := fold_left Qplus l 0.

(** The arithmetic mean. *)
Definition mean (l : list Q) : Q := sumQ l / inject_Z (Z.of_nat (length l)).

(** The sampling bounds: [Math.random() * 780 + 10] and [Math.random() * 580 + 10]. *)
Definition inBounds (c : Center) : Prop :=
  10 <= cx c /\ cx c < 790 /\ 10 <= cy c /\ cy c < 590.

(** The sums after the points [seen]: entry [i] holds the sums of the
    coordinates of the points of cluster [i], and their number. *)
Definition sumsOf (clusters : nat) (seen : list DataPoint) (sums : list Sum) : Prop :=
  length sums = clusters /\
  forall i s, nth_error sums i = Some s ->
    s = mkSum (sumQ (map x (assignedTo i seen))) (sumQ (map y (assignedTo i seen)))
              (length (assignedTo i seen)).

End KMeansVisualizer.

(** ** The SOM page (in src/components/algorithms/plotlygraph.tsx) *)

Module SOMPage.

Local Open Scope R_scope.

(** A node of the grid: its weights [x], [y] and its place [i], [j]. *)
Record Node : Type := mkNode { x : R; y : R; i : Z; j : Z }.

(** [Math.hypot(a, b)] *)
Definition hypot (a b : R) : R := sqrt (a * a + b * b).

(** [Math.hypot(node.i - lastBMU.i, node.j - lastBMU.j)]: the distance in the grid. *)
Definition gridDist (node bmu : Node) : R :=
  hypot (IZR (i node - i bmu)) (IZR (j node - j bmu)).

(** [learningRate * Math.exp(-iter / iterations)] and [sigma * Math.exp(-iter / iterations)]. *)
Definition lrDecay (learningRate : R) (iter iterations : nat) : R :=
  learningRate * exp (- INR iter / INR iterations).

Definition sigmaDecay (sigma : R) (iter iterations : nat) : R :=
  sigma * exp (- INR iter / INR iterations).

(** [Math.exp(-(gridDist ** 2) / (2 * sigmaDecay ** 2))] *)
Definition influence (sigmaDecay gridDist : R) : R :=
  exp (- (gridDist ^ 2) / (2 * sigmaDecay ^ 2)).

(** The update of one node towards the input [(px, py)]:
    [node.x += lrDecay * influence * (point.x - node.x)], and the same for [y]. *)
Definition updateNode (lr sigmaD : R) (bmu : Node) (px py : R) (node : Node) : Node :=
  let infl := influence sigmaD (gridDist node bmu) in
  mkNode (x node + lr * infl * (px - x node)) (y node + lr * infl * (py - y node))
         (i node) (j node).

(** The search of the best matching unit: the first node at the least
    distance from the input; [None] is the [Infinity] that [minDist] starts at. *)
Fixpoint findBMUFrom (px py : R) (grid : list Node) (best : option R * Node) : option R * Node :=
  match grid with
  | [] => best
  | node :: rest =>
      let dist := hypot (px - x node) (py - y node) in
      findBMUFrom px py rest
        (match fst best with
         | None => (Some dist, node)
         | Some minDist => if Rlt_dec dist minDist then (Some dist, node) else best
         end)
  end.

(** One round of the training loop at iteration [iter] with the input
    [(px, py)]; [grid[0]] is the unit when the loop over the grid finds none. *)
Definition trainStep (learningRate sigma : R) (iterations iter : nat) (px py : R)
           (grid : list Node) : list Node :=
  match grid with
  | [] => []
  | first :: _ =>
      let bmu := snd (findBMUFrom px py grid (None, first)) in
      map (updateNode (lrDecay learningRate iter iterations) (sigmaDecay sigma iter iterations)
                      bmu px py) grid
  end.

(** The slider of [sigma]: [min: 0.5, max: 3]. *)
Definition sigmaInRange (sigma : R) : Prop := 5 / 10 <= sigma <= 3.

(** *** The rest of [renderSOM] *)

(** The results of [Math.random()], in the order of the calls; they lie in [0, 1). *)
Definition unitReals (rand : nat -> R) : Prop := forall n, 0 <= rand n < 1.

(** The square [-1, 1] x [-1, 1] that the page plots. *)
Definition inSquare (px py : R) : Prop := -1 <= px <= 1 /\ -1 <= py <= 1.

(** [const margin = 40] and [toCanvas]. *)
Definition margin : R := 40.

Definition toCanvas (width height px py : R) : R * R :=
  (margin + ((px + 1) / 2) * (width - 2 * margin),
   margin + (1 - (py + 1) / 2) * (height - 2 * margin)).

(** One element of [fixedData], from the two results of [Math.random()]. *)
Definition dataPoint (r1 r2 : R) : R * R :=
  let angle := r1 * 2 * PI in
  let radius := 6 / 10 + r2 * (2 / 10) in
  (cos angle * radius, sin angle * radius).

(** [Array.from({ length: count }, () => ...)] *)
Fixpoint fixedDataFrom (count : nat) (rand : nat -> R) (n : nat) : list (R * R) :=
  match count with
  | O => []
  | S count' => dataPoint (rand n) (rand (S n)) :: fixedDataFrom count' rand (S (S n))
  end.

Definition fixedData (rand : nat -> R) : list (R * R) := fixedDataFrom 200 rand 0.

(** The inner loop of the initialisation: the nodes [(i, j)], [(i, j + 1)], ... *)
Fixpoint initColumns (rand : nat -> R) (i j : Z) (count : nat) (n : nat) : list Node :=
  match count with
  | O => []
  | S count' =>
      mkNode (rand n * 2 - 1) (rand (S n) * 2 - 1) i j
      :: initColumns rand i (j + 1) count' (S (S n))
  end.

(** The outer loop: the rows [i], [i + 1], ... *)
Fixpoint initRows (rand : nat -> R) (gridSize : nat) (i : Z) (count : nat) (n : nat)
  : list Node :=
  match count with
  | O => []
  | S count' =>
      initColumns rand i 0 gridSize n
      ++ initRows rand gridSize (i + 1) count' (n + 2 * gridSize)
  end.

Definition initGrid (rand : nat -> R) (gridSize : nat) : list Node :=
  initRows rand gridSize 0 gridSize 0.

(** [fixedData[Math.floor(Math.random() * fixedData.length)]]; [None] is
    [undefined]. *)
Definition pick (data : list (R * R)) (r : R) : option (R * R) :=
  let k := Int_part (r * INR (length data)) in
  if (k <? 0)%Z then None else nth_error data (Z.to_nat k).

(** The training loop, [rounds] rounds from iteration [iter] on, [n] calls
    of [Math.random()] made so far.  Without a point, [point.x] throws
    ([None]) as soon as the grid has a node. *)
Fixpoint trainLoop (learningRate sigma : R) (iterations : nat) (data : list (R * R))
         (rand : nat -> R) (n iter rounds : nat) (grid : list Node) : option (list Node) :=
  match rounds with
  | O => Some grid
  | S rounds' =>
      match pick data (rand n), grid with
      | Some (px, py), _ =>
          trainLoop learningRate sigma iterations data rand (S n) (S iter) rounds'
                    (trainStep learningRate sigma iterations iter px py grid)
      | None, [] =>
          trainLoop learningRate sigma iterations data rand (S n) (S iter) rounds' []
      | None, _ :: _ => None
      end
  end.

(** The grid that [renderSOM] draws at [frame]: a fresh grid, trained for
    [Math.min(frame, iterations)] rounds. *)
Definition simulate (gridSize : nat) (learningRate sigma : R) (iterations frame : nat)
           (data : list (R * R)) (rand : nat -> R) : option (list Node) :=
  trainLoop learningRate sigma iterations data rand (2 * gridSize * gridSize) 0
            (Nat.min frame iterations) (initGrid rand gridSize).

(** The slider of [learningRate]: [min: 0.01, max: 0.5]. *)
Definition learningRateInRange (learningRate : R) : Prop :=
  1 / 100 <= learningRate <= 5 / 10.

(** The distance that the search of the best matching unit compares. *)
Definition distToInput (px py : R) (node : Node) : R := hypot (px - x node) (py - y node).

(** What the search holds after the nodes [seen]. *)
Definition bmuInv (px py : R) (seen : list Node) (best : option R * Node) : Prop :=
  match fst best with
  | None => seen = []
  | Some d =>
      d = distToInput px py (snd best) /\
      exists k, nth_error seen k = Some (snd best) /\
                forall k' node, nth_error seen k' = Some node ->
                  d <= distToInput px py node /\
                  ((k' < k)%nat -> d < distToInput px py node)
  end.

End SOMPage.

(** ** The activation tables of the perceptron pages *)

(** The keys of the tables. *)
Inductive ActivationName : Type := sigmoid | relu | identity | softmax.

(** [{ label, func, derivative, formula }], without the formula shown. *)
Record ActivationFunction : Type := mkActivation {
  label : string;
  func : R -> R;
  derivative : R -> R
}.

(** *** src/unnamed/part_002 *)

Module PerceptronPage.

Local Open Scope R_scope.

Definition activations (name : ActivationName) : ActivationFunction :=
  match name with
  | sigmoid => mkActivation "Sigmoid" (fun x => 1 / (1 + exp (- x))) (fun y => y * (1 - y))
  | relu => mkActivation "ReLU" (fun x => Rmax 0 x) (fun y => if Rlt_dec 0 y then 1 else 0)
  | identity => mkActivation "Identity" (fun x => x) (fun _ => 1)
  | softmax => mkActivation "Softmax" (fun x => exp x / (1 + exp x)) (fun y => y * (1 - y))
  end.

(** [{ weights: number[][]; biases: number[] }] *)
Record Layer : Type := mkLayer { weights : list (list R); biases : list R }.

(** The part of [NetworkConfig] that [getLayerOutput] reads. *)
Record NetworkConfig : Type := mkConfig {
  hiddenLayers : nat;
  activation : ActivationName;
  outputActivation : ActivationName
}.

Definition totalLayers (cfg : NetworkConfig) : nat := (hiddenLayers cfg + 1)%nat.

(** A value of the forward pass; [None] is the [NaN] that the product with
    an [undefined] input gives. *)
Definition Value : Type := option R.

(** [row.reduce((sum, weight, idx) => sum + weight * currentInput[idx], 0)] *)
Fixpoint reduceRow (idx : nat) (row : list R) (currentInput : list Value) (sum : Value)
  : Value :=
  match row with
  | [] => sum
  | weight :: rest =>
      reduceRow (S idx) rest currentInput
        (match sum, nth_error currentInput idx with
         | Some s, Some (Some v) => Some (s + weight * v)
         | _, _ => None
         end)
  end.

(** The body of the loop of [getLayerOutput] for layer [i]; the biases are
    not read. *)
Definition layerOutput (cfg : NetworkConfig) (i : nat) (layer : Layer)
           (currentInput : list Value) : list Value :=
  let rawOutput := map (fun row => reduceRow 0 row currentInput (Some 0)) (weights layer) in
  let layerActivationName :=
    if (i =? totalLayers cfg - 1)%nat then outputActivation cfg else activation cfg in
  map (option_map (func (activations layerActivationName))) rawOutput.

(** [for (let i = 0; i <= layerIndex; i++)], counted down by [rounds];
    [None] when [network[i]] is [undefined] and reading its weights throws. *)
Fixpoint layersFrom (cfg : NetworkConfig) (network : list Layer) (i rounds : nat)
         (currentInput : list Value) : option (list Value) :=
  match rounds with
  | O => Some currentInput
  | S rounds' =>
      match nth_error network i with
      | None => None
      | Some layer => layersFrom cfg network (S i) rounds' (layerOutput cfg i layer currentInput)
      end
  end.

Definition getLayerOutput (cfg : NetworkConfig) (input : list Value) (layerIndex : nat)
           (network : list Layer) : option (list Value) :=
  layersFrom cfg network 0 (S layerIndex) input.

(** The configuration with Sigmoid selected wherever Softmax was. *)
Definition sigmoidForSoftmax (name : ActivationName) : ActivationName :=
  match name with softmax => sigmoid | other => other end.

Definition withSigmoid (cfg : NetworkConfig) : NetworkConfig :=
  mkConfig (hiddenLayers cfg) (sigmoidForSoftmax (activation cfg))
           (sigmoidForSoftmax (outputActivation cfg)).

End PerceptronPage.

(** *** src/unnamed/part_003 *)

Module Perceptron.

Local Open Scope R_scope.

Definition activations (name : ActivationName) : ActivationFunction :=
  match name with
  | sigmoid => mkActivation "Sigmoid" (fun x => 1 / (1 + exp (- x))) (fun y => y * (1 - y))
  | relu => mkActivation "ReLU" (fun x => Rmax 0 x) (fun y => if Rlt_dec 0 y then 1 else 0)
  | identity => mkActivation "Identity" (fun x => x) (fun _ => 1)
  | softmax =>
      mkActivation "Softmax" (fun x => let expX := exp x in expX / (expX + 1)) (fun _ => 1)
  end.

End Perceptron.

(** *** src/components/algorithms/perceptron.tsx

    The table of this page keeps a "simplified representation for scalar
    display" under Softmax; the page takes its activations from the backend
    and reads only the labels of the table. *)

Module PerceptronVisualizer.

Local Open Scope R_scope.

Definition activations (name : ActivationName) : ActivationFunction :=
  match name with
  | sigmoid => mkActivation "Sigmoid" (fun x => 1 / (1 + exp (- x))) (fun y => y * (1 - y))
  | relu => mkActivation "ReLU" (fun x => Rmax 0 x) (fun y => if Rlt_dec 0 y then 1 else 0)
  | identity => mkActivation "Identity" (fun x => x) (fun _ => 1)
  | softmax => mkActivation "Softmax" (fun x => exp x) (fun _ => 1)
  end.

End PerceptronVisualizer.

(** ** The formulas with [Math.exp], on binary64 *)

(** The numbers of the engine are binary64.  The neighbourhood function of
    the SOM page and the activation tables call [Math.exp], whose results
    leave the range of the positive binary64 numbers for arguments that the
    pages reach; there the exact real number of the sections above is not
    what the code computes. *)

Module Binary64.

Local Open Scope float_scope.

(** [Math.exp] on binary64.  ECMAScript fixes its value at [NaN], at the two
    zeros and at the infinities, and leaves the rest to the implementation
    ("an implementation-approximated Number value").  Two more values follow
    from the range of binary64, for every implementation that returns a
    binary64 nearest to the exact value, and are what the fdlibm routine of
    the engines returns: from -746 down the exact value is under half the
    least positive binary64 ([2^-1075], lemma [exp_underflows]) and the
    result is [+0]; from 710 up it is over every finite binary64 ([2^1024],
    lemma [exp_overflows]) and the result is [Infinity].  Between the two,
    the implementation-approximated value is the parameter [middle], of
    which nothing is assumed. *)
Definition Math_exp (middle : float -> float) (x : float) : float :=
  if x <=? -746 then 0
  else if 710 <=? x then infinity
  else if x =? 0 then 1
  else if is_nan x then nan
  else middle x.

(** [Math.hypot(a, b)], as the correctly rounded square root of the sum of
    the squares. *)
Definition Math_hypot (a b : float) : float := PrimFloat.sqrt (a * a + b * b).

End Binary64.

(** *** The SOM page *)

Module SOMPage64.

Import Binary64.
Local Open Scope float_scope.

(** [Math.hypot(node.i - lastBMU.i, node.j - lastBMU.j)] *)
Definition gridDist (nodeI nodeJ bmuI bmuJ : float) : float :=
  Math_hypot (nodeI - bmuI) (nodeJ - bmuJ).

(** [sigma * Math.exp(-iter / iterations)] *)
Definition sigmaDecay (middle : float -> float) (sigma iter iterations : float) : float :=
  sigma * Math_exp middle (- iter / iterations).

(** [-(gridDist ** 2) / (2 * sigmaDecay ** 2)]; the square [x ** 2] is the
    product [x * x]. *)
Definition exponent (sigmaDecay gridDist : float) : float :=
  - (gridDist * gridDist) / (2 * (sigmaDecay * sigmaDecay)).

(** [Math.exp(-(gridDist ** 2) / (2 * sigmaDecay ** 2))] *)
Definition influence (middle : float -> float) (sigmaDecay gridDist : float) : float :=
  Math_exp middle (exponent sigmaDecay gridDist).

End SOMPage64.

(** *** The activation tables *)

(** [func] of src/unnamed/part_002. *)
Module PerceptronPage64.

Import Binary64.
Local Open Scope float_scope.

Definition func (middle : float -> float) (name : ActivationName) (x : float) : float :=
  match name with
  | sigmoid => 1 / (1 + Math_exp middle (- x))
  | relu => if is_nan x then nan else if 0 <? x then x else 0
  | identity => x
  | softmax => Math_exp middle x / (1 + Math_exp middle x)
  end.

End PerceptronPage64.

(** [func] of src/unnamed/part_003. *)
Module Perceptron64.

Import Binary64.
Local Open Scope float_scope.

Definition func (middle : float -> float) (name : ActivationName) (x : float) : float :=
  match name with
  | sigmoid => 1 / (1 + Math_exp middle (- x))
  | relu => if is_nan x then nan else if 0 <? x then x else 0
  | identity => x
  | softmax => let expX := Math_exp middle x in expX / (expX + 1)
  end.

End Perceptron64.

(** ** The requests to the backend *)

Module Fetch.

Local Open Scope string_scope.

(** A piece of a template literal: text, or [${process.env.NAME}]. *)
Inductive Part : Type :=
| Text (s : string)
| EnvVar (name : string).

(** The first argument of [fetch]: a string in double quotes, which stands
    for its characters, or a template literal in backquotes, whose
    placeholders are filled in. *)
Inductive UrlExpr : Type :=
| Quoted (s : string)
| Template (parts : list Part).

(** [process.env]; a variable that is not set reads as [undefined]. *)
Definition Env : Type := string -> option string.

Definition evalPart (env : Env) (p : Part) : string :=
  match p with
  | Text s => s
  | EnvVar name => match env name with Some v => v | None => "undefined" end
  end.

Definition evalUrl (env : Env) (e : UrlExpr) : string :=
  match e with
  | Quoted s => s
  | Template parts => String.concat EmptyString (map (evalPart env) parts)
  end.

(** The environment in which only [NEXT_PUBLIC_API_URL] is set. *)
Definition apiEnv (apiUrl : string) : Env :=
  fun name => if String.eqb name "NEXT_PUBLIC_API_URL" then Some apiUrl else None.

End Fetch.

(** *** src/components/algorithms/decision-tree.tsx *)

Module DecisionTreeVisualizer.

Import Fetch.
Local Open Scope string_scope.

(** [type Node], a tree as the backend sends it. *)
Inductive Node : Type :=
| mkNode (feature : option Z) (threshold : option Q)
         (left right : option Node) (value : option Z) (impurity : option Q).

Record Params : Type := mkParams {
  maxDepth : Z;
  minSamplesSplit : Z;
  criterion : string;
  treeHeight : Z
}.

(** [useState({ maxDepth: 3, minSamplesSplit: 2, criterion: "gini", treeHeight: 600 })] *)
Definition initialParams : Params := mkParams 3 2 "gini" 600.

(** The body of the request: [{ dataset, params: { max_depth, min_samples_split, criterion } }]. *)
Record TreeParams : Type := mkTreeParams {
  max_depth : Z;
  min_samples_split : Z;
  criterion_ : string
}.

Record Body : Type := mkBody { dataset : string; params : TreeParams }.

Record Request : Type := mkRequest {
  url : string;
  method : string;
  headers : list (string * string);
  body : Body
}.

(** The first argument of [fetch] in the effect, as it is written: in double
    quotes. *)
Definition buildTreeUrl : UrlExpr := Quoted "${process.env.NEXT_PUBLIC_API_URL}/build_tree".

(** The request of the effect; none when [selectedDataset] is empty. *)
Definition buildTreeRequest (env : Env) (selectedDataset : string) (p : Params)
  : option Request :=
  if String.eqb selectedDataset EmptyString then None
  else Some (mkRequest (evalUrl env buildTreeUrl) "POST"
                       [("Content-Type", "application/json")]
                       (mkBody selectedDataset
                               (mkTreeParams (maxDepth p) (minSamplesSplit p) (criterion p)))).

(** The state the response is applied to. *)
Record State : Type := mkState { tree : option Node; featureNames : option (list string) }.

(** What the two [then] receive: a rejection, or the parsed body with its
    fields [tree] and [feature_names] ([None] for a field that is missing). *)
Inductive Outcome : Type :=
| Rejected
| Json (tree : option Node) (feature_names : option (list string)).

(** [.then((json) => { setTree(json.tree); setFeatureNames(json.feature_names) }).catch(...)] *)
Definition applyResponse (o : Outcome) (st : State) : State :=
  match o with
  | Rejected => st
  | Json t names => mkState t names
  end.

(** The URL the claim speaks of: [API_URL] followed by [/build_tree]. *)
Definition intendedUrl (apiUrl : string) : string := apiUrl ++ "/build_tree".

(** *** The drawing of the tree *)

(** [classColors]; [None] for a key that the table does not have. *)
Definition classColors (v : Z) : option string :=
  match v with
  | 0%Z => Some "red"
  | 1%Z => Some "blue"
  | 2%Z => Some "green"
  | 3%Z => Some "orange"
  | 4%Z => Some "violet"
  | 5%Z => Some "fuchsia"
  | 6%Z => Some "brown"
  | 7%Z => Some "gray"
  | 8%Z => Some "indigo"
  | 9%Z => Some "lime"
  | _ => None
  end.

(** What [drawNode] puts on the canvas, without the texts: the stroke of an
    edge and the filled circle of a node. *)
Inductive Shape : Type :=
| Line (x1 y1 x2 y2 : Q)
| Circle (x y radius : Q) (fill : string).

(** [const radius = 20] *)
Definition radius : Q := 20.

(** [ctx.fillStyle = isLeaf ? classColor : "purple"] *)
Definition fillOf (node : Node) : string :=
  match node with
  | mkNode _ _ lft rgt value _ =>
      let isLeaf := match lft, rgt with None, None => true | _, _ => false end in
      let classColor :=
        match value with
        | Some v => match classColors v with Some c => c | None => "gray" end
        | None => "gray"
        end in
      if isLeaf then classColor else "purple"
  end.

(** [drawNode(node, x, y, dx, dy)] on a node that is not [null]: the left
    edge and subtree, the right edge and subtree, then the circle. *)
Fixpoint drawNode (node : Node) (x y dx dy : Q) : list Shape :=
  match node with
  | mkNode _ _ lft rgt _ _ =>
      ((match lft with
        | Some l => Line x y (x - dx) (y + dy) :: drawNode l (x - dx) (y + dy) (dx / 2) dy
        | None => []
        end)
       ++ (match rgt with
           | Some r => Line x y (x + dx) (y + dy) :: drawNode r (x + dx) (y + dy) (dx / 2) dy
           | None => []
           end)
       ++ [Circle x y radius (fillOf node)])%list
  end%Q.

(** The effect that draws: [drawNode(tree, canvas.width / 2, 50, canvas.width / 5, 80)],
    and nothing without a tree. *)
Definition drawTree (t : option Node) (width : Q) : list Shape :=
  match t with
  | None => []
  | Some root => drawNode root (width / 2) 50 (width / 5) 80
  end%Q.

(** The attributes of the canvas: [width={700}] and [height={params.treeHeight - 50}]. *)
Definition canvasWidth : Q := 700.
Definition canvasHeight (p : Params) : Q := inject_Z (treeHeight p - 50).

(** The number of edges on the longest way down from a node. *)
Fixpoint depth (node : Node) : nat :=
  match node with
  | mkNode _ _ lft rgt _ _ =>
      match lft, rgt with
      | None, None => 0%nat
      | _, _ =>
          S (Nat.max (match lft with Some l => depth l | None => 0%nat end)
                     (match rgt with Some r => depth r | None => 0%nat end))
      end
  end.

(** The number of nodes. *)
Fixpoint size (node : Node) : nat :=
  match node with
  | mkNode _ _ lft rgt _ _ =>
      S ((match lft with Some l => size l | None => 0%nat end)
         + (match rgt with Some r => size r | None => 0%nat end))
  end.

Definition isCircle (s : Shape) : bool :=
  match s with Circle _ _ _ _ => true | Line _ _ _ _ => false end.

(** A circle that lies inside a canvas of the given width and height. *)
Definition insideCanvas (width height : Q) (s : Shape) : Prop :=
  match s with
  | Circle x y r _ => (0 <= x - r /\ x + r <= width /\ 0 <= y - r /\ y + r <= height)%Q
  | Line x1 y1 x2 y2 =>
      (0 <= x1 <= width /\ 0 <= y1 <= height /\ 0 <= x2 <= width /\ 0 <= y2 <= height)%Q
  end.

(** The centre of a circle, or the two ends of an edge, inside the strip
    [xlo < x < xhi], [ylo <= y <= yhi]; the radius of the circle is not
    counted. *)
Definition shapeWithin (xlo xhi ylo yhi : Q) (s : Shape) : Prop :=
  match s with
  | Circle x y r _ => r = radius /\ (xlo < x < xhi /\ ylo <= y <= yhi)%Q
  | Line x1 y1 x2 y2 =>
      (xlo < x1 < xhi /\ ylo <= y1 <= yhi /\ xlo < x2 < xhi /\ ylo <= y2 <= yhi)%Q
  end.

End DecisionTreeVisualizer.

(** *** The same request in src/components/algorithms/random-forest.tsx and
    in src/components/algorithms/dbscan.tsx: written in backquotes. *)

Module RandomForestPage.

Import Fetch.
Local Open Scope string_scope.

Definition buildForestUrl : UrlExpr :=
  Template [EnvVar "NEXT_PUBLIC_API_URL"; Text "/build_forest"].

Definition predictForestUrl : UrlExpr :=
  Template [EnvVar "NEXT_PUBLIC_API_URL"; Text "/predict_forest"].

End RandomForestPage.

Module DBSCANFetch.

Import Fetch.
Local Open Scope string_scope.

Definition dbscanUrl : UrlExpr := Template [EnvVar "NEXT_PUBLIC_API_URL"; Text "/dbscan"].

End DBSCANFetch.

(** * Part II: the properties *)

(** ** Sorting *)

Section Sorting.

Import JS.

Context {A : Type} (compare : A -> A -> Q).

Lemma insertBy_perm a l : Permutation (a :: l) (insertBy compare a l).
Proof.
  induction l as [| b l IH]; simpl; [apply Permutation_refl |].
  destruct (Qle_bool (compare a b) 0); [apply Permutation_refl |].
  eapply perm_trans; [apply perm_swap | apply perm_skip, IH].
Qed.

Lemma sortBy_perm l : Permutation l (sortBy compare l).
Proof.
  induction l as [| a l IH]; simpl; [apply perm_nil |].
  eapply perm_trans; [apply perm_skip, IH | apply insertBy_perm].
Qed.

(** The order the comparator stands for. *)
Variable le : A -> A -> Prop.
Hypothesis compare_le : forall a b, Qle_bool (compare a b) 0 = true -> le a b.
Hypothesis compare_gt : forall a b, Qle_bool (compare a b) 0 = false -> le b a.
Hypothesis le_trans : forall a b c, le a b -> le b c -> le a c.

Lemma insertBy_sorted_by a l :
  StronglySorted le l -> StronglySorted le (insertBy compare a l).
Proof.
  induction l as [| b l IH]; intros Hs; simpl.
  - constructor; constructor.
  - destruct (Qle_bool (compare a b) 0) eqn:E.
    + apply compare_le in E. constructor; [exact Hs |].
      constructor; [exact E |].
      apply StronglySorted_inv in Hs. destruct Hs as [_ Hall].
      rewrite Forall_forall in *. intros x Hx.
      exact (le_trans _ _ _ E (Hall x Hx)).
    + apply compare_gt in E.
      apply StronglySorted_inv in Hs. destruct Hs as [Hs Hall].
      constructor; [now apply IH |].
      rewrite Forall_forall in *. intros x Hx.
      apply (Permutation_in _ (Permutation_sym (insertBy_perm a l))) in Hx.
      destruct Hx as [<- | Hx]; [exact E | now apply Hall].
Qed.

Lemma sortBy_sorted_by l : StronglySorted le (sortBy compare l).
Proof.
  induction l as [| a l IH]; simpl; [constructor | now apply insertBy_sorted_by].
Qed.

End Sorting.

(** ** The convex hull of the DBSCAN page *)

Section ConvexHull.

Import JS DBSCANPage HullInvariant.
Local Open Scope Q_scope.

Lemma lexle_refl a : lexle a a.
Proof. unfold lexle. right. split; [reflexivity | apply Qle_refl]. Qed.

Lemma lexle_trans a b c : lexle a b -> lexle b c -> lexle a c.
Proof. unfold lexle. intros [H1 | [H1 H1']] [H2 | [H2 H2']]; [left; lra .. | right; split; lra]. Qed.

Lemma lexle_total a b : lexle a b \/ lexle b a.
Proof.
  unfold lexle.
  destruct (Q_dec (px a) (px b)) as [[H | H] | H]; [left; left; exact H | right; left; exact H |].
  destruct (Qlt_le_dec (py b) (py a)) as [H' | H'].
  - right. right. split; lra.
  - left. right. split; lra.
Qed.

Lemma lexle_antisym a b : lexle a b -> lexle b a -> samePoint a b.
Proof. unfold lexle, samePoint. intros [H1 | [H1 H1']] [H2 | [H2 H2']]; split; lra. Qed.

Lemma ord_refl up a : ord up a a.
Proof. destruct up; apply lexle_refl. Qed.

Lemma ord_trans up a b c : ord up a b -> ord up b c -> ord up a c.
Proof. destruct up; simpl; eauto using lexle_trans. Qed.

Lemma ord_total up a b : ord up a b \/ ord up b a.
Proof. destruct up; simpl; [apply lexle_total | apply lexle_total]. Qed.

Lemma ord_antisym up a b : ord up a b -> ord up b a -> samePoint a b.
Proof.
  destruct up; simpl; intros H1 H2.
  - now apply lexle_antisym.
  - destruct (lexle_antisym _ _ H2 H1). split; lra.
Qed.

Lemma samePoint_dec a b : {samePoint a b} + {~ samePoint a b}.
Proof.
  unfold samePoint.
  destruct (Qeq_dec (px a) (px b)); [| right; tauto].
  destruct (Qeq_dec (py a) (py b)); [left; tauto | right; tauto].
Qed.

Lemma forward_angle_trans (ux uy vx vy wx wy : Q) :
  forward ux uy -> forward vx vy -> forward wx wy ->
  ~ (vx == 0 /\ vy == 0) ->
  0 <= ux * vy - uy * vx ->
  0 <= vx * wy - vy * wx ->
  0 <= ux * wy - uy * wx.
Proof.
  unfold forward. intros Hu Hv Hw Hnz Huv Hvw.
  assert (Hux : 0 <= ux) by (destruct Hu as [? | [? ?]]; lra).
  destruct Hv as [Hv | [Hv0 Hvy]].
  - assert (E : (ux * wy - uy * wx) * vx
                == (ux * vy - uy * vx) * wx + (vx * wy - vy * wx) * ux) by ring.
    assert (0 <= wx) by (destruct Hw as [? | [? ?]]; lra).
    nra.
  - assert (0 < vy).
    { destruct (Qlt_le_dec 0 vy); auto. exfalso. apply Hnz. split; lra. }
    assert (wx == 0) by (destruct Hw as [? | [? ?]]; [nra | lra]).
    assert (0 <= wy) by (destruct Hw as [? | [? ?]]; lra).
    nra.
Qed.

(** The same with all three vectors reversed: the products do not change. *)
Lemma backward_angle_trans (ux uy vx vy wx wy : Q) :
  forward (- ux) (- uy) -> forward (- vx) (- vy) -> forward (- wx) (- wy) ->
  ~ (vx == 0 /\ vy == 0) ->
  0 <= ux * vy - uy * vx ->
  0 <= vx * wy - vy * wx ->
  0 <= ux * wy - uy * wx.
Proof.
  intros Hu Hv Hw Hnz Huv Hvw.
  assert (H := forward_angle_trans _ _ _ _ _ _ Hu Hv Hw).
  assert (0 <= - ux * - wy - - uy * - wx); [apply H | lra].
  - intros [? ?]. apply Hnz. split; lra.
  - lra.
  - lra.
Qed.

Lemma along_angle_trans up (ux uy vx vy wx wy : Q) :
  along up ux uy -> along up vx vy -> along up wx wy ->
  ~ (vx == 0 /\ vy == 0) ->
  0 <= ux * vy - uy * vx ->
  0 <= vx * wy - vy * wx ->
  0 <= ux * wy - uy * wx.
Proof.
  destruct up; simpl; [apply forward_angle_trans | apply backward_angle_trans].
Qed.

Lemma ord_along up a b : ord up a b -> along up (px b - px a) (py b - py a).
Proof.
  destruct up; simpl; unfold lexle, forward;
    (intros [H | [H H']]; [left | right; split]; lra).
Qed.

(** The order of angles around a point [o], for either sweep. *)
Lemma ord_angle_trans up (o u v w : Point) :
  ord up o u -> ord up o v -> ord up o w ->
  ~ samePoint o v ->
  0 <= cross o u v -> 0 <= cross o v w -> 0 <= cross o u w.
Proof.
  unfold cross, samePoint. intros Hu Hv Hw Hnz Huv Hvw.
  apply (along_angle_trans up (px u - px o) (py u - py o) (px v - px o) (py v - py o));
    auto using ord_along.
  intros [? ?]. apply Hnz. split; lra.
Qed.

Lemma cross_swap o a b : cross o b a == - cross o a b.
Proof. unfold cross. ring. Qed.

Lemma cross_same_origin o o' a b : samePoint o o' -> cross o a b == cross o' a b.
Proof. unfold cross. intros [Hx Hy]. rewrite Hx, Hy. reflexivity. Qed.

Lemma cross_same_last o a b b' : samePoint b b' -> cross o a b == cross o a b'.
Proof. unfold cross. intros [Hx Hy]. rewrite Hx, Hy. reflexivity. Qed.

Lemma cross_degenerate o a : cross o a o == 0.
Proof. unfold cross. ring. Qed.

Lemma cross_on_end o a : cross o a a == 0.
Proof. unfold cross. ring. Qed.

Lemma ord_same_l up a b c : samePoint a b -> ord up a c -> ord up b c.
Proof.
  unfold samePoint. intros [Hx Hy].
  destruct up; simpl; unfold lexle; (intros [H | [H H']]; [left | right; split]; lra).
Qed.

(** A point past [c] that is left of the side [b c] is left of the side
    [a b] before it, when the chain turns left at [b]. *)
Lemma left_of_earlier_edge up a b c p :
  ord up a b -> ord up b c -> ord up c p ->
  0 < cross a b c -> 0 <= cross b c p -> 0 <= cross a b p.
Proof.
  intros Hab Hbc Hcp Hturn Hleft.
  assert (H := along_angle_trans up _ _ _ _ _ _
                 (ord_along _ _ _ Hab) (ord_along _ _ _ Hbc) (ord_along _ _ _ Hcp)).
  unfold cross in *.
  assert (0 <= (px b - px a) * (py p - py c) - (py b - py a) * (px p - px c)); [apply H | lra].
  - intros [? ?]. nra.
  - lra.
  - lra.
Qed.

(** Around [t]: [p] is to the right of [t t'] and [q] to its left, all three
    past [t]; then [q] is left of [t p]. *)
Lemma left_of_lowered_edge up t t' p q :
  ord up t t' -> ord up t q -> ord up t p -> ~ samePoint t t' ->
  0 <= cross t t' q -> cross t t' p <= 0 -> 0 <= cross t p q.
Proof.
  intros Ht' Hq Hp Hne Hleft Hright.
  apply (ord_angle_trans up t p t' q); auto.
  rewrite cross_swap. lra.
Qed.

(** At [t]: [q] comes before [t] and is left of the side [t' t]; [p] comes
    after [t] and is strictly left of it; then [q] is left of [t p]. *)
Lemma left_of_next_edge up t' t p q :
  ord up q t -> ord up t' t -> ord up t p ->
  0 <= cross t' t q -> 0 < cross t' t p -> 0 <= cross t p q.
Proof.
  intros Hq Ht' Hp Hleft Hstrict.
  assert (H := along_angle_trans up _ _ _ _ _ _
                 (ord_along _ _ _ Hq) (ord_along _ _ _ Ht') (ord_along _ _ _ Hp)).
  unfold cross in *.
  assert (0 <= (px t - px q) * (py p - py t) - (py t - py q) * (px p - px t)); [apply H | lra].
  - intros [? ?]. nra.
  - lra.
  - lra.
Qed.

(** *** The inner loop *)

Lemma popWhile_suffix st p : exists pre, st = pre ++ popWhile st p.
Proof.
  induction st as [| t1 [| t2 r] IH].
  - exists []. reflexivity.
  - exists []. reflexivity.
  - change (popWhile (t1 :: t2 :: r) p)
      with (if Qle_bool (cross t2 t1 p) 0 then popWhile (t2 :: r) p else t1 :: t2 :: r).
    destruct (Qle_bool (cross t2 t1 p) 0).
    + destruct IH as [pre E]. exists (t1 :: pre).
      change ((t1 :: pre) ++ popWhile (t2 :: r) p) with (t1 :: (pre ++ popWhile (t2 :: r) p)).
      now rewrite <- E.
    + exists []. reflexivity.
Qed.

Lemma popWhile_nonempty st p : st <> [] -> popWhile st p <> [].
Proof.
  induction st as [| t1 [| t2 r] IH]; intros H; try (simpl; congruence).
  change (popWhile (t1 :: t2 :: r) p)
    with (if Qle_bool (cross t2 t1 p) 0 then popWhile (t2 :: r) p else t1 :: t2 :: r).
  destruct (Qle_bool (cross t2 t1 p) 0); [apply IH |]; congruence.
Qed.

Lemma popWhile_last st p d : last (popWhile st p) d = last st d.
Proof.
  induction st as [| t1 [| t2 r] IH]; try reflexivity.
  change (popWhile (t1 :: t2 :: r) p)
    with (if Qle_bool (cross t2 t1 p) 0 then popWhile (t2 :: r) p else t1 :: t2 :: r).
  destruct (Qle_bool (cross t2 t1 p) 0); [| reflexivity].
  rewrite IH. reflexivity.
Qed.

(** When the loop stops above a second element, [p] is strictly to the left
    of the top side. *)
Lemma popWhile_exit st p t t2 r :
  popWhile st p = t :: t2 :: r -> 0 < cross t2 t p.
Proof.
  induction st as [| t1 [| s2 r'] IH]; try (simpl; discriminate).
  change (popWhile (t1 :: s2 :: r') p)
    with (if Qle_bool (cross s2 t1 p) 0 then popWhile (s2 :: r') p else t1 :: s2 :: r').
  destruct (Qle_bool (cross s2 t1 p) 0) eqn:E; [exact IH |].
  intros H. injection H as -> -> ->.
  destruct (Qlt_le_dec 0 (cross t2 t p)) as [Hlt | Hle]; [exact Hlt |].
  apply Qle_bool_iff in Hle. congruence.
Qed.

Lemma chainOk_tail up S t st : chainOk up S (t :: st) -> chainOk up S st.
Proof. destruct st as [| t2 r]; simpl; tauto. Qed.

Lemma chainOk_suffix up S pre st : chainOk up S (pre ++ st) -> chainOk up S st.
Proof.
  induction pre as [| a pre IH]; simpl app; [tauto |].
  intros H. apply IH. exact (chainOk_tail _ _ _ _ H).
Qed.

Lemma chainOk_popWhile up S st p : chainOk up S st -> chainOk up S (popWhile st p).
Proof.
  destruct (popWhile_suffix st p) as [pre E]. intros H.
  rewrite E in H. exact (chainOk_suffix _ _ _ _ H).
Qed.

Lemma incl_popWhile st p (S : list Point) : incl st S -> incl (popWhile st p) S.
Proof.
  destruct (popWhile_suffix st p) as [pre E]. intros H q Hq.
  apply H. rewrite E. apply in_or_app. now right.
Qed.

(** Every point of [S] that comes after the element the loop stops at is left
    of the side from that element to [p], if that holds at the top. *)
Lemma popWhile_after up S p :
  forall st,
    chainOk up S st -> incl st S -> (forall q, In q S -> ord up q p) ->
    (forall t r, st = t :: r -> forall q, In q S -> ord up t q -> 0 <= cross t p q) ->
    forall t r, popWhile st p = t :: r ->
    forall q, In q S -> ord up t q -> 0 <= cross t p q.
Proof.
  induction st as [| t1 [| t2 r'] IH]; intros Hok Hsub Hp Htop t r.
  - discriminate.
  - simpl. intros E. injection E as <- <-. eapply Htop. reflexivity.
  - change (popWhile (t1 :: t2 :: r') p)
      with (if Qle_bool (cross t2 t1 p) 0 then popWhile (t2 :: r') p else t1 :: t2 :: r').
    destruct (Qle_bool (cross t2 t1 p) 0) eqn:E.
    + apply Qle_bool_iff in E.
      apply IH; auto.
      * exact (chainOk_tail _ _ _ _ Hok).
      * intros x Hx. apply Hsub. now right.
      * intros t' r'' E' q Hq Hord. injection E' as <- <-.
        destruct Hok as (Hedge & Hleft & _ & _).
        destruct (samePoint_dec t2 t1) as [Hs | Hns].
        -- rewrite (cross_same_origin _ _ _ _ Hs).
           apply (Htop t1 (t2 :: r') eq_refl q Hq).
           exact (ord_same_l _ _ _ _ Hs Hord).
        -- apply (left_of_lowered_edge up t2 t1 p q); auto.
           apply Hp. apply Hsub. right. now left.
    + intros E'. injection E' as <- <-. eapply Htop. reflexivity.
Qed.

(** After the loop, the side from the new top to [p] has all of [S] on its left. *)
Lemma popWhile_new_edge up S st p t r :
  chainInv up S st -> (forall q, In q S -> ord up q p) ->
  popWhile st p = t :: r ->
  forall q, In q S -> 0 <= cross t p q.
Proof.
  intros [Hok Hsub Htop Hbot] Hp E q Hq.
  assert (Hafter : forall q, In q S -> ord up t q -> 0 <= cross t p q).
  { apply (popWhile_after up S p st Hok Hsub Hp) with (r := r); [| exact E].
    intros t0 r0 -> q0 Hq0 Hord.
    assert (Hs : samePoint q0 t0) by (apply (ord_antisym up); [apply (Htop q0 Hq0) | exact Hord]).
    rewrite (cross_same_last _ _ _ _ Hs), cross_degenerate. apply Qle_refl. }
  assert (Hint : In t S).
  { apply (incl_popWhile st p S Hsub). rewrite E. now left. }
  destruct (ord_total up t q) as [Htq | Hqt]; [now apply Hafter |].
  destruct r as [| t2 r'].
  - apply Hafter; [exact Hq |].
    assert (El : last st q = t) by (rewrite <- (popWhile_last st p q), E; reflexivity).
    rewrite <- El. apply Hbot, Hq.
  - assert (Hok' := chainOk_popWhile up S st p Hok). rewrite E in Hok'.
    destruct Hok' as (Hedge & Hleft & _ & _).
    apply (left_of_next_edge up t2 t p q); auto.
    exact (popWhile_exit _ _ _ _ _ E).
Qed.

(** [p], which comes after the whole chain and is left of its top side, is
    left of every side. *)
Lemma chainOk_add up S p :
  forall st,
    chainOk up S st ->
    match st with
    | t :: r => ord up t p /\ match r with t2 :: _ => 0 <= cross t2 t p | [] => True end
    | [] => True
    end ->
    chainOk up (p :: S) st.
Proof.
  induction st as [| t1 [| t2 r'] IH]; intros Hok Hp; try exact I.
  destruct Hok as (Hedge & Hleft & Hturn & Hrest).
  destruct Hp as (Ht1p & Hp).
  change (ord up t2 t1 /\ (forall q, In q (p :: S) -> 0 <= cross t2 t1 q) /\
          match r' with t3 :: _ => 0 < cross t3 t2 t1 | [] => True end /\
          chainOk up (p :: S) (t2 :: r')).
  repeat split; auto.
  - intros q [<- | Hq]; auto.
  - apply IH; [exact Hrest |].
    split; [exact (ord_trans _ _ _ _ Hedge Ht1p) |].
    destruct r' as [| t3 r'']; [exact I |].
    destruct Hrest as (Hedge' & _).
    apply (left_of_earlier_edge up t3 t2 t1 p); auto.
Qed.

(** *** One push keeps the invariant *)

Lemma pushPoint_inv up S st p :
  chainInv up S st -> (forall q, In q S -> ord up q p) ->
  chainInv up (p :: S) (pushPoint st p).
Proof.
  intros Hinv Hp. unfold pushPoint.
  destruct (popWhile st p) as [| t r] eqn:E.
  - (* the stack was empty, and so was [S] *)
    assert (st = []) as ->.
    { destruct st; [reflexivity |]. exfalso. now apply (popWhile_nonempty (p0 :: st) p). }
    assert (HS : forall q, ~ In q S) by (intros q Hq; exact (inv_top _ _ _ Hinv q Hq)).
    constructor.
    + exact I.
    + intros x [<- | []]. now left.
    + intros q [<- | Hq]; [apply ord_refl | now apply HS in Hq].
    + intros q [<- | Hq]; [apply ord_refl | now apply HS in Hq].
  - assert (Hnew := popWhile_new_edge up S st p t r Hinv Hp E).
    assert (Hint : In t S).
    { apply (incl_popWhile st p S (inv_sub _ _ _ Hinv)). rewrite E. now left. }
    assert (Hok' := chainOk_popWhile up S st p (inv_ok _ _ _ Hinv)). rewrite E in Hok'.
    constructor.
    + change (ord up t p /\ (forall q, In q (p :: S) -> 0 <= cross t p q) /\
              match r with t2 :: _ => 0 < cross t2 t p | [] => True end /\
              chainOk up (p :: S) (t :: r)).
      repeat split.
      * apply Hp, Hint.
      * intros q [<- | Hq]; [rewrite cross_on_end; apply Qle_refl | now apply Hnew].
      * destruct r as [| t2 r']; [exact I | exact (popWhile_exit _ _ _ _ _ E)].
      * apply chainOk_add; [exact Hok' |].
        split; [apply Hp, Hint |].
        destruct r as [| t2 r']; [exact I |].
        apply Qlt_le_weak. exact (popWhile_exit _ _ _ _ _ E).
    + intros x [<- | Hx]; [now left | right].
      apply (incl_popWhile st p S (inv_sub _ _ _ Hinv)). rewrite E. exact Hx.
    + intros q [<- | Hq]; [apply ord_refl | now apply Hp].
    + intros q Hq.
      assert (El : last (p :: t :: r) q = last st q).
      { rewrite <- (popWhile_last st p q), E. reflexivity. }
      rewrite El.
      destruct Hq as [<- | Hq]; [| exact (inv_bot _ _ _ Hinv q Hq)].
      destruct st as [| s0 st']; [discriminate |].
      assert (Hl : In (last (s0 :: st') p) S).
      { apply (inv_sub _ _ _ Hinv).
        destruct (exists_last (l := s0 :: st')) as (l' & a & El'); [discriminate |].
        rewrite El', last_last. apply in_or_app. right. now left. }
      apply Hp, Hl.
Qed.

(** *** A whole chain *)

Lemma fold_pushPoint_inv up :
  forall l S st,
    chainInv up S st -> StronglySorted (ord up) l ->
    (forall q p, In q S -> In p l -> ord up q p) ->
    chainInv up (rev l ++ S) (fold_left pushPoint l st).
Proof.
  induction l as [| p l IH]; intros S st Hinv Hsorted Hbefore.
  - exact Hinv.
  - apply StronglySorted_inv in Hsorted. destruct Hsorted as [Hsorted Hall].
    rewrite Forall_forall in Hall.
    change (rev (p :: l)) with (rev l ++ [p]). rewrite <- app_assoc.
    change (chainInv up (rev l ++ p :: S) (fold_left pushPoint l (pushPoint st p))).
    apply IH; auto.
    + apply pushPoint_inv; auto. intros q Hq. apply Hbefore; [exact Hq | now left].
    + intros q x [<- | Hq] Hx; [now apply Hall |].
      apply Hbefore; [exact Hq | now right].
Qed.

Lemma chainInv_nil up : chainInv up [] [].
Proof. constructor; [exact I | intros x [] | intros q [] | intros q []]. Qed.

Lemma buildChain_inv up l :
  StronglySorted (ord up) l -> chainInv up (rev l) (buildChain l).
Proof.
  intros H. unfold buildChain.
  rewrite <- (app_nil_r (rev l)).
  apply fold_pushPoint_inv; [apply chainInv_nil | exact H | intros q p []].
Qed.

Lemma fold_pushPoint_last l : forall st d,
  st <> [] -> last (fold_left pushPoint l st) d = last st d.
Proof.
  induction l as [| p l IH]; intros st d Hst; [reflexivity |].
  change (last (fold_left pushPoint l (pushPoint st p)) d = last st d).
  rewrite IH by (unfold pushPoint; discriminate).
  unfold pushPoint.
  assert (Hne := popWhile_nonempty st p Hst).
  destruct (popWhile st p) as [| t r] eqn:E; [congruence |].
  change (last (t :: r) d = last st d).
  rewrite <- E. apply popWhile_last.
Qed.

Lemma fold_pushPoint_nonempty l : forall st,
  st <> [] -> fold_left pushPoint l st <> [].
Proof.
  induction l as [| p l IH]; intros st Hst; [exact Hst |].
  change (fold_left pushPoint l (pushPoint st p) <> []).
  apply IH. unfold pushPoint. discriminate.
Qed.

(** On at least two points a chain ends at the last point pushed, keeps the
    first one at its bottom, and holds at least two points. *)
Lemma buildChain_shape x mid z :
  exists s, buildChain (x :: mid ++ [z]) = z :: s /\ s <> [] /\ last s x = x.
Proof.
  unfold buildChain.
  change (fold_left pushPoint (x :: mid ++ [z]) [])
    with (fold_left pushPoint (mid ++ [z]) [x]).
  rewrite fold_left_app.
  change (fold_left pushPoint [z] (fold_left pushPoint mid [x]))
    with (pushPoint (fold_left pushPoint mid [x]) z).
  unfold pushPoint.
  exists (popWhile (fold_left pushPoint mid [x]) z).
  assert (Hne : fold_left pushPoint mid [x] <> []) by (apply fold_pushPoint_nonempty; discriminate).
  repeat split.
  - now apply popWhile_nonempty.
  - rewrite popWhile_last. rewrite fold_pushPoint_last by discriminate. reflexivity.
Qed.

(** *** The sort *)

Lemma compareXY_le a b : Qle_bool (compareXY a b) 0 = true -> lexle a b.
Proof.
  unfold compareXY, lexle. intros H. apply Qle_bool_iff in H.
  destruct (Qeq_bool (px a) (px b)) eqn:E.
  - apply Qeq_bool_iff in E. right. split; lra.
  - apply Qeq_bool_neq in E. left. lra.
Qed.

Lemma compareXY_gt a b : Qle_bool (compareXY a b) 0 = false -> lexle b a.
Proof.
  intros H. destruct (lexle_total a b) as [Hab | Hba]; [| exact Hba].
  exfalso. revert H. unfold compareXY, lexle in *.
  destruct (Qeq_bool (px a) (px b)) eqn:E.
  - apply Qeq_bool_iff in E. intros H.
    assert (Qle_bool (py a - py b) 0 = true); [apply Qle_bool_iff; lra | congruence].
  - apply Qeq_bool_neq in E. intros H.
    assert (Qle_bool (px a - px b) 0 = true); [apply Qle_bool_iff; lra | congruence].
Qed.

Lemma sortBy_sorted l : StronglySorted lexle (sortBy compareXY l).
Proof.
  apply sortBy_sorted_by.
  - exact compareXY_le.
  - exact compareXY_gt.
  - exact lexle_trans.
Qed.

Lemma rev_sorted l :
  StronglySorted (ord true) l -> StronglySorted (ord false) (rev l).
Proof.
  induction l as [| a l IH]; intros Hs; simpl; [constructor |].
  apply StronglySorted_inv in Hs. destruct Hs as [Hs Hall].
  rewrite Forall_forall in Hall.
  assert (Happ : forall l1, StronglySorted (ord false) l1 ->
                            (forall x, In x l1 -> ord false x a) ->
                            StronglySorted (ord false) (l1 ++ [a])).
  { induction l1 as [| b l1 IH1]; intros Hs1 Hle; simpl.
    - constructor; constructor.
    - apply StronglySorted_inv in Hs1. destruct Hs1 as [Hs1 Hall1].
      constructor.
      + apply IH1; [exact Hs1 | intros x Hx; apply Hle; now right].
      + rewrite Forall_forall in *. intros x Hx.
        apply in_app_or in Hx. destruct Hx as [Hx | [<- | []]]; [now apply Hall1 |].
        apply Hle. now left. }
  apply Happ; [now apply IH |].
  intros x Hx. apply in_rev in Hx. exact (Hall x Hx).
Qed.

Lemma map_copy (l : list Point) : map (fun p => mkPoint (px p) (py p)) l = l.
Proof.
  induction l as [| [x y] l IH]; simpl; [reflexivity | now rewrite IH].
Qed.

(** *** Sides *)

Lemma pathEdges_cons2 x y l : pathEdges (x :: y :: l) = (x, y) :: pathEdges (y :: l).
Proof. reflexivity. Qed.

Lemma pathEdges_app X : forall y Z,
  pathEdges (X ++ y :: Z) = pathEdges (X ++ [y]) ++ pathEdges (y :: Z).
Proof.
  induction X as [| x [| x' X'] IH]; intros y Z.
  - reflexivity.
  - reflexivity.
  - change (pathEdges (x :: x' :: (X' ++ y :: Z))
            = pathEdges (x :: x' :: (X' ++ [y])) ++ pathEdges (y :: Z)).
    rewrite !pathEdges_cons2.
    change ((x, x') :: pathEdges ((x' :: X') ++ y :: Z)
            = (x, x') :: (pathEdges ((x' :: X') ++ [y]) ++ pathEdges (y :: Z))).
    now rewrite IH.
Qed.

Lemma pathEdges_rev l : forall a b, In (a, b) (pathEdges (rev l)) -> In (b, a) (pathEdges l).
Proof.
  induction l as [| x [| y l] IH]; intros a b H.
  - destruct H.
  - destruct H.
  - change (rev (x :: y :: l)) with (rev (y :: l) ++ [x]) in H.
    assert (E : rev (y :: l) = rev l ++ [y]) by reflexivity.
    rewrite E, <- app_assoc in H.
    change ((rev l ++ [y]) ++ [x]) with ((rev l ++ [y]) ++ [x]) in H.
    simpl app in H.
    rewrite pathEdges_app in H. apply in_app_or in H.
    rewrite pathEdges_cons2.
    destruct H as [H | H].
    + right. apply IH. now rewrite E.
    + left. destruct H as [H | []]. now injection H as -> ->.
Qed.

Lemma chainOk_edges up S st :
  chainOk up S st ->
  forall a b, In (b, a) (pathEdges st) -> forall q, In q S -> 0 <= cross a b q.
Proof.
  induction st as [| t1 [| t2 r] IH]; intros Hok a b H q Hq.
  - destruct H.
  - destruct H.
  - rewrite pathEdges_cons2 in H.
    destruct Hok as (_ & Hleft & _ & Hrest).
    destruct H as [H | H].
    + injection H as -> ->. now apply Hleft.
    + now apply (IH Hrest a b).
Qed.

Lemma combine_app_short (l : list Point) : forall (l' e : list Point),
  (length l' <= length l)%nat -> combine (l ++ e) l' = combine l l'.
Proof.
  induction l as [| x l IH]; intros [| y l'] e H; simpl in *; try reflexivity.
  - now destruct e.
  - lia.
  - rewrite IH by lia. reflexivity.
Qed.

Lemma polygonEdges_closed v r : polygonEdges (v :: r) = pathEdges ((v :: r) ++ [v]).
Proof.
  unfold polygonEdges, pathEdges.
  change (tl ((v :: r) ++ [v])) with (r ++ [v]).
  rewrite combine_app_short; [reflexivity |].
  rewrite length_app. simpl. lia.
Qed.

(** *** The hull as the two chains *)

Lemma two_or_more (l : list Point) :
  (2 <= length l)%nat -> exists x mid z, l = x :: mid ++ [z].
Proof.
  destruct l as [| x l]; simpl; [lia |]. intros H.
  destruct (exists_last (l := l)) as (mid & z & ->); [destruct l; simpl in *; [lia | discriminate] |].
  now exists x, mid, z.
Qed.

Lemma ends_with (s : list Point) x : s <> [] -> last s x = x -> exists s0, s = s0 ++ [x].
Proof.
  intros Hne Hl. destruct (exists_last Hne) as (s0 & a & ->).
  rewrite last_last in Hl. subst a. now exists s0.
Qed.

(** For three points or more: the sorted points run from [x] to [z], the
    lower chain is [z :: s] and the upper chain [x :: s'], and the polygon is
    [s] reversed followed by [s'] reversed. *)
Lemma computeConvexHull_chains pts :
  (3 <= length pts)%nat ->
  exists x mid z s s',
    sortBy compareXY pts = x :: mid ++ [z] /\
    buildChain (x :: mid ++ [z]) = z :: s /\
    buildChain (rev (x :: mid ++ [z])) = x :: s' /\
    s <> [] /\ last s x = x /\ s' <> [] /\ last s' z = z /\
    computeConvexHull pts = rev s ++ rev s'.
Proof.
  intros Hlen. unfold computeConvexHull.
  destruct (Nat.ltb_spec (length pts) 3) as [Hlt | _]; [lia |].
  rewrite map_copy.
  destruct (two_or_more (sortBy compareXY pts)) as (x & mid & z & E).
  { rewrite <- (Permutation_length (sortBy_perm compareXY pts)). lia. }
  rewrite E.
  destruct (buildChain_shape x mid z) as (s & Es & Hs & Hl).
  assert (Er : rev (x :: mid ++ [z]) = z :: rev mid ++ [x]).
  { change (rev (x :: mid ++ [z])) with (rev (mid ++ [z]) ++ [x]).
    now rewrite rev_app_distr. }
  destruct (buildChain_shape z (rev mid) x) as (s' & Es' & Hs' & Hl').
  rewrite <- Er in Es'.
  exists x, mid, z, s, s'. repeat split; auto.
  cbv zeta. rewrite Es, Es'.
  change (rev (z :: s)) with (rev s ++ [z]).
  change (rev (x :: s')) with (rev s' ++ [x]).
  now rewrite !removelast_last.
Qed.

Lemma hull_edges x z s s' :
  s <> [] -> last s x = x -> s' <> [] -> last s' z = z ->
  forall e, In e (polygonEdges (rev s ++ rev s')) ->
            In e (pathEdges (rev (z :: s))) \/ In e (pathEdges (rev (x :: s'))).
Proof.
  intros Hs Hl Hs' Hl' e He.
  destruct (ends_with s x Hs Hl) as (s0 & ->).
  destruct (ends_with s' z Hs' Hl') as (s0' & ->).
  rewrite !rev_app_distr in He. simpl rev in He. simpl app in He.
  rewrite polygonEdges_closed in He.
  change ((x :: rev s0 ++ z :: rev s0') ++ [x])
    with (x :: ((rev s0 ++ z :: rev s0') ++ [x])) in He.
  rewrite <- app_assoc in He.
  change (x :: rev s0 ++ (z :: rev s0') ++ [x])
    with ((x :: rev s0) ++ z :: (rev s0' ++ [x])) in He.
  rewrite pathEdges_app in He. apply in_app_or in He.
  change (rev (z :: s0 ++ [x])) with (rev (s0 ++ [x]) ++ [z]).
  change (rev (x :: s0' ++ [z])) with (rev (s0' ++ [z]) ++ [x]).
  rewrite !rev_app_distr. simpl rev. simpl app.
  destruct He as [He | He]; [left | right]; exact He.
Qed.

(** *** Points on one line *)

Lemma pair_parallel (dx dy ax ay bx b_y : Q) :
  ~ (dx == 0 /\ dy == 0) ->
  dx * ay - dy * ax == 0 -> dx * b_y - dy * bx == 0 ->
  ax * b_y - ay * bx == 0.
Proof.
  intros Hd Ha Hb.
  assert (Ex : (ax * b_y - ay * bx) * dx == 0).
  { transitivity ((dx * b_y - dy * bx) * ax - (dx * ay - dy * ax) * bx); [ring |].
    rewrite Ha, Hb. ring. }
  assert (Ey : (ax * b_y - ay * bx) * dy == 0).
  { transitivity ((dx * b_y - dy * bx) * ay - (dx * ay - dy * ax) * b_y); [ring |].
    rewrite Ha, Hb. ring. }
  apply Qmult_integral in Ex. apply Qmult_integral in Ey.
  destruct Ex as [? | Ex]; [assumption |].
  destruct Ey as [? | Ey]; [assumption |].
  exfalso. apply Hd. now split.
Qed.

Lemma on_one_line x z a b c :
  ~ samePoint x z ->
  cross x z a == 0 -> cross x z b == 0 -> cross x z c == 0 ->
  cross a b c == 0.
Proof.
  unfold samePoint, cross. intros Hne Ha Hb Hc.
  set (dx := px z - px x) in *. set (dy := py z - py x) in *.
  assert (Hd : ~ (dx == 0 /\ dy == 0)).
  { unfold dx, dy. intros [? ?]. apply Hne. split; lra. }
  assert (Hab := pair_parallel dx dy _ _ _ _ Hd Ha Hb).
  assert (Hbc := pair_parallel dx dy _ _ _ _ Hd Hb Hc).
  assert (Hac := pair_parallel dx dy _ _ _ _ Hd Ha Hc).
  lra.
Qed.

(** *** The polygon *)

Lemma hull_contains pts :
  (3 <= length pts)%nat ->
  forall p, In p pts -> inside (computeConvexHull pts) p.
Proof.
  intros Hlen p Hp a b Hab.
  destruct (computeConvexHull_chains pts Hlen)
    as (x & mid & z & s & s' & Esort & Elow & Eup & Hs & Hl & Hs' & Hl' & Ehull).
  assert (Hsorted : StronglySorted (ord true) (x :: mid ++ [z])).
  { rewrite <- Esort. apply sortBy_sorted. }
  assert (Hin : In p (x :: mid ++ [z])).
  { rewrite <- Esort. exact (Permutation_in _ (sortBy_perm compareXY pts) Hp). }
  rewrite Ehull in Hab.
  destruct (hull_edges x z s s' Hs Hl Hs' Hl' _ Hab) as [He | He];
    apply pathEdges_rev in He.
  - assert (Hinv := buildChain_inv true _ Hsorted). rewrite Elow in Hinv.
    apply (chainOk_edges _ _ _ (inv_ok _ _ _ Hinv) a b He).
    now apply -> in_rev.
  - assert (Hinv := buildChain_inv false _ (rev_sorted _ Hsorted)). rewrite Eup in Hinv.
    apply (chainOk_edges _ _ _ (inv_ok _ _ _ Hinv) a b He).
    rewrite rev_involutive. exact Hin.
Qed.

Lemma hull_vertices pts : incl (computeConvexHull pts) pts.
Proof.
  destruct (Nat.lt_ge_cases (length pts) 3) as [Hlt | Hge].
  - unfold computeConvexHull.
    destruct (Nat.ltb_spec (length pts) 3); [apply incl_refl | lia].
  - destruct (computeConvexHull_chains pts Hge)
      as (x & mid & z & s & s' & Esort & Elow & Eup & Hs & Hl & Hs' & Hl' & Ehull).
    assert (Hsorted : StronglySorted (ord true) (x :: mid ++ [z])).
    { rewrite <- Esort. apply sortBy_sorted. }
    assert (Hback : forall q, In q (x :: mid ++ [z]) -> In q pts).
    { intros q Hq. rewrite <- Esort in Hq.
      exact (Permutation_in _ (Permutation_sym (sortBy_perm compareXY pts)) Hq). }
    rewrite Ehull. intros q Hq. apply Hback.
    apply in_app_or in Hq. destruct Hq as [Hq | Hq]; apply in_rev in Hq.
    + assert (Hinv := buildChain_inv true _ Hsorted). rewrite Elow in Hinv.
      apply in_rev. apply (inv_sub _ _ _ Hinv). now right.
    + assert (Hinv := buildChain_inv false _ (rev_sorted _ Hsorted)). rewrite Eup in Hinv.
      assert (H := inv_sub _ _ _ Hinv q (or_intror Hq)).
      now rewrite rev_involutive in H.
Qed.

(** A polygon of fewer than three vertices only comes out of points that are
    all on one line. *)
Lemma hull_degenerate pts :
  (3 <= length pts)%nat -> (length (computeConvexHull pts) < 3)%nat ->
  forall a b c, In a pts -> In b pts -> In c pts -> collinear a b c.
Proof.
  intros Hlen Hshort.
  destruct (computeConvexHull_chains pts Hlen)
    as (x & mid & z & s & s' & Esort & Elow & Eup & Hs & Hl & Hs' & Hl' & Ehull).
  assert (Hsorted : StronglySorted (ord true) (x :: mid ++ [z])).
  { rewrite <- Esort. apply sortBy_sorted. }
  assert (Hin : forall q, In q pts -> In q (x :: mid ++ [z])).
  { intros q Hq. rewrite <- Esort. exact (Permutation_in _ (sortBy_perm compareXY pts) Hq). }
  rewrite Ehull, length_app, !length_rev in Hshort.
  destruct s as [| s1 [| s2 s]]; [congruence | | simpl in Hshort; destruct s'; [congruence | simpl in Hshort; lia]].
  destruct s' as [| s1' [| s2' s']]; [congruence | | simpl in Hshort; lia].
  simpl in Hl, Hl'. subst s1 s1'.
  assert (Hlow := buildChain_inv true _ Hsorted). rewrite Elow in Hlow.
  assert (Hup := buildChain_inv false _ (rev_sorted _ Hsorted)). rewrite Eup in Hup.
  assert (Hline : forall q, In q pts -> cross x z q == 0).
  { intros q Hq. apply Hin in Hq.
    destruct (inv_ok _ _ _ Hlow) as (_ & H1 & _).
    destruct (inv_ok _ _ _ Hup) as (_ & H2 & _).
    assert (H1q := H1 q (proj1 (in_rev _ _) Hq)).
    assert (H2q := H2 q). rewrite rev_involutive in H2q. specialize (H2q Hq).
    unfold cross in *. lra. }
  intros a b c Ha Hb Hc. unfold collinear.
  destruct (samePoint_dec x z) as [Hsame | Hdiff].
  - assert (Hall : forall q, In q pts -> samePoint x q).
    { intros q Hq. apply Hin in Hq.
      assert (Hq' := proj1 (in_rev _ _) Hq).
      assert (Hxq := inv_bot _ _ _ Hlow q Hq'). simpl in Hxq.
      assert (Hqz := inv_top _ _ _ Hlow q Hq'). simpl in Hqz.
      apply (ord_antisym true); [exact Hxq |].
      apply (lexle_trans _ z); [exact Hqz |].
      destruct Hsame as [Ex Ey]. right. split; lra. }
    destruct (Hall a Ha) as [? ?], (Hall b Hb) as [? ?], (Hall c Hc) as [? ?].
    unfold cross.
    assert (E1 : px b - px a == 0) by lra. assert (E2 : py b - py a == 0) by lra.
    rewrite E1, E2. ring.
  - apply (on_one_line x z); auto.
Qed.

(** The polygon of the unit square with its centre, computed: the square,
    counter-clockwise. *)
Example computeConvexHull_square :
  computeConvexHull
    [mkPoint 0 0; mkPoint 1 1; mkPoint (1 # 2) (1 # 2); mkPoint 1 0; mkPoint 0 1]
  = [mkPoint 0 0; mkPoint 1 0; mkPoint 1 1; mkPoint 0 1].
Proof. reflexivity. Qed.

(** A point to the right of the square is not inside it. *)
Example outside_square :
  ~ inside [mkPoint 0 0; mkPoint 1 0; mkPoint 1 1; mkPoint 0 1] (mkPoint 2 (1 # 2)).
Proof.
  intros H. specialize (H (mkPoint 1 0) (mkPoint 1 1)).
  assert (Hc : 0 <= cross (mkPoint 1 0) (mkPoint 1 1) (mkPoint 2 (1 # 2))).
  { apply H. simpl. right. now left. }
  revert Hc. vm_compute. intros Hc. now apply Hc.
Qed.

(** C2.  On fewer than three points [computeConvexHull] returns its input:
    the same points in the same order. *)
Theorem computeConvexHull_short (pts : list Point) :
  (length pts < 3)%nat -> computeConvexHull pts = pts.
Proof.
  intros H. unfold computeConvexHull.
  destruct (Nat.ltb_spec (length pts) 3); [reflexivity | lia].
Qed.

Lemma computeConvexHull_short_witness :
  computeConvexHull [mkPoint 3 4; mkPoint (-1) 2] = [mkPoint 3 4; mkPoint (-1) 2].
Proof. apply computeConvexHull_short. simpl. lia. Defined.

End ConvexHull.

(** ** The clusters of [renderDBSCAN] *)

Section Clusters.

Import JS DBSCANPage.

Lemma mapSet_in clusters id v : forall k ps,
  In (k, ps) (mapSet clusters id v) -> In (k, ps) clusters \/ (k = id /\ ps = v).
Proof.
  induction clusters as [| [id' v'] rest IH]; intros k ps; simpl.
  - intros [H | []]. injection H as <- <-. now right.
  - destruct (Z.eqb_spec id id') as [-> | Hne]; simpl.
    + intros [H | H]; [injection H as <- <-; now right | left; now right].
    + intros [H | H]; [left; now left |].
      destruct (IH k ps H) as [H' | H']; [left; now right | now right].
Qed.

Lemma mapPush_in clusters id pt : forall k ps,
  In (k, ps) (mapPush clusters id pt) ->
  In (k, ps) clusters \/ (k = id /\ exists ps0, ps = ps0 ++ [pt] /\ In (k, ps0) clusters).
Proof.
  induction clusters as [| [id' v'] rest IH]; intros k ps; simpl; [tauto |].
  destruct (Z.eqb_spec id id') as [-> | Hne]; simpl.
  - intros [H | H]; [| left; now right].
    injection H as <- <-. right. split; [reflexivity |].
    exists v'. split; [reflexivity | now left].
  - intros [H | H]; [left; now left |].
    destruct (IH k ps H) as [H' | (-> & ps0 & -> & H')]; [left; now right |].
    right. split; [reflexivity |]. exists ps0. split; [reflexivity | now right].
Qed.

Lemma groupPoint_wellFiled seen clusters pt :
  wellFiled seen clusters -> wellFiled (pt :: seen) (groupPoint clusters pt).
Proof.
  intros Hw. unfold groupPoint.
  assert (Hw' : wellFiled (pt :: seen) clusters).
  { intros id pts H. destruct (Hw id pts H) as [Hid Hq]. split; [exact Hid |].
    intros q Hin. destruct (Hq q Hin). split; [assumption | now right]. }
  destruct (Z.eqb_spec (cluster pt) (-1)) as [Hnoise | Hlabel]; simpl; [exact Hw' |].
  set (clusters' := if negb (mapHas clusters (cluster pt))
                    then mapSet clusters (cluster pt) [] else clusters).
  assert (Hc : wellFiled (pt :: seen) clusters').
  { unfold clusters'. destruct (negb (mapHas clusters (cluster pt))); [| exact Hw'].
    intros id pts H. apply mapSet_in in H. destruct H as [H | [-> ->]].
    - now apply Hw'.
    - split; [exact Hlabel | intros q []]. }
  intros id pts H. apply mapPush_in in H.
  destruct H as [H | (-> & ps0 & -> & H)]; [now apply Hc |].
  split; [exact Hlabel |].
  intros q Hq. apply in_app_or in Hq. destruct Hq as [Hq | [<- | []]].
  - now apply (Hc _ _ H).
  - split; [reflexivity | now left].
Qed.

Lemma fold_groupPoint_wellFiled l : forall seen clusters,
  wellFiled seen clusters -> wellFiled (rev l ++ seen) (fold_left groupPoint l clusters).
Proof.
  induction l as [| pt l IH]; intros seen clusters Hw; [exact Hw |].
  simpl rev. rewrite <- app_assoc. simpl app.
  apply IH. now apply groupPoint_wellFiled.
Qed.

Lemma groupClusters_wellFiled lps : wellFiled lps (groupClusters lps).
Proof.
  assert (H := fold_groupPoint_wellFiled lps [] [] ltac:(intros id pts [])).
  rewrite app_nil_r in H.
  intros id pts Hin. destruct (H id pts Hin) as [Hid Hq]. split; [exact Hid |].
  intros q Hqin. destruct (Hq q Hqin) as [Hc Hr]. split; [exact Hc | now apply in_rev].
Qed.

Lemma groupPoint_noise clusters pt : isNoise pt = true -> groupPoint clusters pt = clusters.
Proof. unfold groupPoint, isNoise. intros ->. reflexivity. Qed.

Lemma fold_groupPoint_filter l : forall clusters,
  fold_left groupPoint l clusters
  = fold_left groupPoint (filter (fun q => negb (isNoise q)) l) clusters.
Proof.
  induction l as [| pt l IH]; intros clusters; [reflexivity |].
  simpl. destruct (isNoise pt) eqn:E; simpl.
  - rewrite (groupPoint_noise _ _ E). apply IH.
  - apply IH.
Qed.

(** The coordinates a drawn polygon goes through are those of points filed
    under its cluster. *)
Lemma overlay_vertices lps id hull :
  In (id, hull) (hullOverlays lps) ->
  forall v, In v hull -> exists q, In q lps /\ cluster q = id /\ id <> (-1)%Z /\ toPoint q = v.
Proof.
  unfold hullOverlays. intros H v Hv.
  apply in_map_iff in H. destruct H as ([id' pts] & E & Hin). simpl in E.
  injection E as -> <-.
  destruct (groupClusters_wellFiled lps id pts Hin) as [Hid Hq].
  apply hull_vertices in Hv. apply in_map_iff in Hv. destruct Hv as (q & <- & Hqin).
  exists q. destruct (Hq q Hqin). repeat split; assumption.
Qed.

(** The overlays that are drawn are among the overlays. *)
Lemma drawnOverlays_incl lps : incl (drawnOverlays lps) (hullOverlays lps).
Proof. unfold drawnOverlays. intros e He. apply filter_In in He. tauto. Qed.

(** C3.  A point labelled [-1] is in the point set of no cluster; every
    overlay is the hull of such a point set; and the overlays are those of
    the points that are not noise. *)
Theorem noise_excluded_from_hulls (lps : list LabeledPoint) (pt : LabeledPoint) :
  cluster pt = (-1)%Z ->
  (forall id pts, In (id, pts) (groupClusters lps) -> ~ In pt pts) /\
  (forall id hull, In (id, hull) (hullOverlays lps) ->
     exists pts, In (id, pts) (groupClusters lps) /\
                 hull = computeConvexHull (map toPoint pts) /\ ~ In pt pts) /\
  hullOverlays lps = hullOverlays (filter (fun q => negb (isNoise q)) lps).
Proof.
  intros Hnoise.
  assert (Hout : forall id pts, In (id, pts) (groupClusters lps) -> ~ In pt pts).
  { intros id pts Hin Hpt.
    destruct (groupClusters_wellFiled lps id pts Hin) as [Hid Hq].
    destruct (Hq pt Hpt) as [Hc _]. congruence. }
  split; [exact Hout | split].
  - unfold hullOverlays. intros id hull H.
    apply in_map_iff in H. destruct H as ([id' pts] & E & Hin). simpl in E.
    injection E as -> <-.
    exists pts. repeat split; [exact Hin | now apply (Hout id)].
  - unfold hullOverlays, groupClusters. now rewrite fold_groupPoint_filter.
Qed.

Lemma noise_excluded_from_hulls_witness :
  let noise := mkLabeled (1 # 2) (1 # 2) (-1) in
  let lps := [mkLabeled 0 0 0; noise; mkLabeled 1 0 0; mkLabeled 0 1 0; mkLabeled 1 1 0] in
  (forall id pts, In (id, pts) (groupClusters lps) -> ~ In noise pts) /\
  (forall id hull, In (id, hull) (hullOverlays lps) ->
     exists pts, In (id, pts) (groupClusters lps) /\
                 hull = computeConvexHull (map toPoint pts) /\ ~ In noise pts) /\
  hullOverlays lps = hullOverlays (filter (fun q => negb (isNoise q)) lps).
Proof. intros noise lps. apply (noise_excluded_from_hulls lps noise). reflexivity. Defined.

(** Two clusters in the order their labels appear, the noise point left out. *)
Example groupClusters_example :
  groupClusters [mkLabeled 0 0 0; mkLabeled (1 # 2) (1 # 2) (-1); mkLabeled 1 0 7;
                 mkLabeled 0 1 0]
  = [(0%Z, [mkLabeled 0 0 0; mkLabeled 0 1 0]); (7%Z, [mkLabeled 1 0 7])].
Proof. reflexivity. Qed.

End Clusters.

(** ** The answer of [POST /dbscan] *)

Section Fetch.

Import JS DBSCANPage.






End Fetch.

(** ** The generated data set of the DBSCAN page *)

Section Dataset.

Import JS DBSCANPage.

Variables (cos sin : Q -> Q) (PI : Q).

Lemma replicateG_length {A : Type} (g : Gen A) n : forall rand k,
  length (fst (replicateG n g rand k)) = n.
Proof.
  induction n as [| n IH]; intros rand k; [reflexivity |].
  simpl. unfold bind. destruct (g rand k) as [a k'].
  specialize (IH rand k'). destruct (replicateG n g rand k') as [l k'']. simpl in *.
  now rewrite IH.
Qed.

Lemma traverseG_lengths {A B : Type} (g : A -> Gen (list B)) m l :
  (forall a rand k, length (fst (g a rand k)) = m) ->
  forall rand k, length (concat (fst (traverseG g l rand k))) = (length l * m)%nat.
Proof.
  intros Hg. induction l as [| a l IH]; intros rand k; [reflexivity |].
  simpl. unfold bind. specialize (Hg a rand k). destruct (g a rand k) as [b k'].
  specialize (IH rand k'). destruct (traverseG g l rand k') as [bs k'']. simpl in *.
  rewrite length_app, Hg, IH. reflexivity.
Qed.

Lemma generateClusterData_length numClusters count rand k :
  length (fst (generateClusterData cos sin PI numClusters count rand k))
  = (Z.to_nat numClusters
     * Z.to_nat (Qfloor (inject_Z count / inject_Z numClusters)))%nat.
Proof.
  unfold generateClusterData, bind.
  assert (Hc := replicateG_length genCenter (Z.to_nat numClusters) rand k).
  destruct (replicateG (Z.to_nat numClusters) genCenter rand k) as [centers k']. simpl in Hc.
  assert (Hl := traverseG_lengths
                  (fun center => replicateG
                     (Z.to_nat (Qfloor (inject_Z count / inject_Z numClusters)))
                     (genAround cos sin PI center))
                  (Z.to_nat (Qfloor (inject_Z count / inject_Z numClusters))) centers
                  (fun a r n => replicateG_length _ _ r n) rand k').
  destruct (traverseG _ centers rand k') as [per k'']. simpl in *.
  now rewrite Hl, Hc.
Qed.

Lemma clusterPointCount_value : clusterPointCount = 180%Z.
Proof. reflexivity. Qed.

Lemma noiseCount_value : noiseCount = 20%Z.
Proof. reflexivity. Qed.

(** On binary64 the two products are the whole numbers themselves, so that
    [Math.floor] leaves them as they are. *)
Lemma counts_on_binary64 :
  (TOTAL_POINTS_f * (1 - NOISE_RATIO_f))%float = 180%float /\
  (TOTAL_POINTS_f * NOISE_RATIO_f)%float = 20%float.
Proof. split; reflexivity. Qed.

(** And so are the five quotients [clusterPointCount / numClusters]. *)
Lemma quotients_on_binary64 :
  (180 / 1 = 180)%float /\ (180 / 2 = 90)%float /\ (180 / 3 = 60)%float /\
  (180 / 4 = 45)%float /\ (180 / 5 = 36)%float.
Proof. repeat split; reflexivity. Qed.

(** C7.  For [numClusters] from 1 to 5 the data set is 180 clustered points,
    which is [floor(200 * 0.9 / numClusters) * numClusters], and 20 noise
    points: 200 points, a tenth of them noise. *)
Theorem dataset_counts (rand : nat -> Q) (k : nat) (numClusters : Z) :
  numClustersInRange numClusters ->
  let parts := fst (generateAllPoints cos sin PI numClusters rand k) in
  let clusterPoints := fst parts in
  let noisePoints := snd parts in
  length clusterPoints = 180%nat /\
  (Qfloor (200 * (9 # 10) / inject_Z numClusters) * numClusters = 180)%Z /\
  length noisePoints = 20%nat /\
  length (clusterPoints ++ noisePoints) = 200%nat /\
  inject_Z (Z.of_nat (length noisePoints))
    / inject_Z (Z.of_nat (length (clusterPoints ++ noisePoints))) == 1 # 10.
Proof.
  intros Hrange. unfold generateAllPoints, bind. cbv zeta.
  assert (Hc := generateClusterData_length numClusters clusterPointCount rand k).
  destruct (generateClusterData cos sin PI numClusters clusterPointCount rand k)
    as [clusterPoints k']. simpl in Hc.
  assert (Hn := replicateG_length genNoise (Z.to_nat noiseCount) rand k').
  destruct (replicateG (Z.to_nat noiseCount) genNoise rand k') as [noisePoints k''].
  simpl in *.
  assert (Hcases : (numClusters = 1 \/ numClusters = 2 \/ numClusters = 3
                    \/ numClusters = 4 \/ numClusters = 5)%Z)
    by (unfold numClustersInRange in Hrange; lia).
  assert (Hcl : length clusterPoints = 180%nat).
  { rewrite Hc. destruct Hcases as [-> | [-> | [-> | [-> | ->]]]]; reflexivity. }
  assert (Hno : length noisePoints = 20%nat) by (rewrite Hn; reflexivity).
  repeat split.
  - exact Hcl.
  - destruct Hcases as [-> | [-> | [-> | [-> | ->]]]]; reflexivity.
  - exact Hno.
  - rewrite length_app, Hcl, Hno. reflexivity.
  - rewrite length_app, Hcl, Hno. reflexivity.
Qed.

End Dataset.

Lemma dataset_counts_witness :
  let parts := fst (DBSCANPage.generateAllPoints (fun a => a) (fun a => a) (22 # 7) 3%Z
                      (fun n => 1 # 2) 0%nat) in
  length (fst parts) = 180%nat /\
  (Qfloor (200 * (9 # 10) / inject_Z 3) * 3 = 180)%Z /\
  length (snd parts) = 20%nat /\
  length (fst parts ++ snd parts) = 200%nat /\
  inject_Z (Z.of_nat (length (snd parts)))
    / inject_Z (Z.of_nat (length (fst parts ++ snd parts))) == 1 # 10.
Proof.
  apply (dataset_counts (fun a => a) (fun a => a) (22 # 7) (fun n => 1 # 2) 0%nat 3%Z).
  unfold DBSCANPage.numClustersInRange. lia.
Defined.

(** ** More on the DBSCAN page: the grouping, the legend, the drawing *)

Section Grouping.

Import JS DBSCANPage.

Lemma mapHas_in (clusters : ClusterMap) (id : Z) : mapHas clusters id = true <-> In id (map fst clusters).
Proof.
  induction clusters as [| [id' v'] rest IH]; simpl; [split; [discriminate | tauto] |].
  destruct (Z.eqb_spec id id') as [-> | Hne].
  - split; auto.
  - rewrite IH. split; [auto | intros [E | H]; [congruence | exact H]].
Qed.

Lemma mapSet_absent (clusters : ClusterMap) (id : Z) v :
  ~ In id (map fst clusters) -> mapSet clusters id v = clusters ++ [(id, v)].
Proof.
  induction clusters as [| [id' v'] rest IH]; simpl; intros Hnot; [reflexivity |].
  destruct (Z.eqb_spec id id') as [-> | Hne]; [tauto |].
  rewrite IH by tauto. reflexivity.
Qed.

Lemma mapPush_at (m1 : ClusterMap) (id : Z) v m2 pt :
  ~ In id (map fst m1) ->
  mapPush (m1 ++ (id, v) :: m2) id pt = m1 ++ (id, v ++ [pt]) :: m2.
Proof.
  induction m1 as [| [id' v'] m1 IH]; simpl; intros Hnot.
  - now rewrite Z.eqb_refl.
  - destruct (Z.eqb_spec id id') as [-> | Hne]; [tauto |].
    rewrite IH by tauto. reflexivity.
Qed.

Lemma first_entry (clusters : ClusterMap) (id : Z) :
  In id (map fst clusters) ->
  exists m1 v m2, clusters = m1 ++ (id, v) :: m2 /\ ~ In id (map fst m1).
Proof.
  induction clusters as [| [id' v'] rest IH]; simpl; [tauto |].
  intros H. destruct (Z.eq_dec id id') as [-> | Hne].
  - exists [], v', rest. split; [reflexivity | intros []].
  - destruct IH as (m1 & v & m2 & -> & Hnot); [destruct H; [congruence | assumption] |].
    exists ((id', v') :: m1), v, m2. split; [reflexivity |].
    simpl. intros [E | Hin]; [congruence | contradiction].
Qed.

(** What one round of the loop does to the map. *)
Lemma groupPoint_cases (clusters : ClusterMap) pt :
  (cluster pt = (-1)%Z /\ groupPoint clusters pt = clusters) \/
  (cluster pt <> (-1)%Z /\ ~ In (cluster pt) (map fst clusters) /\
   groupPoint clusters pt = clusters ++ [(cluster pt, [pt])]) \/
  (cluster pt <> (-1)%Z /\
   exists m1 v m2, clusters = m1 ++ (cluster pt, v) :: m2 /\ ~ In (cluster pt) (map fst m1) /\
                   groupPoint clusters pt = m1 ++ (cluster pt, v ++ [pt]) :: m2).
Proof.
  unfold groupPoint.
  destruct (Z.eqb_spec (cluster pt) (-1)) as [Hn | Hl]; simpl; [left; auto | right].
  destruct (mapHas clusters (cluster pt)) eqn:Ehas; simpl.
  - right. split; [exact Hl |].
    apply mapHas_in in Ehas. destruct (first_entry _ _ Ehas) as (m1 & v & m2 & -> & Hnot).
    exists m1, v, m2. repeat split; auto. now apply mapPush_at.
  - left. split; [exact Hl |].
    assert (Hnot : ~ In (cluster pt) (map fst clusters)).
    { intros H. apply mapHas_in in H. congruence. }
    split; [exact Hnot |].
    rewrite (mapSet_absent _ _ _ Hnot).
    rewrite (mapPush_at clusters (cluster pt) [] [] pt Hnot). reflexivity.
Qed.

Lemma labelledWith_snoc id seen pt :
  labelledWith id (seen ++ [pt])
  = labelledWith id seen ++ (if Z.eqb (cluster pt) id then [pt] else []).
Proof. unfold labelledWith. now rewrite filter_app. Qed.

Lemma labelledWith_other id seen pt :
  cluster pt <> id -> labelledWith id (seen ++ [pt]) = labelledWith id seen.
Proof.
  intros H. rewrite labelledWith_snoc.
  destruct (Z.eqb_spec (cluster pt) id); [contradiction | apply app_nil_r].
Qed.

Lemma labelledWith_same seen pt :
  labelledWith (cluster pt) (seen ++ [pt]) = labelledWith (cluster pt) seen ++ [pt].
Proof. rewrite labelledWith_snoc. now rewrite Z.eqb_refl. Qed.

Lemma labelledWith_none id seen :
  (forall q, In q seen -> cluster q <> id) -> labelledWith id seen = [].
Proof.
  intros H. unfold labelledWith. induction seen as [| q seen IH]; [reflexivity |].
  simpl. destruct (Z.eqb_spec (cluster q) id) as [E | _].
  - exfalso. apply (H q); [now left | exact E].
  - apply IH. intros q' Hq'. apply H. now right.
Qed.

Lemma groupPoint_grouped seen clusters pt :
  grouped seen clusters -> grouped (seen ++ [pt]) (groupPoint clusters pt).
Proof.
  intros [Hkeys Hent Hall].
  destruct (groupPoint_cases clusters pt)
    as [[Hn ->] | [(Hl & Hnot & ->) | (Hl & m1 & v & m2 & -> & Hnot & ->)]].
  - (* noise *)
    constructor; [exact Hkeys | |].
    + intros id pts Hin. destruct (Hent id pts Hin) as (Hid & Hne & ->).
      repeat split; auto. symmetry. apply labelledWith_other. congruence.
    + intros q Hq Hq'. apply in_app_or in Hq. destruct Hq as [Hq | [<- | []]]; [auto | congruence].
  - (* a new label *)
    constructor.
    + rewrite map_app. simpl. apply NoDup_app; [exact Hkeys | constructor; [intros [] | constructor] |].
      intros k Hk [<- | []]. contradiction.
    + intros id pts Hin. apply in_app_or in Hin. destruct Hin as [Hin | [[= <- <-] | []]].
      * destruct (Hent id pts Hin) as (Hid & Hne & ->).
        repeat split; auto. symmetry. apply labelledWith_other.
        intros E. apply Hnot. rewrite E. now apply (in_map fst) in Hin.
      * repeat split; [exact Hl | discriminate |].
        rewrite labelledWith_same, labelledWith_none; [reflexivity |].
        intros q Hq E. apply Hnot. rewrite <- E. apply Hall; [exact Hq | congruence].
    + intros q Hq Hq'. rewrite map_app. apply in_or_app.
      apply in_app_or in Hq. destruct Hq as [Hq | [<- | []]]; [left; auto | right; now left].
  - (* a label seen before *)
    assert (Hkeys' : map fst (m1 ++ (cluster pt, v ++ [pt]) :: m2)
                     = map fst (m1 ++ (cluster pt, v) :: m2))
      by (rewrite !map_app; reflexivity).
    constructor.
    + now rewrite Hkeys'.
    + intros id pts Hin. apply in_app_or in Hin. destruct Hin as [Hin | [[= <- <-] | Hin]].
      * destruct (Hent id pts) as (Hid & Hne & ->); [apply in_or_app; now left |].
        repeat split; auto. symmetry. apply labelledWith_other.
        intros E. apply Hnot. rewrite E. now apply (in_map fst) in Hin.
      * destruct (Hent (cluster pt) v) as (_ & _ & ->); [apply in_or_app; right; now left |].
        repeat split; [exact Hl | now destruct (labelledWith (cluster pt) seen) |].
        symmetry. apply labelledWith_same.
      * destruct (Hent id pts) as (Hid & Hne & ->); [apply in_or_app; right; now right |].
        repeat split; auto. symmetry. apply labelledWith_other.
        intros E. rewrite map_app in Hkeys. simpl in Hkeys. apply NoDup_remove_2 in Hkeys.
        apply Hkeys. apply in_or_app. right. rewrite E. now apply (in_map fst) in Hin.
    + intros q Hq Hq'. rewrite Hkeys'.
      apply in_app_or in Hq. destruct Hq as [Hq | [<- | []]]; [auto |].
      rewrite map_app. apply in_or_app. right. now left.
Qed.

Lemma fold_groupPoint_grouped l : forall seen clusters,
  grouped seen clusters -> grouped (seen ++ l) (fold_left groupPoint l clusters).
Proof.
  induction l as [| pt l IH]; intros seen clusters Hg; simpl.
  - now rewrite app_nil_r.
  - change (seen ++ pt :: l) with (seen ++ [pt] ++ l). rewrite app_assoc.
    apply IH. now apply groupPoint_grouped.
Qed.

Lemma groupClusters_grouped lps : grouped lps (groupClusters lps).
Proof.
  apply (fold_groupPoint_grouped lps [] []).
  constructor; [constructor | intros id pts [] | intros q []].
Qed.

(** X1.  The map of clusters is the partition of the points that are not
    noise by their label: [pts] is filed under [id] exactly when [id] is not
    [-1] and [pts] is the non-empty list of all points labelled [id], in
    their order; and no label has two entries. *)
Theorem groupClusters_partition (lps : list LabeledPoint) :
  NoDup (map fst (groupClusters lps)) /\
  forall id pts,
    In (id, pts) (groupClusters lps) <->
    id <> (-1)%Z /\ pts <> [] /\ pts = labelledWith id lps.
Proof.
  destruct (groupClusters_grouped lps) as [Hkeys Hent Hall].
  split; [exact Hkeys |].
  intros id pts. split; [apply Hent |].
  intros (Hid & Hne & ->).
  destruct (labelledWith id lps) as [| q rest] eqn:E; [congruence |].
  assert (Hq : In q (labelledWith id lps)) by (rewrite E; now left).
  unfold labelledWith in Hq. apply filter_In in Hq. destruct Hq as [Hq Hc].
  apply Z.eqb_eq in Hc.
  assert (Hkey : In id (map fst (groupClusters lps))).
  { rewrite <- Hc. apply Hall; [exact Hq | congruence]. }
  apply in_map_iff in Hkey. destruct Hkey as ([id' pts'] & Eid & Hin). simpl in Eid. subst id'.
  destruct (Hent id pts' Hin) as (_ & _ & Epts).
  rewrite <- E, <- Epts. exact Hin.
Qed.

Lemma pointsFiled_app m1 m2 : pointsFiled (m1 ++ m2) = (pointsFiled m1 + pointsFiled m2)%nat.
Proof. unfold pointsFiled. now rewrite map_app, list_sum_app. Qed.

Lemma groupPoint_pointsFiled (clusters : ClusterMap) pt :
  pointsFiled (groupPoint clusters pt)
  = (pointsFiled clusters + if isNoise pt then 0 else 1)%nat.
Proof.
  unfold isNoise.
  destruct (groupPoint_cases clusters pt)
    as [[Hn ->] | [(Hl & Hnot & ->) | (Hl & m1 & v & m2 & -> & Hnot & ->)]].
  - rewrite Hn. simpl. lia.
  - destruct (Z.eqb_spec (cluster pt) (-1)); [contradiction |].
    rewrite pointsFiled_app. reflexivity.
  - destruct (Z.eqb_spec (cluster pt) (-1)); [contradiction |].
    rewrite !pointsFiled_app. unfold pointsFiled. simpl. rewrite length_app. simpl. lia.
Qed.

Lemma fold_groupPoint_pointsFiled l : forall clusters,
  (pointsFiled (fold_left groupPoint l clusters) + length (filter isNoise l)
   = pointsFiled clusters + length l)%nat.
Proof.
  induction l as [| pt l IH]; intros clusters; [simpl; lia |].
  cbn [fold_left filter length].
  specialize (IH (groupPoint clusters pt)). rewrite groupPoint_pointsFiled in IH.
  destruct (isNoise pt); cbn [length]; lia.
Qed.

(** X2.  The legend accounts for every point once: the points filed in the
    clusters and the noise points shown add up to the points given, and the
    number of clusters found is the number of distinct labels other than
    [-1]. *)
Theorem legend_counts (lps : list LabeledPoint) :
  (pointsFiled (groupClusters lps) + noisePointsShown lps = length lps)%nat /\
  clustersFound lps = length (labelsPresent lps).
Proof.
  split.
  - unfold groupClusters, noisePointsShown.
    rewrite (fold_groupPoint_pointsFiled lps []). reflexivity.
  - unfold clustersFound, labelsPresent.
    destruct (groupClusters_grouped lps) as [Hkeys Hent Hall].
    rewrite <- (length_map fst).
    apply Permutation_length.
    apply NoDup_Permutation; [exact Hkeys | apply NoDup_nodup |].
    intros id. rewrite nodup_In. split.
    + intros Hin. apply in_map_iff.
      apply in_map_iff in Hin. destruct Hin as ([id' pts] & E & Hin).
      simpl in E. subst id'. destruct (Hent id pts Hin) as (Hid & Hne & Epts).
      destruct pts as [| q rest]; [congruence |].
      assert (Hq : In q (labelledWith id lps)) by (rewrite <- Epts; now left).
      unfold labelledWith in Hq. apply filter_In in Hq. destruct Hq as [Hq Hc].
      apply Z.eqb_eq in Hc. exists q. split; [exact Hc |].
      apply filter_In. split; [exact Hq |]. unfold isNoise.
      destruct (Z.eqb_spec (cluster q) (-1)); [congruence | reflexivity].
    + intros Hin. apply in_map_iff in Hin. destruct Hin as (q & <- & Hq).
      apply filter_In in Hq. destruct Hq as [Hq Hn].
      apply Hall; [exact Hq |]. unfold isNoise in Hn.
      destruct (Z.eqb_spec (cluster q) (-1)); [discriminate | assumption].
Qed.

End Grouping.

Section Colours.

Import DBSCANPage.

Lemma paletteColor_none id :
  paletteColor id = None <-> (Z.rem id 7 < 0)%Z.
Proof.
  unfold paletteColor. change (Z.of_nat (length clusterColors)) with 7%Z.
  destruct (Z.ltb_spec (Z.rem id 7) 0) as [Hneg | Hpos]; [tauto |].
  split; [| lia]. intros Hnone. apply nth_error_None in Hnone.
  change (length clusterColors) with 7%nat in Hnone.
  assert (Hb := Z.rem_bound_abs id 7 ltac:(lia)). lia.
Qed.

(** X4.  The colour looked up for a dot is [undefined] exactly when its
    label is below [-1] and not a multiple of 7; noise is red, and every
    other colour comes from the palette, the same for a label of 0 or more
    and the label 7 above it. *)
Theorem pointColor_defined (pt : LabeledPoint) :
  (pointColor pt = None <-> (cluster pt < -1)%Z /\ Z.rem (cluster pt) 7 <> 0%Z) /\
  (cluster pt = (-1)%Z -> pointColor pt = Some "#f87171"%string) /\
  (forall c, cluster pt <> (-1)%Z -> pointColor pt = Some c -> In c clusterColors) /\
  (forall pt', (0 <= cluster pt)%Z -> cluster pt' = (cluster pt + 7)%Z ->
               pointColor pt' = pointColor pt).
Proof.
  unfold pointColor. split; [split; [intros H; split | ] | split; [| split]].
  - destruct (Z.eqb_spec (cluster pt) (-1)) as [E | Hne]; [discriminate |].
    apply paletteColor_none in H.
    assert (Hle : (cluster pt <= 0)%Z).
    { destruct (Z.le_gt_cases (cluster pt) 0) as [Hle | Hgt]; [exact Hle |].
      assert (Hb := Z.rem_bound_pos (cluster pt) 7 ltac:(lia) ltac:(lia)). lia. }
    destruct (Z.eq_dec (cluster pt) 0) as [E0 | Hn0]; [rewrite E0 in H; discriminate H | lia].
  - destruct (Z.eqb_spec (cluster pt) (-1)) as [E | Hne]; [discriminate |].
    apply paletteColor_none in H. lia.
  - intros [Hlt Hrem]. destruct (Z.eqb_spec (cluster pt) (-1)) as [E | Hne]; [lia |].
    apply paletteColor_none.
    assert (Hb := Z.rem_nonpos (cluster pt) 7 ltac:(lia) ltac:(lia)). lia.
  - intros ->. reflexivity.
  - intros c Hne. destruct (Z.eqb_spec (cluster pt) (-1)) as [E | _]; [contradiction |].
    unfold paletteColor. destruct (Z.rem (cluster pt) _ <? 0)%Z; [discriminate |].
    apply nth_error_In.
  - intros pt' Hge E. rewrite E.
    destruct (Z.eqb_spec (cluster pt + 7) (-1)); [lia |].
    destruct (Z.eqb_spec (cluster pt) (-1)); [lia |].
    unfold paletteColor. change (Z.of_nat (length clusterColors)) with 7%Z.
    replace (Z.rem (cluster pt + 7) 7) with (Z.rem (cluster pt) 7); [reflexivity |].
    rewrite !Z.rem_mod_nonneg by lia.
    replace (cluster pt + 7)%Z with (cluster pt + 1 * 7)%Z by lia.
    now rewrite Z.mod_add by lia.
Qed.

End Colours.

Section Drawing.

Import JS DBSCANPage.
Local Open Scope Q_scope.

Variables (cos sin : Q -> Q) (PI : Q).

Lemma replicateG_Forall {A : Type} (P : A -> Prop) (g : Gen A) (rand : nat -> Q) :
  (forall k, P (fst (g rand k))) ->
  forall n k, Forall P (fst (replicateG n g rand k)).
Proof.
  intros Hg. induction n as [| n IH]; intros k; simpl; [constructor |].
  unfold bind. specialize (Hg k). destruct (g rand k) as [a k'].
  specialize (IH k'). destruct (replicateG n g rand k') as [l k'']. simpl in *.
  now constructor.
Qed.

Lemma traverseG_concat_Forall {A B : Type} (P : B -> Prop) (g : A -> Gen (list B))
      (rand : nat -> Q) :
  (forall a k, Forall P (fst (g a rand k))) ->
  forall l k, Forall P (concat (fst (traverseG g l rand k))).
Proof.
  intros Hg. induction l as [| a l IH]; intros k; simpl; [constructor |].
  unfold bind. specialize (Hg a k). destruct (g a rand k) as [b k'].
  specialize (IH k'). destruct (traverseG g l rand k') as [bs k'']. simpl in *.
  apply Forall_app. now split.
Qed.

Lemma clamp_range v : -1 <= clamp v <= 1.
Proof.
  unfold clamp. split.
  - apply Q.le_max_l.
  - apply Q.max_lub; [lra | apply Q.le_min_l].
Qed.

Lemma genAround_inSquare center rand k : inSquare (fst (genAround cos sin PI center rand k)).
Proof. unfold genAround, bind, ret, random, inSquare. simpl. split; apply clamp_range. Qed.

(** Whatever [Math.random], [Math.cos] and [Math.sin] return, the clustered
    points are clamped into the square. *)
Lemma generateClusterData_inSquare numClusters count rand k :
  Forall inSquare (fst (generateClusterData cos sin PI numClusters count rand k)).
Proof.
  unfold generateClusterData, bind.
  destruct (replicateG (Z.to_nat numClusters) genCenter rand k) as [centers k'].
  match goal with
  | |- context [traverseG ?g centers rand k'] =>
      assert (H := traverseG_concat_Forall inSquare g rand
                     (fun a n => replicateG_Forall inSquare _ rand
                                   (genAround_inSquare a rand) _ n) centers k');
      destruct (traverseG g centers rand k') as [per k'']
  end.
  exact H.
Qed.

Lemma genNoise_inSquare rand k : unitStream rand -> inSquare (fst (genNoise rand k)).
Proof.
  intros Hr. unfold genNoise, bind, ret, random, inSquare. simpl.
  destruct (Hr k), (Hr (S k)). repeat split; lra.
Qed.

Lemma canvas_in_plot width height p :
  inSquare p -> 2 * margin <= width -> 2 * margin <= height ->
  (margin <= canvasX width p <= width - margin) /\
  (margin <= canvasY height p <= height - margin).
Proof.
  unfold inSquare, canvasX, canvasY, margin, Qdiv. intros [[Hx1 Hx2] [Hy1 Hy2]] Hw Hh.
  change (/ 2) with (1 # 2).
  assert (Htx : 0 <= (px p + 1) * (1 # 2) <= 1) by (split; lra).
  assert (Hty : 0 <= (py p + 1) * (1 # 2) <= 1) by (split; lra).
  set (tx := (px p + 1) * (1 # 2)) in *. set (ty := (py p + 1) * (1 # 2)) in *.
  repeat split; nra.
Qed.

(** X3.  Every point of the generated data set, clustered or noise, lies in
    the square [-1, 1] x [-1, 1], and is drawn inside the plot area of a
    canvas that is at least two margins wide and high. *)
Theorem generated_points_in_plot (rand : nat -> Q) (k : nat) (numClusters : Z)
        (width height : Q) :
  unitStream rand -> 2 * margin <= width -> 2 * margin <= height ->
  let parts := fst (generateAllPoints cos sin PI numClusters rand k) in
  forall p, In p (fst parts ++ snd parts) ->
    inSquare p /\
    (margin <= canvasX width p <= width - margin) /\
    (margin <= canvasY height p <= height - margin).
Proof.
  intros Hr Hw Hh. cbv zeta. unfold generateAllPoints, bind.
  assert (Hc := generateClusterData_inSquare numClusters clusterPointCount rand k).
  destruct (generateClusterData cos sin PI numClusters clusterPointCount rand k)
    as [clusterPoints k'].
  assert (Hn := replicateG_Forall inSquare genNoise rand
                  (fun n => genNoise_inSquare rand n Hr) (Z.to_nat noiseCount) k').
  destruct (replicateG (Z.to_nat noiseCount) genNoise rand k') as [noisePoints k''].
  simpl in *. intros p Hp.
  assert (Hsq : inSquare p).
  { rewrite Forall_forall in Hc, Hn. apply in_app_or in Hp. destruct Hp; auto. }
  split; [exact Hsq | now apply canvas_in_plot].
Qed.

End Drawing.

Lemma generated_points_in_plot_witness :
  let parts := fst (DBSCANPage.generateAllPoints (fun a => a) (fun a => a) (22 # 7) 3%Z
                      (fun n => 1 # 2) 0%nat) in
  Forall (fun p =>
            DBSCANPage.inSquare p /\
            (DBSCANPage.margin <= DBSCANPage.canvasX 600 p <= 600 - DBSCANPage.margin)%Q /\
            (DBSCANPage.margin <= DBSCANPage.canvasY 500 p <= 500 - DBSCANPage.margin)%Q)
         (fst parts ++ snd parts).
Proof.
  intros parts. apply Forall_forall. revert parts.
  apply (generated_points_in_plot (fun a => a) (fun a => a) (22 # 7) (fun n => 1 # 2) 0%nat 3%Z
           600 500).
  - intros n. split; lra.
  - unfold DBSCANPage.margin. lra.
  - unfold DBSCANPage.margin. lra.
Defined.

(** ** More on the convex hull *)

Section ConvexHullShape.

Import JS DBSCANPage HullInvariant.
Local Open Scope Q_scope.

(** The two chains of a hull on three points or more, with their invariants. *)
Lemma computeConvexHull_invariants pts :
  (3 <= length pts)%nat ->
  exists x mid z s s',
    computeConvexHull pts = rev s ++ rev s' /\
    s <> [] /\ last s x = x /\ s' <> [] /\ last s' z = z /\
    StronglySorted lexle (x :: mid ++ [z]) /\
    (forall q, In q pts <-> In q (x :: mid ++ [z])) /\
    chainInv true (rev (x :: mid ++ [z])) (z :: s) /\
    chainInv false (x :: mid ++ [z]) (x :: s').
Proof.
  intros Hlen.
  destruct (computeConvexHull_chains pts Hlen)
    as (x & mid & z & s & s' & Esort & Elow & Eup & Hs & Hl & Hs' & Hl' & Ehull).
  assert (Hsorted : StronglySorted (ord true) (x :: mid ++ [z])).
  { rewrite <- Esort. apply sortBy_sorted. }
  exists x, mid, z, s, s'.
  do 6 (split; [assumption |]). split; [| split].
  - intros q. split; intros Hq.
    + rewrite <- Esort. exact (Permutation_in _ (sortBy_perm compareXY pts) Hq).
    + rewrite <- Esort in Hq.
      exact (Permutation_in _ (Permutation_sym (sortBy_perm compareXY pts)) Hq).
  - rewrite <- Elow. now apply buildChain_inv.
  - assert (H := buildChain_inv false _ (rev_sorted _ Hsorted)).
    rewrite Eup, rev_involutive in H. exact H.
Qed.

(** X5.  On three points or more the polygon has fewer than three vertices
    exactly when all the points are on one line; so an overlay is drawn for
    a cluster exactly when it has three points that are not on one line. *)
Theorem hull_flat_iff_collinear (pts : list Point) :
  (3 <= length pts)%nat ->
  ((length (computeConvexHull pts) < 3)%nat <->
   forall a b c, In a pts -> In b pts -> In c pts -> collinear a b c).
Proof.
  intros Hlen. split; [now apply hull_degenerate |].
  intros Hcol.
  destruct (computeConvexHull_invariants pts Hlen)
    as (x & mid & z & s & s' & Ehull & Hs & Hl & Hs' & Hl' & Hsorted & Hin & Hlow & Hup).
  rewrite Ehull, length_app, !length_rev.
  destruct s as [| t2 [| t3 s]]; [congruence | |].
  - destruct s' as [| u2 [| u3 s']]; [congruence | simpl; lia |].
    exfalso.
    destruct (inv_ok _ _ _ Hup) as (_ & _ & Hturn & _).
    assert (Hsub := inv_sub _ _ _ Hup).
    assert (Hc : collinear u3 u2 x).
    { apply Hcol; apply Hin, Hsub; simpl; auto. }
    unfold collinear in Hc. lra.
  - exfalso.
    destruct (inv_ok _ _ _ Hlow) as (_ & _ & Hturn & _).
    assert (Hsub := inv_sub _ _ _ Hlow).
    assert (Hc : collinear t3 t2 z).
    { apply Hcol; apply Hin, in_rev, Hsub; simpl; auto. }
    unfold collinear in Hc. lra.
Qed.

Lemma hull_flat_iff_collinear_witness :
  (length (computeConvexHull [mkPoint 0 0; mkPoint 2 2; mkPoint 1 1; mkPoint 3 3]) < 3)%nat <->
  forall a b c,
    In a [mkPoint 0 0; mkPoint 2 2; mkPoint 1 1; mkPoint 3 3] ->
    In b [mkPoint 0 0; mkPoint 2 2; mkPoint 1 1; mkPoint 3 3] ->
    In c [mkPoint 0 0; mkPoint 2 2; mkPoint 1 1; mkPoint 3 3] -> collinear a b c.
Proof. apply hull_flat_iff_collinear. simpl. lia. Defined.

(** Points on a line, computed: the polygon is the segment between the two
    ends. *)
Example computeConvexHull_segment :
  computeConvexHull [mkPoint 0 0; mkPoint 2 2; mkPoint 1 1; mkPoint 3 3]
  = [mkPoint 0 0; mkPoint 3 3].
Proof. reflexivity. Qed.

(** X6.  On three points or more the polygon starts at the first input point
    in the order by [x], then [y], and goes through the last one: its
    vertices [x] and [z] have every input point between them. *)
Theorem hull_goes_through_extremes (pts : list Point) :
  (3 <= length pts)%nat ->
  exists x z r1 r2,
    computeConvexHull pts = x :: r1 ++ z :: r2 /\
    In x pts /\ In z pts /\
    forall q, In q pts -> lexle x q /\ lexle q z.
Proof.
  intros Hlen.
  destruct (computeConvexHull_invariants pts Hlen)
    as (x & mid & z & s & s' & Ehull & Hs & Hl & Hs' & Hl' & Hsorted & Hin & Hlow & Hup).
  destruct (ends_with s x Hs Hl) as (s0 & ->).
  destruct (ends_with s' z Hs' Hl') as (s0' & ->).
  exists x, z, (rev s0), (rev s0'). split; [| split; [| split]].
  - rewrite Ehull, !rev_app_distr. reflexivity.
  - apply Hin. now left.
  - apply Hin. right. apply in_or_app. right. now left.
  - intros q Hq. apply Hin in Hq. split.
    + exact (inv_top _ _ _ Hup q Hq).
    + apply in_rev in Hq. exact (inv_top _ _ _ Hlow q Hq).
Qed.

Lemma hull_goes_through_extremes_witness :
  exists x z r1 r2,
    computeConvexHull [mkPoint 1 1; mkPoint 0 0; mkPoint 1 0; mkPoint 0 1]
    = x :: r1 ++ z :: r2 /\
    In x [mkPoint 1 1; mkPoint 0 0; mkPoint 1 0; mkPoint 0 1] /\
    In z [mkPoint 1 1; mkPoint 0 0; mkPoint 1 0; mkPoint 0 1] /\
    forall q, In q [mkPoint 1 1; mkPoint 0 0; mkPoint 1 0; mkPoint 0 1] ->
              lexle x q /\ lexle q z.
Proof. apply hull_goes_through_extremes. simpl. lia. Defined.

(** *** Strict convexity *)

Lemma pathEdges_split l : forall a b,
  In (a, b) (pathEdges l) <-> exists l1 l2, l = l1 ++ a :: b :: l2.
Proof.
  induction l as [| x [| y l] IH]; intros a b.
  - split; [intros [] | intros (l1 & l2 & E); destruct l1; discriminate].
  - split; [intros [] | intros (l1 & l2 & E); destruct l1 as [| ? [| ? ?]]; discriminate].
  - rewrite pathEdges_cons2. split.
    + intros [[= <- <-] | H]; [exists [], l; reflexivity |].
      apply IH in H. destruct H as (l1 & l2 & E). exists (x :: l1), l2. now rewrite E.
    + intros (l1 & l2 & E). destruct l1 as [| x' l1].
      * injection E as <- <- _. now left.
      * injection E as <- E. right. apply IH. now exists l1, l2.
Qed.

Lemma pathTriples_split l : forall a b c,
  In (a, b, c) (pathTriples l) -> exists l1 l2, l = l1 ++ a :: b :: c :: l2.
Proof.
  induction l as [| x l IH]; intros a b c; [intros [] |].
  destruct l as [| y [| w l]]; [intros [] | intros [] |].
  change (pathTriples (x :: y :: w :: l)) with ((x, y, w) :: pathTriples (y :: w :: l)).
  intros [[= <- <- <-] | H]; [exists [], l; reflexivity |].
  destruct (IH a b c H) as (l1 & l2 & E). exists (x :: l1), l2. now rewrite E.
Qed.

(** A triple of a list made of two parts that share [y] lies in the first
    part, or in the second, or has [y] in its middle. *)
Lemma pathTriples_glue X : forall y Z a b c,
  In (a, b, c) (pathTriples (X ++ y :: Z)) ->
  In (a, b, c) (pathTriples (X ++ [y])) \/ In (a, b, c) (pathTriples (y :: Z)) \/
  (exists X' Z', X = X' ++ [a] /\ b = y /\ Z = c :: Z').
Proof.
  induction X as [| x1 X IH]; intros y Z a b c H; [right; left; exact H |].
  destruct X as [| x2 X].
  - destruct Z as [| c1 Z]; [destruct H |].
    change (pathTriples ([x1] ++ y :: c1 :: Z))
      with ((x1, y, c1) :: pathTriples (y :: c1 :: Z)) in H.
    destruct H as [[= <- <- <-] | H]; [| right; left; exact H].
    right. right. exists [], Z. auto.
  - assert (Hcons : forall T, exists w, (x2 :: X) ++ T = x2 :: w /\ True)
      by (intros T; now eexists).
    destruct (X ++ y :: Z) as [| w W] eqn:EW; [destruct X; discriminate |].
    change (pathTriples ((x1 :: x2 :: X) ++ y :: Z))
      with (pathTriples (x1 :: x2 :: (X ++ y :: Z))) in H.
    rewrite EW in H.
    change (pathTriples (x1 :: x2 :: w :: W))
      with ((x1, x2, w) :: pathTriples (x2 :: w :: W)) in H.
    destruct H as [[= <- <- <-] | H].
    + left. destruct X as [| x3 X].
      * injection EW as <- _. now left.
      * injection EW as <- _. now left.
    + rewrite <- EW in H. specialize (IH y Z a b c H).
      destruct IH as [IH | [IH | (X' & Z' & E & -> & ->)]].
      * left. change ((x1 :: x2 :: X) ++ [y]) with (x1 :: (x2 :: X) ++ [y]).
        destruct ((x2 :: X) ++ [y]) as [| u [| v V]] eqn:EV; try (destruct IH; fail).
        change (pathTriples (x1 :: u :: v :: V))
          with ((x1, u, v) :: pathTriples (u :: v :: V)). now right.
      * right. now left.
      * right. right. exists (x1 :: X'), Z'. rewrite E. auto.
Qed.

Lemma chainOk_triples up S st : forall a b c,
  chainOk up S st -> In (a, b, c) (pathTriples (rev st)) -> 0 < cross a b c.
Proof.
  intros a b c Hok H.
  destruct (pathTriples_split _ _ _ _ H) as (l1 & l2 & E).
  assert (Est : st = rev l2 ++ c :: b :: a :: rev l1).
  { rewrite <- (rev_involutive st), E, rev_app_distr. simpl. now rewrite <- !app_assoc. }
  rewrite Est in Hok. apply chainOk_suffix in Hok.
  destruct Hok as (_ & _ & Hturn & _). exact Hturn.
Qed.

Lemma rev_case {A : Type} (l : list A) : l = [] \/ exists l' a, l = l' ++ [a].
Proof.
  destruct l as [| x l]; [now left | right].
  destruct (exists_last (l := x :: l)) as (l' & a & E); [discriminate | now exists l', a].
Qed.

Lemma cross_same_mid o a b : samePoint o a -> cross o a b == 0.
Proof. unfold cross. intros [Hx Hy]. rewrite Hx, Hy. ring. Qed.

(** A side of a chain: it goes along the sweep, keeps the points on its left,
    joins two of the points, and its ends differ unless all points are one. *)
Lemma chain_side up S st p q :
  chainInv up S st -> In (p, q) (pathEdges (rev st)) ->
  ord up p q /\ (forall r, In r S -> 0 <= cross p q r) /\ In p S /\ In q S /\
  (samePoint p q -> forall r, In r S -> samePoint r p).
Proof.
  intros Hinv H. apply pathEdges_split in H. destruct H as (l1 & l2 & E).
  assert (Est : st = rev l2 ++ q :: p :: rev l1).
  { rewrite <- (rev_involutive st), E, rev_app_distr. simpl. now rewrite <- !app_assoc. }
  clear E. revert Est. generalize (rev l1) (rev l2). clear l1 l2. intros R1 R2 Est.
  assert (Hok := inv_ok _ _ _ Hinv). rewrite Est in Hok.
  assert (Hok' := chainOk_suffix _ _ _ _ Hok).
  assert (Hp : In p S) by (apply (inv_sub _ _ _ Hinv); rewrite Est; apply in_or_app; simpl; auto).
  assert (Hq : In q S) by (apply (inv_sub _ _ _ Hinv); rewrite Est; apply in_or_app; simpl; auto).
  split; [exact (proj1 Hok') | split; [exact (proj1 (proj2 Hok')) |]].
  split; [exact Hp | split; [exact Hq |]].
  intros Hsame r Hr.
  destruct R1 as [| t3 r1].
  - destruct (rev_case R2) as [-> | (R2' & t0 & ->)].
    + simpl in Est. subst st.
      assert (Htop := inv_top _ _ _ Hinv r Hr). simpl in Htop.
      assert (Hbot := inv_bot _ _ _ Hinv r Hr). simpl in Hbot.
      apply (ord_antisym up); [| exact Hbot].
      apply (ord_trans up _ q); [exact Htop |].
      apply (ord_same_l up p q p); [exact Hsame | apply ord_refl].
    + exfalso. rewrite <- app_assoc in Hok. simpl in Hok.
      apply chainOk_suffix in Hok. destruct Hok as (_ & _ & Hturn0 & _).
      rewrite (cross_same_mid p q t0 Hsame) in Hturn0. lra.
  - exfalso. destruct Hok' as (_ & _ & Hturn & _).
    rewrite <- (cross_same_last t3 p p q Hsame), cross_on_end in Hturn. lra.
Qed.

(** Two parallel vectors along the sweep, and a third that is to the right of
    the first and to the left of the second: it is parallel to them. *)
Lemma along_flat up (ax ay bx b_y wx wy : Q) :
  along up ax ay -> along up bx b_y ->
  ~ (ax == 0 /\ ay == 0) -> ~ (bx == 0 /\ b_y == 0) ->
  ax * b_y - ay * bx == 0 ->
  ax * wy - ay * wx <= 0 -> 0 <= bx * wy - b_y * wx ->
  ax * wy - ay * wx == 0.
Proof.
  intros Ha Hb Hna Hnb E H1 H2.
  assert (Ix : (bx * wy - b_y * wx) * ax
               == (ax * wy - ay * wx) * bx - (ax * b_y - ay * bx) * wx) by ring.
  assert (Iy : (bx * wy - b_y * wx) * ay
               == (ax * wy - ay * wx) * b_y - (ax * b_y - ay * bx) * wy) by ring.
  rewrite E in Ix, Iy.
  set (aw := ax * wy - ay * wx) in *. set (bw := bx * wy - b_y * wx) in *.
  destruct up; simpl in Ha, Hb; unfold forward in Ha, Hb.
  - destruct Hb as [Hb | [Hb0 Hby]].
    + assert (0 <= ax) by (destruct Ha as [? | [? ?]]; lra). nra.
    + assert (0 < b_y).
      { destruct (Qlt_le_dec 0 b_y); auto. exfalso. apply Hnb. split; lra. }
      assert (ax == 0).
      { assert (ax * b_y == 0) by (rewrite Hb0 in E; lra). nra. }
      assert (0 <= ay) by (destruct Ha as [? | [? ?]]; lra). nra.
  - destruct Hb as [Hb | [Hb0 Hby]].
    + assert (ax <= 0) by (destruct Ha as [? | [? ?]]; lra). nra.
    + assert (b_y < 0).
      { destruct (Qlt_le_dec b_y 0); auto. exfalso. apply Hnb. split; lra. }
      assert (ax == 0).
      { assert (ax * b_y == 0) by (assert (bx == 0) by lra; nra). nra. }
      assert (ay <= 0) by (destruct Ha as [? | [? ?]]; lra). nra.
Qed.

Lemma junction_flat up a m c q :
  ord up m a -> ord up m c -> ~ samePoint a m -> ~ samePoint m c ->
  cross a m c == 0 -> 0 <= cross a m q -> 0 <= cross m c q ->
  cross a m q == 0.
Proof.
  intros Ha Hc Hna Hnc E H1 H2.
  assert (H := along_flat up (px a - px m) (py a - py m) (px c - px m) (py c - py m)
                 (px q - px m) (py q - py m) (ord_along _ _ _ Ha) (ord_along _ _ _ Hc)).
  unfold cross, samePoint in *.
  assert ((px a - px m) * (py q - py m) - (py a - py m) * (px q - px m) == 0); [apply H | lra].
  - intros [? ?]. apply Hna. split; lra.
  - intros [? ?]. apply Hnc. split; lra.
  - lra.
  - lra.
  - lra.
Qed.

Lemma all_same_collinear (pts : list Point) p0 :
  (forall r, In r pts -> samePoint r p0) ->
  forall a b c, In a pts -> In b pts -> In c pts -> collinear a b c.
Proof.
  intros Hall a b c Ha Hb Hc. unfold collinear.
  assert (Hab : samePoint a b).
  { destruct (Hall a Ha), (Hall b Hb). split; lra. }
  now apply cross_same_mid.
Qed.

(** Where two chains meet at [m], the side [a m] arriving and the side [m c]
    leaving, the polygon turns strictly left, unless all points are on one
    line. *)
Lemma junction_turn up (pts : list Point) a m c :
  ord up m a -> (forall r, In r pts -> 0 <= cross a m r) ->
  (samePoint a m -> forall r, In r pts -> samePoint r a) ->
  ord up m c -> (forall r, In r pts -> 0 <= cross m c r) ->
  (samePoint m c -> forall r, In r pts -> samePoint r m) ->
  In c pts ->
  (exists u v w, In u pts /\ In v pts /\ In w pts /\ ~ collinear u v w) ->
  0 < cross a m c.
Proof.
  intros Ha Hla Hsa Hc Hlc Hsc Hcin (u & v & w & Hu & Hv & Hw & Hncol).
  destruct (Qlt_le_dec 0 (cross a m c)) as [Hpos | Hle]; [exact Hpos |].
  exfalso. apply Hncol.
  destruct (samePoint_dec a m) as [Sa | Na];
    [exact (all_same_collinear pts a (Hsa Sa) u v w Hu Hv Hw) |].
  destruct (samePoint_dec m c) as [Sc | Nc];
    [exact (all_same_collinear pts m (Hsc Sc) u v w Hu Hv Hw) |].
  assert (E : cross a m c == 0) by (specialize (Hla c Hcin); lra).
  apply (on_one_line a m); [exact Na | | |];
    apply (junction_flat up a m c); auto.
Qed.

(** The turns of the polygon: at every vertex, the first one included, it
    turns strictly to the left. *)
Lemma polygon_turns_left (pts : list Point) :
  (3 <= length pts)%nat ->
  (exists u v w, In u pts /\ In v pts /\ In w pts /\ ~ collinear u v w) ->
  forall a b c, In (a, b, c) (polygonTriples (computeConvexHull pts)) -> 0 < cross a b c.
Proof.
  intros Hlen Hncol a b c Ht.
  destruct (computeConvexHull_invariants pts Hlen)
    as (x & mid & z & s & s' & Ehull & Hs & Hl & Hs' & Hl' & Hsorted & Hin & Hlow & Hup).
  destruct (ends_with s x Hs Hl) as (s0 & ->).
  destruct (ends_with s' z Hs' Hl') as (s0' & ->).
  set (sorted := x :: mid ++ [z]) in *.
  assert (ELs : rev (z :: s0 ++ [x]) = (x :: rev s0) ++ [z]).
  { change (rev (z :: s0 ++ [x])) with (rev (s0 ++ [x]) ++ [z]). now rewrite rev_app_distr. }
  assert (EUs : rev (x :: s0' ++ [z]) = (z :: rev s0') ++ [x]).
  { change (rev (x :: s0' ++ [z])) with (rev (s0' ++ [z]) ++ [x]). now rewrite rev_app_distr. }
  assert (Hlowpts : forall r, In r pts -> In r (rev sorted))
    by (intros r Hr; apply -> in_rev; now apply Hin).
  assert (Huppts : forall r, In r pts -> In r sorted) by (intros r Hr; now apply Hin).
  assert (EH : computeConvexHull pts = (x :: rev s0) ++ z :: rev s0').
  { rewrite Ehull, !rev_app_distr. reflexivity. }
  unfold polygonTriples in Ht. rewrite EH in Ht.
  (* the second vertex, after [x] *)
  assert (Hsecond : exists y2 T, rev s0 ++ z :: rev s0' = y2 :: T /\
                                 In (x, y2) (pathEdges ((x :: rev s0) ++ [z]))).
  { destruct (rev s0) as [| y2 R].
    - exists z, (rev s0'). split; [reflexivity | now left].
    - exists y2, (R ++ z :: rev s0'). split; [reflexivity | now left]. }
  destruct Hsecond as (y2 & T & ET & Hxy2).
  assert (Efirst : firstn 2 ((x :: rev s0) ++ z :: rev s0') = [x; y2]).
  { change ((x :: rev s0) ++ z :: rev s0') with (x :: (rev s0 ++ z :: rev s0')).
    rewrite ET. reflexivity. }
  rewrite Efirst in Ht.
  change [x; y2] with (x :: [y2]) in Ht.
  apply pathTriples_glue in Ht.
  destruct Ht as [Ht | [Ht | (X' & Z' & EX & -> & EZ)]].
  - (* inside the two chains, or at [z] *)
    rewrite <- app_assoc in Ht.
    change ((z :: rev s0') ++ [x]) with (z :: (rev s0' ++ [x])) in Ht.
    apply pathTriples_glue in Ht.
    destruct Ht as [Ht | [Ht | (X'' & Z'' & EX & -> & EZ)]].
    + rewrite <- ELs in Ht. exact (chainOk_triples _ _ _ _ _ _ (inv_ok _ _ _ Hlow) Ht).
    + change (z :: rev s0' ++ [x]) with ((z :: rev s0') ++ [x]) in Ht.
      rewrite <- EUs in Ht. exact (chainOk_triples _ _ _ _ _ _ (inv_ok _ _ _ Hup) Ht).
    + assert (H1 : In (a, z) (pathEdges (rev (z :: s0 ++ [x])))).
      { rewrite ELs, EX, <- app_assoc. apply pathEdges_split. now exists X'', []. }
      assert (H2 : In (z, c) (pathEdges (rev (x :: s0' ++ [z])))).
      { rewrite EUs. change ((z :: rev s0') ++ [x]) with (z :: (rev s0' ++ [x])).
        rewrite EZ. now left. }
      destruct (chain_side _ _ _ _ _ Hlow H1) as (Ho1 & Hl1 & _ & _ & Hs1).
      destruct (chain_side _ _ _ _ _ Hup H2) as (Ho2 & Hl2 & _ & Hc2 & Hs2).
      apply (junction_turn false pts a z c); auto.
      now apply Hin.
  - destruct Ht.
  - (* at [x], going round *)
    injection EZ as Ec _. subst c.
    destruct (rev_case (z :: rev s0')) as [E | (U' & a' & EU)]; [discriminate |].
    assert (Ea : a' = a).
    { rewrite EU, app_assoc in EX. now apply app_inj_tail in EX. }
    subst a'.
    assert (H1 : In (a, x) (pathEdges (rev (x :: s0' ++ [z])))).
    { rewrite EUs, EU, <- app_assoc. apply pathEdges_split. now exists U', []. }
    assert (H2 : In (x, y2) (pathEdges (rev (z :: s0 ++ [x])))) by (rewrite ELs; exact Hxy2).
    destruct (chain_side _ _ _ _ _ Hup H1) as (Ho1 & Hl1 & _ & _ & Hs1).
    destruct (chain_side _ _ _ _ _ Hlow H2) as (Ho2 & Hl2 & _ & Hc2 & Hs2).
    apply (junction_turn true pts a x y2); auto.
    apply Hin. now apply in_rev.
Qed.

(** X7.  On three points or more that are not all on one line the polygon is
    strictly convex and counter-clockwise: at every vertex, the first one
    included, it turns strictly to the left; so no three consecutive vertices
    are on one line and no vertex is repeated after its neighbour. *)
Theorem hull_strictly_convex (pts : list Point) :
  (3 <= length pts)%nat ->
  (exists u v w, In u pts /\ In v pts /\ In w pts /\ ~ collinear u v w) ->
  forall a b c, In (a, b, c) (polygonTriples (computeConvexHull pts)) -> 0 < cross a b c.
Proof.
  intros Hlen Hncol a b c Ht.
  apply (polygon_turns_left pts Hlen Hncol).
  exact Ht.
Qed.

Lemma hull_strictly_convex_witness :
  Forall (fun t => 0 < cross (fst (fst t)) (snd (fst t)) (snd t))
         (polygonTriples
            (computeConvexHull
               [mkPoint 0 0; mkPoint 1 1; mkPoint (1 # 2) (1 # 2); mkPoint 1 0; mkPoint 0 1])).
Proof.
  apply Forall_forall. intros [[a b] c]. cbn [fst snd]. revert a b c.
  apply hull_strictly_convex.
  - simpl. lia.
  - exists (mkPoint 0 0), (mkPoint 1 1), (mkPoint 1 0).
    unfold collinear. simpl. repeat split; [tauto | tauto | tauto |].
    vm_compute. discriminate.
Defined.

(** *** The polygon contains the points *)

(** To be to the left of every side says nothing of a polygon that has
    collapsed to a point, so the turns of the polygon are part of what is
    proved of it. *)
Remark inside_collapsed (p q : Point) : inside [p; p; p] q.
Proof.
  intros a b Hab. cbn in Hab.
  assert (E : (a, b) = (p, p)) by (destruct Hab as [E | [E | [E | []]]]; now symmetry).
  injection E as -> ->. unfold cross. lra.
Qed.

(** C1.  On three or more points that are not all on one line,
    [computeConvexHull] returns a polygon of at least three vertices, all of
    them input points, that is strictly convex and counter-clockwise (it
    turns strictly to the left at every vertex, the first one included), and
    every input point is inside it or on its boundary: to the left of, or
    on, each of its sides, the closing side included. *)
Theorem computeConvexHull_contains_input (pts : list Point) :
  (3 <= length pts)%nat ->
  (exists a b c, In a pts /\ In b pts /\ In c pts /\ ~ collinear a b c) ->
  (3 <= length (computeConvexHull pts))%nat /\
  incl (computeConvexHull pts) pts /\
  (forall a b c, In (a, b, c) (polygonTriples (computeConvexHull pts)) -> 0 < cross a b c) /\
  forall p, In p pts -> inside (computeConvexHull pts) p.
Proof.
  intros Hlen Hncol.
  split; [| split; [| split]].
  - destruct Hncol as (a & b & c & Ha & Hb & Hc & Hncol).
    destruct (Nat.lt_ge_cases (length (computeConvexHull pts)) 3) as [Hshort | Hok];
      [| exact Hok].
    exfalso. apply Hncol. exact (hull_degenerate pts Hlen Hshort a b c Ha Hb Hc).
  - apply hull_vertices.
  - now apply polygon_turns_left.
  - now apply hull_contains.
Qed.

(** An instance: the unit square with its centre. *)
Lemma computeConvexHull_contains_input_witness :
  let pts := [mkPoint 0 0; mkPoint 1 1; mkPoint (1 # 2) (1 # 2); mkPoint 1 0; mkPoint 0 1] in
  (3 <= length (computeConvexHull pts))%nat /\
  incl (computeConvexHull pts) pts /\
  (forall a b c, In (a, b, c) (polygonTriples (computeConvexHull pts)) -> 0 < cross a b c) /\
  forall p, In p pts -> inside (computeConvexHull pts) p.
Proof.
  intros pts. apply (computeConvexHull_contains_input pts).
  - simpl. lia.
  - exists (mkPoint 0 0), (mkPoint 1 1), (mkPoint 1 0).
    unfold pts, collinear. simpl.
    repeat split; [tauto | tauto | tauto |].
    vm_compute. discriminate.
Defined.

End ConvexHullShape.

(** ** The vote of the KNN page *)

Section KNNVote.

Import JS KNNVisualizer.

Lemma parseInt_keyOf l : parseInt (keyOf l) = Some l.
Proof.
  unfold parseInt, keyOf. rewrite NilEmpty.usu. simpl.
  now rewrite DecimalNat.Unsigned.of_to.
Qed.

Lemma keyOf_inj a b : keyOf a = keyOf b -> a = b.
Proof.
  intros E. assert (H := parseInt_keyOf a). rewrite E, parseInt_keyOf in H. now injection H.
Qed.

(** *** The object [counts] *)

Lemma getCount_in counts : forall key c, getCount counts key = Some c -> In (key, c) counts.
Proof.
  induction counts as [| [key' c'] rest IH]; intros key c; simpl; [discriminate |].
  destruct (String.eqb_spec key key') as [-> | Hne].
  - intros [= ->]. now left.
  - intros H. right. now apply IH.
Qed.

Lemma getCount_none counts : forall key,
  getCount counts key = None -> ~ In key (map fst counts).
Proof.
  induction counts as [| [key' c'] rest IH]; intros key; simpl; [tauto |].
  destruct (String.eqb_spec key key') as [-> | Hne]; [discriminate |].
  intros H [E | Hin]; [congruence | now apply (IH key)].
Qed.

Lemma setCount_absent counts : forall key c,
  ~ In key (map fst counts) -> setCount counts key c = counts ++ [(key, c)].
Proof.
  induction counts as [| [key' c'] rest IH]; intros key c Hnot; simpl in *; [reflexivity |].
  destruct (String.eqb_spec key key') as [-> | Hne]; [tauto |].
  rewrite IH by tauto. reflexivity.
Qed.

Lemma setCount_keys_present counts : forall key c,
  In key (map fst counts) -> map fst (setCount counts key c) = map fst counts.
Proof.
  induction counts as [| [key' c'] rest IH]; intros key c Hin; simpl in *; [tauto |].
  destruct (String.eqb_spec key key') as [-> | Hne]; [reflexivity |].
  simpl. rewrite IH; [reflexivity |]. destruct Hin; [congruence | assumption].
Qed.

Lemma setCount_new counts : forall key c, In (key, c) (setCount counts key c).
Proof.
  induction counts as [| [key' c'] rest IH]; intros key c; simpl; [now left |].
  destruct (String.eqb_spec key key') as [-> | Hne]; [now left | right; apply IH].
Qed.

Lemma setCount_old counts : forall key c key' c',
  key' <> key -> In (key', c') counts -> In (key', c') (setCount counts key c).
Proof.
  induction counts as [| [k0 c0] rest IH]; intros key c key' c' Hne; simpl; [tauto |].
  destruct (String.eqb_spec key k0) as [-> | Hne0]; simpl.
  - intros [[= <- <-] | H]; [congruence | now right].
  - intros [H | H]; [now left | right; now apply IH].
Qed.

Lemma setCount_in counts : forall key c key' c',
  NoDup (map fst counts) -> In (key', c') (setCount counts key c) ->
  (key' = key /\ c' = c) \/ (key' <> key /\ In (key', c') counts).
Proof.
  induction counts as [| [k0 c0] rest IH]; intros key c key' c' Hnd; simpl.
  - intros [[= <- <-] | []]. now left.
  - apply NoDup_cons_iff in Hnd. destruct Hnd as [Hk0 Hnd]. simpl in Hk0.
    destruct (String.eqb_spec key k0) as [-> | Hne0]; simpl.
    + intros [[= <- <-] | H]; [now left |].
      right. split; [| now right].
      intros ->. apply Hk0. now apply (in_map fst) in H.
    + intros [[= <- <-] | H].
      * right. split; [congruence | now left].
      * destruct (IH key c key' c' Hnd H) as [? | [? ?]]; [now left | right; split; auto].
Qed.

Lemma setCount_NoDup counts key c :
  NoDup (map fst counts) -> NoDup (map fst (setCount counts key c)).
Proof.
  intros Hnd. destruct (in_dec string_dec key (map fst counts)) as [Hin | Hnot].
  - now rewrite setCount_keys_present.
  - rewrite (setCount_absent _ _ _ Hnot), map_app. simpl.
    apply NoDup_app; [exact Hnd | constructor; [intros [] | constructor] |].
    intros k Hk [<- | []]. contradiction.
Qed.

Lemma count_occ_snoc seen l l' :
  count_occ Nat.eq_dec (seen ++ [l]) l'
  = (count_occ Nat.eq_dec seen l' + if Nat.eq_dec l l' then 1 else 0)%nat.
Proof. rewrite count_occ_app. simpl. now destruct (Nat.eq_dec l l'). Qed.

Lemma countLabel_inv seen counts l :
  countsInv seen counts -> countsInv (seen ++ [l]) (countLabel counts l).
Proof.
  intros [Hnd Hsound Hcomplete]. unfold countLabel.
  set (previous := match getCount counts (keyOf l) with
                   | Some c => if (c =? 0)%nat then 0%nat else c
                   | None => 0%nat
                   end).
  assert (Hprev : previous = count_occ Nat.eq_dec seen l).
  { unfold previous. destruct (getCount counts (keyOf l)) as [c |] eqn:E.
    - apply getCount_in in E. destruct (Hsound _ _ E) as (l' & Hk & -> & Hpos).
      apply keyOf_inj in Hk. subst l'.
      destruct (Nat.eqb_spec (count_occ Nat.eq_dec seen l) 0); [lia | reflexivity].
    - apply getCount_none in E.
      destruct (Nat.eq_dec (count_occ Nat.eq_dec seen l) 0) as [Hz | Hnz]; [now rewrite Hz |].
      exfalso. apply E.
      assert (Hin := Hcomplete l ltac:(lia)). now apply (in_map fst) in Hin. }
  rewrite Hprev. constructor.
  - now apply setCount_NoDup.
  - intros key c Hin. apply setCount_in in Hin; [| exact Hnd].
    destruct Hin as [[-> ->] | [Hne Hin]].
    + exists l. rewrite count_occ_snoc. destruct (Nat.eq_dec l l); [| congruence].
      repeat split; lia.
    + destruct (Hsound _ _ Hin) as (l' & -> & -> & Hpos). exists l'.
      rewrite count_occ_snoc. destruct (Nat.eq_dec l l') as [-> | _]; [congruence |].
      repeat split; lia.
  - intros l' Hpos. rewrite count_occ_snoc in *.
    destruct (Nat.eq_dec l l') as [<- | Hne].
    + apply setCount_new.
    + rewrite Nat.add_0_r in *. apply setCount_old; [| now apply Hcomplete].
      intros E. apply keyOf_inj in E. congruence.
Qed.

Lemma fold_countLabel_inv topK : forall seen counts,
  countsInv seen counts ->
  countsInv (seen ++ map (fun p => label (datum p)) topK)
            (fold_left (fun counts d => countLabel counts (label (datum d))) topK counts).
Proof.
  induction topK as [| p topK IH]; intros seen counts Hinv; simpl.
  - now rewrite app_nil_r.
  - change (seen ++ label (datum p) :: map (fun p => label (datum p)) topK)
      with (seen ++ [label (datum p)] ++ map (fun p => label (datum p)) topK).
    rewrite app_assoc. apply IH. now apply countLabel_inv.
Qed.

Lemma countVotes_inv topK :
  countsInv (map (fun p => label (datum p)) topK) (countVotes topK).
Proof.
  apply (fold_countLabel_inv topK [] []).
  constructor; [constructor | intros key c [] | simpl; intros l H; lia].
Qed.

(** *** The largest count and the tied labels *)

Lemma fold_max_spec vs : forall v,
  (In (fold_left Nat.max vs v) (v :: vs)) /\
  forall w, In w (v :: vs) -> (w <= fold_left Nat.max vs v)%nat.
Proof.
  induction vs as [| a vs IH]; intros v; simpl.
  - split; [now left | intros w [<- | []]; lia].
  - destruct (IH (Nat.max v a)) as [Hin Hle]. split.
    + destruct Hin as [E | Hin]; [| right; now right].
      rewrite <- E.
      destruct (Nat.max_spec v a) as [[_ ->] | [_ ->]]; [right; now left | now left].
    + intros w [E | [E | Hw]].
      * specialize (Hle (Nat.max v a) (or_introl eq_refl)). lia.
      * specialize (Hle (Nat.max v a) (or_introl eq_refl)). lia.
      * apply Hle. now right.
Qed.

Lemma maxOf_spec vs m :
  maxOf vs = Some m -> In m vs /\ forall w, In w vs -> (w <= m)%nat.
Proof.
  destruct vs as [| v vs]; simpl; [discriminate |].
  intros [= <-]. apply fold_max_spec.
Qed.

Lemma includes_tied seen counts m l :
  countsInv seen counts -> maxOf (map snd counts) = Some m ->
  (includes (tiedLabels counts) l = true <-> count_occ Nat.eq_dec seen l = m).
Proof.
  intros [Hnd Hsound Hcomplete] Hmax.
  destruct (maxOf_spec _ _ Hmax) as [Hm _].
  assert (Hpos : (0 < m)%nat).
  { apply in_map_iff in Hm. destruct Hm as ([key c] & <- & Hin).
    destruct (Hsound _ _ Hin) as (_ & _ & _ & H). exact H. }
  unfold includes, tiedLabels. rewrite Hmax. split.
  - intros H. apply existsb_exists in H. destruct H as ([l' |] & Hin & Heq); [| discriminate].
    apply Nat.eqb_eq in Heq. subst l'.
    apply in_map_iff in Hin. destruct Hin as ([key c] & Hparse & Hin). simpl in Hparse.
    apply filter_In in Hin. destruct Hin as [Hin Hc]. simpl in Hc. apply Nat.eqb_eq in Hc.
    destruct (Hsound _ _ Hin) as (l' & -> & Hcount & _).
    rewrite parseInt_keyOf in Hparse. injection Hparse as ->. congruence.
  - intros Hcount. apply existsb_exists. exists (Some l). split; [| apply Nat.eqb_refl].
    apply in_map_iff. exists (keyOf l, m). split; [apply parseInt_keyOf |].
    apply filter_In. split; [| apply Nat.eqb_refl].
    rewrite <- Hcount. apply Hcomplete. lia.
Qed.

(** *** The first match of [find] in a sorted list *)








(** A tie: with [k = 2] the two neighbours have one vote each, and the
    prediction is the label of the nearer one. *)
Example knn_tie :
  let st := mkState (mkConfig 4 3 2)
              [mkDataPoint 5 0 1; mkDataPoint 0 2 1; mkDataPoint 1 0 2; mkDataPoint 9 9 0]
              None None [] in
  let st' := handleCanvasClick (Some (mkRect 0 0)) 0 0 st in
  map datum (neighbors st') = [mkDataPoint 1 0 2; mkDataPoint 0 2 1] /\
  prediction st' = Some 2%nat.
Proof. split; reflexivity. Qed.

End KNNVote.

(** ** More on the KNN page *)

Section KNNMore.

Import JS KNNVisualizer.
Local Open Scope Q_scope.

Lemma floor_of_scaled r (classes : nat) :
  0 <= r -> r < 1 -> (0 < classes)%nat ->
  (Z.to_nat (Qfloor (r * inject_Z (Z.of_nat classes))) < classes)%nat.
Proof.
  intros H0 H1 Hc.
  assert (Hcq : 0 < inject_Z (Z.of_nat classes)).
  { change 0 with (inject_Z 0). rewrite <- Zlt_Qlt. lia. }
  assert (Hlo : (0 <= Qfloor (r * inject_Z (Z.of_nat classes)))%Z).
  { change 0%Z with (Qfloor 0). apply Qfloor_resp_le. nra. }
  assert (Hhi : (Qfloor (r * inject_Z (Z.of_nat classes)) < Z.of_nat classes)%Z).
  { rewrite Zlt_Qlt.
    apply Qle_lt_trans with (r * inject_Z (Z.of_nat classes)); [apply Qfloor_le | nra]. }
  lia.
Qed.

Lemma genDataPoint_spec classes rand k :
  unitStream rand -> (0 < classes)%nat ->
  let d := fst (genDataPoint classes rand k) in
  10 <= x d /\ x d < 790 /\ 10 <= y d /\ y d < 590 /\ (label d < classes)%nat.
Proof.
  intros Hr Hc. unfold genDataPoint, bind, ret, random. simpl.
  destruct (Hr k), (Hr (S k)), (Hr (S (S k))).
  repeat split; try lra. now apply floor_of_scaled.
Qed.

(** X8.  The generated data: [config.points] points, each inside the canvas
    area [10, 790) x [10, 590) with a label below [config.classes]; with at
    most six classes every dot has a colour. *)
Theorem regenerate_data (cfg : Config) (rand : nat -> Q) (k0 : nat) :
  unitStream rand -> (0 < classes cfg)%nat ->
  let st := fst (regenerate cfg rand k0) in
  length (data st) = points cfg /\
  prediction st = None /\ neighbors st = [] /\ testPoint st = None /\
  forall d, In d (data st) ->
    10 <= x d /\ x d < 790 /\ 10 <= y d /\ y d < 590 /\
    (label d < classes cfg)%nat /\
    ((classes cfg <= 6)%nat -> dataColor d <> None).
Proof.
  intros Hr Hc. cbv zeta. unfold regenerate, bind.
  assert (Hlen := replicateG_length (genDataPoint (classes cfg)) (points cfg) rand k0).
  assert (Hall := replicateG_Forall
                    (fun d => 10 <= x d /\ x d < 790 /\ 10 <= y d /\ y d < 590 /\
                              (label d < classes cfg)%nat)
                    (genDataPoint (classes cfg)) rand
                    (fun n => genDataPoint_spec (classes cfg) rand n Hr Hc) (points cfg) k0).
  destruct (replicateG (points cfg) (genDataPoint (classes cfg)) rand k0) as [newData k1].
  simpl in *. repeat split; auto;
    rewrite Forall_forall in Hall; destruct (Hall d H) as (? & ? & ? & ? & Hl); auto.
  intros H6 Hnone. unfold dataColor in Hnone. apply nth_error_None in Hnone.
  change (length colors) with 6%nat in Hnone. lia.
Qed.

Lemma regenerate_data_witness :
  let st := fst (regenerate (mkConfig 5 3 3) (fun n => 1 # 3) 0%nat) in
  length (data st) = 5%nat /\
  prediction st = None /\ neighbors st = [] /\ testPoint st = None /\
  forall d, In d (data st) ->
    10 <= x d /\ x d < 790 /\ 10 <= y d /\ y d < 590 /\
    (label d < 3)%nat /\ ((3 <= 6)%nat -> dataColor d <> None).
Proof.
  apply (regenerate_data (mkConfig 5 3 3) (fun n => 1 # 3) 0%nat).
  - intros n. split; lra.
  - simpl. lia.
Defined.

(** *** The vote, once more *)

Lemma in_firstn {A : Type} (n : nat) (l : list A) a : In a (firstn n l) -> In a l.
Proof. intros H. rewrite <- (firstn_skipn n l). apply in_or_app. now left. Qed.

Lemma neighbors_from_data st rect clientX clientY n :
  In n (neighbors (handleCanvasClick (Some rect) clientX clientY st)) ->
  In (datum n) (data st) /\
  dist n = sqDist (datum n) (clientX - left rect) (clientY - top rect).
Proof.
  simpl. intros H. apply in_firstn in H.
  apply (Permutation_in _ (Permutation_sym (sortBy_perm _ _))) in H.
  apply in_map_iff in H. destruct H as (d & <- & Hd). simpl. auto.
Qed.

(** X9.  A prediction is always the label of one of the data points, so
    that with labels below six the test point has a colour; and without a
    prediction it is gray. *)
Theorem prediction_is_a_data_label (st : State) (rect : Rect) (clientX clientY : Q) :
  let st' := handleCanvasClick (Some rect) clientX clientY st in
  (forall l, prediction st' = Some l -> exists d, In d (data st) /\ label d = l) /\
  ((forall d, In d (data st) -> (label d < 6)%nat) -> testPointColor st' <> None) /\
  data st' = data st /\ config st' = config st.
Proof.
  cbv zeta.
  assert (Hlabel : forall l,
             prediction (handleCanvasClick (Some rect) clientX clientY st) = Some l ->
             exists d, In d (data st) /\ label d = l).
  { intros l H.
    assert (Hn := neighbors_from_data st rect clientX clientY).
    simpl in H, Hn.
    destruct (find _ _) as [p |] eqn:Hfind; [| discriminate].
    injection H as <-. apply find_some in Hfind. destruct Hfind as [Hp _].
    exists (datum p). split; [apply (Hn p Hp) | reflexivity]. }
  split; [exact Hlabel | split; [| split; reflexivity]].
  intros Hsix. unfold testPointColor.
  destruct (prediction (handleCanvasClick (Some rect) clientX clientY st)) as [l |] eqn:E;
    [| discriminate].
  destruct (Hlabel l eq_refl) as (d & Hd & <-).
  intros Hnone. apply nth_error_None in Hnone. change (length colors) with 6%nat in Hnone.
  specialize (Hsix d Hd). lia.
Qed.

(** A label seen among the neighbours has its votes in [counts]. *)
Lemma votes_counted topK l :
  (0 < votes l topK)%nat -> In (keyOf l, votes l topK) (countVotes topK).
Proof. intros H. apply (entries_complete _ _ (countVotes_inv topK)). exact H. Qed.

(** X10.  When one label has more votes among the neighbours than every
    other label, it is the prediction, whatever the distances. *)
Theorem majority_wins (st : State) (rect : Rect) (clientX clientY : Q) (l : nat) :
  let st' := handleCanvasClick (Some rect) clientX clientY st in
  (forall l', l' <> l -> (votes l' (neighbors st') < votes l (neighbors st'))%nat) ->
  prediction st' = Some l.
Proof.
  cbv zeta. simpl neighbors. simpl prediction.
  set (topK := firstn (k (config st)) _).
  intros Hmore.
  assert (Hpos : (0 < votes l topK)%nat) by (specialize (Hmore (S l) ltac:(lia)); lia).
  assert (Hinv := countVotes_inv topK).
  assert (Hentry := votes_counted topK l Hpos).
  destruct (maxOf (map snd (countVotes topK))) as [m |] eqn:Hmax.
  2:{ apply (in_map snd) in Hentry.
      destruct (map snd (countVotes topK)); [destruct Hentry | discriminate]. }
  destruct (maxOf_spec _ _ Hmax) as [Hm Hle].
  assert (Em : m = votes l topK).
  { apply in_map_iff in Hm. destruct Hm as ([key c] & Ec & Hin). simpl in Ec. subst c.
    destruct (entries_sound _ _ Hinv _ _ Hin) as (l' & _ & Hc & _).
    assert (Hge : (votes l topK <= m)%nat).
    { apply Hle. now apply (in_map snd) in Hentry. }
    destruct (Nat.eq_dec l' l) as [-> | Hne]; [exact Hc |].
    specialize (Hmore l' Hne). unfold votes in *. lia. }
  assert (Htied : forall l', includes (tiedLabels (countVotes topK)) l' = true <-> l' = l).
  { intros l'. rewrite (includes_tied _ _ _ _ Hinv Hmax). fold (votes l' topK). split.
    - intros E. destruct (Nat.eq_dec l' l) as [-> | Hne]; [reflexivity |].
      specialize (Hmore l' Hne). lia.
    - intros ->. now symmetry. }
  destruct (find (fun p => includes (tiedLabels (countVotes topK)) (label (datum p))) topK)
    as [p |] eqn:Hfind.
  - apply find_some in Hfind. destruct Hfind as [_ Hf]. apply Htied in Hf. simpl. now rewrite Hf.
  - exfalso.
    assert (Hl : In l (map (fun p => label (datum p)) topK))
      by (apply (count_occ_In Nat.eq_dec); exact Hpos).
    apply in_map_iff in Hl. destruct Hl as (p & Hp & Hin).
    assert (H := find_none _ _ Hfind p Hin). simpl in H.
    rewrite (proj2 (Htied (label (datum p))) Hp) in H. discriminate.
Qed.

Lemma majority_wins_witness :
  let st := mkState (mkConfig 4 3 3)
              [mkDataPoint 5 0 1; mkDataPoint 1 0 2; mkDataPoint 0 2 1; mkDataPoint 9 9 0]
              None None [] in
  prediction (handleCanvasClick (Some (mkRect 0 0)) 0 0 st) = Some 1%nat.
Proof.
  intros st. apply (majority_wins st (mkRect 0 0) 0 0 1%nat).
  intros l' Hne. unfold votes. simpl.
  destruct l' as [| [| [| l']]]; simpl; lia.
Defined.



End KNNMore.

(** ** The centroid update of the K-Means page *)

Section KMeansStep.

Import JS KMeansVisualizer.
Local Open Scope Q_scope.

(** *** The assignment *)

Lemma visitFrom_index p centers : forall i best,
  (snd best < i \/ (snd best = 0 /\ i = 0))%nat ->
  (snd (visitFrom p i centers best) < i + length centers
   \/ (centers = [] /\ snd best = 0 /\ i = 0))%nat.
Proof.
  induction centers as [| c rest IH]; intros i best Hb; simpl.
  - destruct Hb as [Hb | [Hb ->]]; [left; lia | right; auto].
  - left.
    assert (Hv : (snd (visitCenter p best c i) < S i)%nat).
    { unfold visitCenter. destruct (fst best) as [minDist |]; simpl; [| lia].
      destruct (Qlt_le_dec _ minDist); simpl; lia. }
    destruct (IH (S i) (visitCenter p best c i) (or_introl Hv)) as [H | (_ & _ & H)]; lia.
Qed.

Lemma nearestCenter_lt centers p :
  centers <> [] -> (nearestCenter centers p < length centers)%nat.
Proof.
  intros Hne. unfold nearestCenter.
  destruct (visitFrom_index p centers 0 (None, 0%nat)) as [H | (H & _)];
    [right; auto | exact H | contradiction].
Qed.

Lemma assignClusters_cluster centers points p :
  In p (assignClusters centers points) ->
  exists c, cluster p = Some c /\ (centers <> [] -> (c < length centers)%nat).
Proof.
  unfold assignClusters. rewrite map_map. intros H.
  apply in_map_iff in H. destruct H as (q & <- & _). simpl.
  eexists. split; [reflexivity |]. intros Hne. now apply nearestCenter_lt.
Qed.

Lemma visitCenter_bestSoFar p seen best c :
  bestSoFar p seen best ->
  bestSoFar p (seen ++ [c]) (visitCenter p best c (length seen)).
Proof.
  intros Hb. unfold bestSoFar, visitCenter in *. fold (distTo p c).
  destruct (fst best) as [minDist |] eqn:Ebest.
  - destruct Hb as (c0 & Hc0 & Hd & Hall).
    assert (Hlt0 : (snd best < length seen)%nat) by (apply nth_error_Some; congruence).
    destruct (Qlt_le_dec (distTo p c) minDist) as [Hlt | Hle]; simpl.
    + exists c. split; [rewrite nth_error_app2, Nat.sub_diag by lia; reflexivity |].
      split; [reflexivity |].
      intros k c' Hk. destruct (Nat.lt_ge_cases k (length seen)) as [Hin | Hout].
      * rewrite nth_error_app1 in Hk by exact Hin.
        destruct (Hall k c' Hk) as [Hle' _]. split; [| intros _]; lra.
      * rewrite nth_error_app2 in Hk by exact Hout.
        destruct (k - length seen)%nat as [| k'] eqn:Ek; simpl in Hk;
          [| destruct k'; discriminate].
        injection Hk as <-. split; [apply Qle_refl | lia].
    + rewrite Ebest. exists c0.
      split; [rewrite nth_error_app1 by exact Hlt0; exact Hc0 |].
      split; [exact Hd |].
      intros k c' Hk. destruct (Nat.lt_ge_cases k (length seen)) as [Hin | Hout].
      * rewrite nth_error_app1 in Hk by exact Hin. now apply Hall.
      * rewrite nth_error_app2 in Hk by exact Hout.
        destruct (k - length seen)%nat as [| k'] eqn:Ek; simpl in Hk;
          [| destruct k'; discriminate].
        injection Hk as <-. split; [exact Hle | lia].
  - destruct Hb as [-> Hz]. simpl.
    exists c. split; [reflexivity |]. split; [reflexivity |].
    intros [| k] c' Hk; simpl in Hk; [| destruct k; discriminate].
    injection Hk as <-. split; [apply Qle_refl | lia].
Qed.

Lemma visitFrom_bestSoFar p centers : forall seen best,
  bestSoFar p seen best ->
  bestSoFar p (seen ++ centers) (visitFrom p (length seen) centers best).
Proof.
  induction centers as [| c rest IH]; intros seen best Hb; simpl.
  - now rewrite app_nil_r.
  - change (seen ++ c :: rest) with (seen ++ [c] ++ rest). rewrite app_assoc.
    assert (Hl : S (length seen) = length (seen ++ [c]))
      by (rewrite length_app; simpl; lia).
    rewrite Hl. apply IH. now apply visitCenter_bestSoFar.
Qed.

(** The cluster given to a point is that of a nearest centre, the first of
    them in the list. *)
Lemma nearestCenter_nearest centers p :
  centers <> [] ->
  exists c, nth_error centers (nearestCenter centers p) = Some c /\
            forall k c', nth_error centers k = Some c' ->
                         distTo p c <= distTo p c' /\
                         ((k < nearestCenter centers p)%nat -> distTo p c < distTo p c').
Proof.
  intros Hne. unfold nearestCenter.
  assert (H := visitFrom_bestSoFar p centers [] (None, 0%nat) (conj eq_refl eq_refl)).
  simpl in H. unfold bestSoFar in H.
  destruct (fst (visitFrom p 0 centers (None, 0%nat))) as [d |].
  - destruct H as (c & Hc & -> & Hall). exists c. split; [exact Hc | exact Hall].
  - destruct H as [H _]. contradiction.
Qed.

(** *** The sums *)

Lemma updateAt_length {A : Type} (f : A -> A) l : forall i, length (updateAt i f l) = length l.
Proof. induction l as [| a l IH]; intros [| i]; simpl; auto. Qed.

Lemma updateAt_same {A : Type} (f : A -> A) l : forall i a,
  nth_error l i = Some a -> nth_error (updateAt i f l) i = Some (f a).
Proof.
  induction l as [| b l IH]; intros [| i] a; simpl; try discriminate.
  - now intros [= ->].
  - apply IH.
Qed.

Lemma updateAt_other {A : Type} (f : A -> A) l : forall i j,
  i <> j -> nth_error (updateAt i f l) j = nth_error l j.
Proof.
  induction l as [| b l IH]; intros [| i] [| j] Hne; simpl; try reflexivity.
  - congruence.
  - apply IH. congruence.
Qed.

Lemma sumQ_snoc l a : sumQ (l ++ [a]) = sumQ l + a.
Proof. unfold sumQ. now rewrite fold_left_app. Qed.

Lemma assignedTo_snoc i seen p :
  assignedTo i (seen ++ [p])
  = assignedTo i seen
    ++ (if match cluster p with Some c => (c =? i)%nat | None => false end then [p] else []).
Proof. unfold assignedTo. rewrite filter_app. reflexivity. Qed.

Lemma addPoint_sumsOf clusters seen sums p c sums' :
  sumsOf clusters seen sums -> cluster p = Some c ->
  addPoint (Some sums) p = Some sums' -> sumsOf clusters (seen ++ [p]) sums'.
Proof.
  intros [Hlen Hs] Hc. unfold addPoint. rewrite Hc.
  destruct (nth_error sums c) as [s0 |] eqn:E; [| discriminate].
  intros [= <-]. split; [now rewrite updateAt_length |].
  intros i s. rewrite assignedTo_snoc, Hc.
  destruct (Nat.eqb_spec c i) as [-> | Hne].
  - rewrite (updateAt_same _ _ _ _ E). intros [= <-].
    rewrite (Hs i s0 E). cbn iota. cbn [sx sy count].
    rewrite !map_app. cbn [map]. rewrite !sumQ_snoc, length_app. cbn [length].
    f_equal. lia.
  - rewrite updateAt_other by exact Hne. rewrite app_nil_r. apply Hs.
Qed.

Lemma fold_addPoint_none points : fold_left addPoint points None = None.
Proof. induction points as [| p points IH]; simpl; auto. Qed.

Lemma fold_addPoint_sumsOf clusters points : forall seen sums sums',
  sumsOf clusters seen sums ->
  (forall p, In p points -> exists c, cluster p = Some c) ->
  fold_left addPoint points (Some sums) = Some sums' ->
  sumsOf clusters (seen ++ points) sums'.
Proof.
  induction points as [| p points IH]; intros seen sums sums' Hinv Hcl; cbn [fold_left].
  - intros [= <-]. now rewrite app_nil_r.
  - destruct (Hcl p (or_introl eq_refl)) as [c Hc].
    destruct (addPoint (Some sums) p) as [sums1 |] eqn:E.
    + intros H. change (seen ++ p :: points) with (seen ++ [p] ++ points).
      rewrite app_assoc.
      apply (IH (seen ++ [p]) sums1 sums');
        [exact (addPoint_sumsOf _ _ _ _ _ _ Hinv Hc E)
        | intros q Hq; apply Hcl; now right
        | exact H].
    + rewrite fold_addPoint_none. discriminate.
Qed.

Lemma repeat_sumsOf clusters : sumsOf clusters [] (repeat (mkSum 0 0 0) clusters).
Proof.
  split; [apply repeat_length |].
  intros i s H. apply nth_error_In, repeat_spec in H. subst s. reflexivity.
Qed.

Lemma fold_addPoint_total points : forall sums,
  (forall p, In p points ->
     exists c, cluster p = Some c /\ (c < length sums)%nat) ->
  exists sums', fold_left addPoint points (Some sums) = Some sums'.
Proof.
  induction points as [| p points IH]; intros sums Hcl; cbn [fold_left]; [now exists sums |].
  destruct (Hcl p (or_introl eq_refl)) as (c & Hc & Hlt).
  unfold addPoint at 2. rewrite Hc. destruct (nth_error sums c) as [s0 |] eqn:E.
  - apply IH. intros q Hq. rewrite updateAt_length. apply Hcl. now right.
  - apply nth_error_None in E. lia.
Qed.

(** *** The new centres *)

Lemma traverseG_nth {A B : Type} (g : A -> Gen B) l : forall rand n i a,
  nth_error l i = Some a ->
  exists n', nth_error (fst (traverseG g l rand n)) i = Some (fst (g a rand n')).
Proof.
  induction l as [| b l IH]; intros rand n [| i] a; simpl; try discriminate.
  - intros [= ->]. exists n. unfold bind.
    destruct (g a rand n) as [r n1]. destruct (traverseG g l rand n1). reflexivity.
  - intros H. unfold bind. destruct (g b rand n) as [r n1].
    destruct (IH rand n1 i a H) as [n' Hn'].
    exists n'. destruct (traverseG g l rand n1). simpl in *. exact Hn'.
Qed.

Lemma traverseG_length {A B : Type} (g : A -> Gen B) l : forall rand n,
  length (fst (traverseG g l rand n)) = length l.
Proof.
  induction l as [| b l IH]; intros rand n; simpl; [reflexivity |].
  unfold bind. destruct (g b rand n) as [r n1].
  specialize (IH rand n1). destruct (traverseG g l rand n1). simpl in *. now rewrite IH.
Qed.

Lemma newCenter_mean s rand n :
  count s <> 0%nat ->
  fst (newCenter s rand n)
  = mkCenter (sx s / inject_Z (Z.of_nat (count s))) (sy s / inject_Z (Z.of_nat (count s))).
Proof.
  intros H. unfold newCenter, bind, ret.
  destruct (Nat.eqb_spec (count s) 0); [contradiction | reflexivity].
Qed.

Lemma newCenter_random s rand n :
  unitStream rand -> count s = 0%nat -> inBounds (fst (newCenter s rand n)).
Proof.
  intros Hr H. unfold newCenter, bind, ret, random. rewrite H. simpl.
  unfold inBounds. simpl.
  destruct (Hr n), (Hr (S n)). repeat split; lra.
Qed.

(** C8.  In one [step]: the new centre of a cluster with assigned points is
    the arithmetic mean of the coordinates of exactly those points, and the
    new centre of a cluster without points is a position inside the sampling
    bounds.  The step does produce its centres when there are no more
    centres than [config.clusters]. *)
Theorem kmeans_centroid_update
        (clusters : nat) (points : list DataPoint) (centers : list Center)
        (rand : nat -> Q) (n : nat) :
  unitStream rand ->
  (forall points' centers' n',
      step clusters points centers rand n = (Some (points', centers'), n') ->
      points' = assignClusters centers points /\
      length centers' = clusters /\
      forall i, (i < clusters)%nat ->
        exists c, nth_error centers' i = Some c /\
          (assignedTo i points' <> [] ->
             c = mkCenter (mean (map x (assignedTo i points')))
                          (mean (map y (assignedTo i points')))) /\
          (assignedTo i points' = [] -> inBounds c)) /\
  (centers <> [] -> (length centers <= clusters)%nat ->
   exists result n', step clusters points centers rand n = (Some result, n')).
Proof.
  intros Hrand. unfold step. split.
  - intros points' centers' n'.
    destruct (accumulate clusters (assignClusters centers points)) as [sums |] eqn:Eacc;
      [| unfold ret; discriminate].
    unfold bind, ret.
    assert (Hlen := traverseG_length newCenter sums rand n).
    assert (Hnth := fun i a => traverseG_nth newCenter sums rand n i a).
    destruct (traverseG newCenter sums rand n) as [cs n1]. simpl in Hlen, Hnth.
    intros [= <- <- <-].
    assert (Hsums : sumsOf clusters (assignClusters centers points) sums).
    { apply (fold_addPoint_sumsOf clusters _ [] _ sums (repeat_sumsOf clusters));
        [| exact Eacc].
      intros p Hp. destruct (assignClusters_cluster _ _ _ Hp) as (c & Hc & _). now exists c. }
    destruct Hsums as [Hslen Hs].
    split; [reflexivity | split; [congruence |]].
    intros i Hi.
    destruct (nth_error sums i) as [s |] eqn:Es; [| apply nth_error_None in Es; lia].
    destruct (Hnth i s Es) as [ni Hc]. eexists. split; [exact Hc |].
    assert (Hcount := Hs i s Es).
    split.
    + intros Hne. rewrite newCenter_mean.
      * unfold mean. rewrite !length_map, Hcount. reflexivity.
      * rewrite Hcount. simpl.
        destruct (assignedTo i (assignClusters centers points)); [congruence | discriminate].
    + intros Hnil. apply newCenter_random; [exact Hrand |].
      rewrite Hcount, Hnil. reflexivity.
  - intros Hne Hle.
    destruct (fold_addPoint_total (assignClusters centers points)
                (repeat (mkSum 0 0 0) clusters)) as [sums Hsums].
    { intros p Hp. destruct (assignClusters_cluster _ _ _ Hp) as (c & Hc & Hlt).
      exists c. split; [exact Hc |]. rewrite repeat_length. specialize (Hlt Hne). lia. }
    unfold accumulate. rewrite Hsums. unfold bind, ret.
    destruct (traverseG newCenter sums rand n) as [cs n1]. now eexists _, _.
Qed.

Lemma kmeans_centroid_update_witness :
  let points := [mkDataPoint 0 0 None; mkDataPoint 4 2 None; mkDataPoint 100 100 None] in
  let centers := [mkCenter 1 1; mkCenter 90 90; mkCenter 500 500] in
  exists result n',
    step 3 points centers (fun _ => 1 # 2) 0%nat = (Some result, n').
Proof.
  intros points centers.
  apply (kmeans_centroid_update 3 points centers (fun _ => 1 # 2) 0%nat).
  - intros k. split; lra.
  - discriminate.
  - simpl. lia.
Defined.

(** A step, computed: two means and one fresh position. *)
Example kmeans_step_example :
  fst (step 3 [mkDataPoint 0 0 None; mkDataPoint 4 2 None; mkDataPoint 100 100 None]
            [mkCenter 1 1; mkCenter 90 90; mkCenter 500 500] (fun _ => 1 # 2) 0%nat)
  = Some ([mkDataPoint 0 0 (Some 0%nat); mkDataPoint 4 2 (Some 0%nat);
           mkDataPoint 100 100 (Some 1%nat)],
          [mkCenter ((0 + 0 + 4) / 2) ((0 + 0 + 2) / 2);
           mkCenter ((0 + 100) / 1) ((0 + 100) / 1);
           mkCenter ((1 # 2) * 780 + 10) ((1 # 2) * 580 + 10)]).
Proof. reflexivity. Qed.

(** With more centres than [config.clusters] a point of a late cluster makes
    the accumulation throw. *)
Example kmeans_step_throws :
  fst (step 1 [mkDataPoint 100 100 None] [mkCenter 1 1; mkCenter 90 90] (fun _ => 1 # 2) 0%nat)
  = None.
Proof. reflexivity. Qed.

End KMeansStep.

(** ** More on the K-Means page: assignment, animation, initialisation *)

Section KMeansMore.

Import JS KMeansVisualizer.
Local Open Scope Q_scope.

(** *** What a step returns *)

Lemma step_inv clusters points centers rand n points' centers' n' :
  step clusters points centers rand n = (Some (points', centers'), n') ->
  points' = assignClusters centers points /\
  exists sums, sumsOf clusters points' sums /\
               centers' = fst (traverseG newCenter sums rand n).
Proof.
  unfold step.
  destruct (accumulate clusters (assignClusters centers points)) as [sums |] eqn:Eacc;
    [| unfold ret; discriminate].
  unfold bind, ret. destruct (traverseG newCenter sums rand n) as [cs n1] eqn:E.
  intros [= <- <- <-]. split; [reflexivity |]. exists sums. split; [| now rewrite E].
  apply (fold_addPoint_sumsOf clusters _ [] _ sums (repeat_sumsOf clusters)); [| exact Eacc].
  intros p Hp. destruct (assignClusters_cluster _ _ _ Hp) as (c & Hc & _). now exists c.
Qed.

Lemma step_total clusters points centers rand n :
  centers <> [] -> (length centers <= clusters)%nat ->
  exists centers' n',
    step clusters points centers rand n
    = (Some (assignClusters centers points, centers'), n').
Proof.
  intros Hne Hle.
  destruct (fold_addPoint_total (assignClusters centers points)
              (repeat (mkSum 0 0 0) clusters)) as [sums Hsums].
  { intros p Hp. destruct (assignClusters_cluster _ _ _ Hp) as (c & Hc & Hlt).
    exists c. split; [exact Hc |]. rewrite repeat_length. specialize (Hlt Hne). lia. }
  unfold step, accumulate. rewrite Hsums. unfold bind, ret.
  destruct (traverseG newCenter sums rand n) as [cs n1]. now eexists _, _.
Qed.

Lemma step_centres clusters points centers rand n points' centers' n' :
  step clusters points centers rand n = (Some (points', centers'), n') ->
  length centers' = clusters /\
  forall i c, nth_error centers' i = Some c ->
    (assignedTo i points' <> [] ->
       c = mkCenter (mean (map x (assignedTo i points')))
                    (mean (map y (assignedTo i points')))) /\
    (unitStream rand -> assignedTo i points' = [] -> inBounds c).
Proof.
  intros Hstep. destruct (step_inv _ _ _ _ _ _ _ _ Hstep) as (_ & sums & [Hlen Hs] & ->).
  split; [now rewrite traverseG_length |].
  intros i c Hc.
  assert (Hi : (i < length sums)%nat).
  { rewrite <- (traverseG_length newCenter sums rand n). apply nth_error_Some. congruence. }
  destruct (nth_error sums i) as [s |] eqn:Es; [| apply nth_error_None in Es; lia].
  destruct (traverseG_nth newCenter sums rand n i s Es) as [ni Hni].
  rewrite Hc in Hni. injection Hni as ->.
  assert (Hcount := Hs i s Es). split.
  - intros Hne. rewrite newCenter_mean.
    + unfold mean. rewrite !length_map, Hcount. reflexivity.
    + rewrite Hcount. simpl. destruct (assignedTo i points'); [congruence | discriminate].
  - intros Hrand Hnil. apply newCenter_random; [exact Hrand |].
    rewrite Hcount, Hnil. reflexivity.
Qed.

Lemma assignClusters_coords centers points :
  map (fun p => (x p, y p)) (assignClusters centers points)
  = map (fun p => (x p, y p)) points.
Proof. unfold assignClusters. rewrite !map_map. reflexivity. Qed.

(** X12.  The two [points.map] of [step] give every point the index of a
    centre nearest to it, the first one among equally near centres, and
    leave its coordinates alone. *)
Theorem step_assigns_nearest_centre (centers : list Center) (points : list DataPoint) :
  centers <> [] ->
  map (fun p => (x p, y p)) (assignClusters centers points)
  = map (fun p => (x p, y p)) points /\
  forall p, In p (assignClusters centers points) ->
    exists i c, cluster p = Some i /\ nth_error centers i = Some c /\
      forall k c', nth_error centers k = Some c' ->
        distTo p c <= distTo p c' /\ ((k < i)%nat -> distTo p c < distTo p c').
Proof.
  intros Hne. split; [apply assignClusters_coords |].
  intros p Hp. unfold assignClusters in Hp. rewrite map_map in Hp.
  apply in_map_iff in Hp. destruct Hp as (q & <- & _). cbn [cluster].
  destruct (nearestCenter_nearest centers {| x := x q; y := y q; cluster := None |} Hne)
    as (c & Hc & Hall).
  exists (nearestCenter centers {| x := x q; y := y q; cluster := None |}), c.
  split; [reflexivity |]. split; [exact Hc |].
  intros k c' Hk. exact (Hall k c' Hk).
Qed.

Lemma step_assigns_nearest_centre_witness :
  let centers := [mkCenter 1 1; mkCenter 90 90; mkCenter 1 1] in
  let points := [mkDataPoint 0 0 None; mkDataPoint 100 100 (Some 0%nat)] in
  centers <> [] /\
  map (fun p => (x p, y p)) (assignClusters centers points)
  = map (fun p => (x p, y p)) points.
Proof.
  intros centers points. split; [discriminate |].
  apply (step_assigns_nearest_centre centers points). discriminate.
Defined.

(** *** The mean is the best centre *)

Lemma fold_Qplus_from l : forall z, fold_left Qplus l z == z + sumQ l.
Proof.
  unfold sumQ. induction l as [| b l IH]; intros z; cbn [fold_left]; [ring |].
  rewrite (IH (z + b)), (IH (0 + b)). ring.
Qed.

Lemma sumQ_cons a l : sumQ (a :: l) == a + sumQ l.
Proof. unfold sumQ at 1. cbn [fold_left]. rewrite fold_Qplus_from. ring. Qed.

Lemma inject_succ (k : nat) : inject_Z (Z.of_nat (S k)) == inject_Z (Z.of_nat k) + 1.
Proof. rewrite Nat2Z.inj_succ. unfold Z.succ. rewrite inject_Z_plus. reflexivity. Qed.

Lemma inject_nat_pos (k : nat) : (0 < k)%nat -> 0 < inject_Z (Z.of_nat k).
Proof. intros H. change 0 with (inject_Z 0). rewrite <- Zlt_Qlt. lia. Qed.

Lemma square_nonneg (a : Q) : 0 <= a * a.
Proof. exact (Qpower.Qsqr_nonneg a). Qed.

Lemma spread_expand l c :
  sumQ (map (fun v => (v - c) ^ 2) l)
  == sumQ (map (fun v => v ^ 2) l) - 2 * c * sumQ l
     + inject_Z (Z.of_nat (length l)) * c ^ 2.
Proof.
  induction l as [| v l IH].
  - cbn. ring.
  - cbn [map length]. rewrite !sumQ_cons, IH, inject_succ. ring.
Qed.

Lemma mean_times_length l :
  l <> [] -> inject_Z (Z.of_nat (length l)) * mean l == sumQ l.
Proof.
  intros Hne. unfold mean. apply Qmult_div_r.
  assert (H : 0 < inject_Z (Z.of_nat (length l))).
  { apply inject_nat_pos. destruct l; [congruence | simpl; lia]. }
  intros E. rewrite E in H. apply (Qlt_irrefl 0 H).
Qed.

Lemma mean_minimises l c :
  l <> [] ->
  sumQ (map (fun v => (v - mean l) ^ 2) l) <= sumQ (map (fun v => (v - c) ^ 2) l).
Proof.
  intros Hne. rewrite !spread_expand. rewrite <- (mean_times_length l Hne).
  assert (HN : 0 < inject_Z (Z.of_nat (length l))).
  { apply inject_nat_pos. destruct l; [congruence | simpl; lia]. }
  generalize dependent (mean l). intros m.
  generalize dependent (inject_Z (Z.of_nat (length l))). intros N HN.
  generalize (sumQ (map (fun v => v ^ 2) l)). intros S2.
  assert (H : 0 <= N * ((c - m) * (c - m))).
  { apply Qmult_le_0_compat; [apply Qlt_le_weak, HN | apply square_nonneg]. }
  simpl. lra.
Qed.

Lemma sum_of_distances (c : Center) (A : list DataPoint) :
  sumQ (map (fun p => distTo p c) A)
  == sumQ (map (fun v => (v - cx c) ^ 2) (map x A))
     + sumQ (map (fun v => (v - cy c) ^ 2) (map y A)).
Proof.
  induction A as [| p A IH].
  - cbn. ring.
  - cbn [map]. rewrite !sumQ_cons, IH. unfold distTo, euclideanDistance. ring.
Qed.

(** X13.  After a [step] the centre of a cluster that has points is, of all
    positions, one with the least sum of squared distances to the points of
    the cluster. *)
Theorem new_centre_minimises_distances
        (clusters : nat) (points : list DataPoint) (centers : list Center)
        (rand : nat -> Q) (n : nat)
        (points' : list DataPoint) (centers' : list Center) (n' : nat)
        (i : nat) (c : Center) :
  step clusters points centers rand n = (Some (points', centers'), n') ->
  nth_error centers' i = Some c ->
  assignedTo i points' <> [] ->
  forall other : Center,
    sumQ (map (fun p => distTo p c) (assignedTo i points'))
    <= sumQ (map (fun p => distTo p other) (assignedTo i points')).
Proof.
  intros Hstep Hc Hne other.
  destruct (step_centres _ _ _ _ _ _ _ _ Hstep) as [_ Hcs].
  destruct (Hcs i c Hc) as [Hmean _]. specialize (Hmean Hne). subst c.
  rewrite !sum_of_distances. cbn [cx cy].
  assert (Hx : map x (assignedTo i points') <> []).
  { destruct (assignedTo i points'); [congruence | discriminate]. }
  assert (Hy : map y (assignedTo i points') <> []).
  { destruct (assignedTo i points'); [congruence | discriminate]. }
  apply Qplus_le_compat; now apply mean_minimises.
Qed.

Lemma new_centre_minimises_distances_witness :
  let points := [mkDataPoint 0 0 None; mkDataPoint 4 2 None; mkDataPoint 100 100 None] in
  let centers := [mkCenter 1 1; mkCenter 90 90; mkCenter 500 500] in
  let points' := [mkDataPoint 0 0 (Some 0%nat); mkDataPoint 4 2 (Some 0%nat);
                  mkDataPoint 100 100 (Some 1%nat)] in
  sumQ (map (fun p => distTo p (mkCenter ((0 + 0 + 4) / 2) ((0 + 0 + 2) / 2)))
            (assignedTo 0 points'))
  <= sumQ (map (fun p => distTo p (mkCenter 3 0)) (assignedTo 0 points')).
Proof.
  intros points centers points'.
  apply (new_centre_minimises_distances 3 points centers (fun _ => 1 # 2) 0%nat points'
           [mkCenter ((0 + 0 + 4) / 2) ((0 + 0 + 2) / 2);
            mkCenter ((0 + 100) / 1) ((0 + 100) / 1);
            mkCenter ((1 # 2) * 780 + 10) ((1 # 2) * 580 + 10)] 2%nat 0%nat
           (mkCenter ((0 + 0 + 4) / 2) ((0 + 0 + 2) / 2))).
  - reflexivity.
  - reflexivity.
  - discriminate.
Defined.

(** *** The animation stays inside the canvas *)

Lemma sumQ_between a b l :
  Forall (fun v => a <= v /\ v < b) l ->
  inject_Z (Z.of_nat (length l)) * a <= sumQ l /\
  sumQ l <= inject_Z (Z.of_nat (length l)) * b.
Proof.
  induction 1 as [| v l [Hv1 Hv2] _ [IH1 IH2]].
  - cbn [length]. change (inject_Z (Z.of_nat 0)) with 0. unfold sumQ. cbn [fold_left].
    split; lra.
  - rewrite sumQ_cons. cbn [length]. rewrite inject_succ. split; lra.
Qed.

Lemma mean_between a b l :
  l <> [] -> Forall (fun v => a <= v /\ v < b) l -> a <= mean l /\ mean l < b.
Proof.
  intros Hne Hall.
  assert (HN : 0 < inject_Z (Z.of_nat (length l))).
  { apply inject_nat_pos. destruct l; [congruence | simpl; lia]. }
  unfold mean. split.
  - apply Qle_shift_div_l; [exact HN |].
    destruct (sumQ_between a b l Hall) as [H _]. lra.
  - apply Qlt_shift_div_r; [exact HN |].
    destruct l as [| v l]; [congruence |].
    inversion Hall as [| ? ? [Hv1 Hv2] Hrest]; subst.
    destruct (sumQ_between a b l Hrest) as [_ H].
    rewrite sumQ_cons. cbn [length]. rewrite inject_succ. lra.
Qed.

Lemma step_in_bounds clusters points centers rand n points' centers' n' :
  unitStream rand ->
  Forall (fun p => inBounds (mkCenter (x p) (y p))) points ->
  step clusters points centers rand n = (Some (points', centers'), n') ->
  Forall inBounds centers'.
Proof.
  intros Hrand Hbox Hstep.
  destruct (step_centres _ _ _ _ _ _ _ _ Hstep) as [_ Hcs].
  destruct (step_inv _ _ _ _ _ _ _ _ Hstep) as (Hp & _).
  assert (Hbox' : forall p, In p points' -> inBounds (mkCenter (x p) (y p))).
  { intros p Hin. subst points'. unfold assignClusters in Hin. rewrite map_map in Hin.
    apply in_map_iff in Hin. destruct Hin as (q & <- & Hq). cbn [x y].
    rewrite Forall_forall in Hbox. now apply Hbox. }
  apply Forall_forall. intros c Hin. apply In_nth_error in Hin. destruct Hin as [i Hi].
  destruct (Hcs i c Hi) as [Hmean Hfresh].
  destruct (assignedTo i points') as [| p0 A] eqn:EA.
  - now apply Hfresh.
  - rewrite (Hmean ltac:(discriminate)).
    assert (Hsub : forall p, In p (p0 :: A) -> inBounds (mkCenter (x p) (y p))).
    { intros p Hin. apply Hbox'. rewrite <- EA in Hin. unfold assignedTo in Hin.
      now apply filter_In in Hin. }
    destruct (mean_between 10 790 (map x (p0 :: A))) as [H1 H2]; [discriminate | |].
    { apply Forall_forall. intros v Hv. apply in_map_iff in Hv. destruct Hv as (p & <- & Hp').
      destruct (Hsub p Hp') as (? & ? & ? & ?). cbn [cx cy] in *. split; assumption. }
    destruct (mean_between 10 590 (map y (p0 :: A))) as [H3 H4]; [discriminate | |].
    { apply Forall_forall. intros v Hv. apply in_map_iff in Hv. destruct Hv as (p & <- & Hp').
      destruct (Hsub p Hp') as (? & ? & ? & ?). cbn [cx cy] in *. split; assumption. }
    unfold inBounds. cbn [cx cy]. repeat split; assumption.
Qed.

Lemma runSteps_finishes rounds : forall clusters points centers rand n,
  unitStream rand -> centers <> [] -> (length centers <= clusters)%nat ->
  Forall (fun p => inBounds (mkCenter (x p) (y p))) points ->
  exists points' centers' n',
    runSteps rounds clusters points centers rand n = (Some (points', centers'), n') /\
    length centers' = clusters /\ Forall inBounds centers' /\
    map (fun p => (x p, y p)) points' = map (fun p => (x p, y p)) points /\
    Forall (fun p => exists i, cluster p = Some i /\ (i < clusters)%nat) points'.
Proof.
  induction rounds as [| rounds IH]; intros clusters points centers rand n Hrand Hne Hle Hbox;
    destruct (step_total clusters points centers rand n Hne Hle) as (centers1 & n1 & Hstep);
    assert (Hlen := proj1 (step_centres _ _ _ _ _ _ _ _ Hstep));
    assert (Hin := step_in_bounds _ _ _ _ _ _ _ _ Hrand Hbox Hstep);
    cbn [runSteps]; unfold bind at 1; rewrite Hstep.
  - exists (assignClusters centers points), centers1, n1.
    split; [reflexivity |]. split; [exact Hlen |]. split; [exact Hin |].
    split; [apply assignClusters_coords |].
    apply Forall_forall. intros p Hp.
    destruct (assignClusters_cluster _ _ _ Hp) as (c & Hc & Hlt).
    exists c. split; [exact Hc |]. specialize (Hlt Hne). lia.
  - assert (Hne1 : centers1 <> []).
    { destruct centers1; [| discriminate]. destruct centers; [congruence |].
      simpl in Hlen, Hle. lia. }
    assert (Hbox1 : Forall (fun p => inBounds (mkCenter (x p) (y p)))
                           (assignClusters centers points)).
    { apply Forall_forall. intros p Hp. unfold assignClusters in Hp. rewrite map_map in Hp.
      apply in_map_iff in Hp. destruct Hp as (q & <- & Hq). cbn [x y].
      rewrite Forall_forall in Hbox. now apply Hbox. }
    destruct (IH clusters (assignClusters centers points) centers1 rand n1 Hrand Hne1
                 ltac:(lia) Hbox1) as (points' & centers' & n' & Hrun & H1 & H2 & H3 & H4).
    exists points', centers', n'. split; [exact Hrun |].
    split; [exact H1 |]. split; [exact H2 |]. split; [| exact H4].
    rewrite H3. apply assignClusters_coords.
Qed.

(** X14.  The animation on data inside the sampling bounds, started with at
    least one centroid and no more than [config.clusters], never throws: for
    every number of iterations it ends with [config.clusters] centres, all
    inside the sampling bounds, and with the same points at the same
    coordinates, each in a cluster below [config.clusters]. *)
Theorem animate_finishes_in_bounds
        (iterations clusters : nat) (data : list DataPoint) (centroids : list Center)
        (rand : nat -> Q) (n : nat) :
  unitStream rand ->
  data <> [] -> centroids <> [] -> (length centroids <= clusters)%nat ->
  Forall (fun p => inBounds (mkCenter (x p) (y p))) data ->
  exists points centers n',
    animate iterations clusters data centroids rand n = (Finished points centers, n') /\
    length centers = clusters /\ Forall inBounds centers /\
    map (fun p => (x p, y p)) points = map (fun p => (x p, y p)) data /\
    Forall (fun p => exists i, cluster p = Some i /\ (i < clusters)%nat) points.
Proof.
  intros Hrand Hd Hc Hle Hbox. unfold animate.
  destruct data as [| d data]; [congruence |].
  destruct centroids as [| c centroids]; [congruence |].
  cbn [length Nat.eqb orb].
  destruct (runSteps_finishes (Nat.pred iterations) clusters (d :: data) (c :: centroids)
              rand n Hrand Hc Hle Hbox) as (points & centers & n' & Hrun & H).
  exists points, centers, n'. split; [| exact H].
  unfold bind, ret. rewrite Hrun. reflexivity.
Qed.

Lemma animate_finishes_in_bounds_witness :
  exists points centers n',
    animate 10 2 [mkDataPoint 20 30 None; mkDataPoint 700 500 None]
            [mkCenter 1 1; mkCenter 2000 2000] (fun _ => 1 # 2) 0%nat
    = (Finished points centers, n') /\
    length centers = 2%nat /\ Forall inBounds centers /\
    map (fun p => (x p, y p)) points
    = map (fun p => (x p, y p)) [mkDataPoint 20 30 None; mkDataPoint 700 500 None] /\
    Forall (fun p => exists i, cluster p = Some i /\ (i < 2)%nat) points.
Proof.
  apply (animate_finishes_in_bounds 10 2 [mkDataPoint 20 30 None; mkDataPoint 700 500 None]
           [mkCenter 1 1; mkCenter 2000 2000] (fun _ => 1 # 2) 0%nat).
  - intros k. split; lra.
  - discriminate.
  - discriminate.
  - simpl. lia.
  - repeat constructor; simpl; lra.
Defined.

(** The first effect skips the animation when there is nothing to animate. *)
Example animate_skipped iterations clusters centroids rand n :
  fst (animate iterations clusters [] centroids rand n) = Skipped.
Proof. reflexivity. Qed.

(** *** The initial state *)

(** X15.  [generateRandomPoints] and the mode ["random"] of
    [initializeCentroids] give as many points and centroids as asked for,
    all inside the sampling bounds, and the points without a cluster. *)
Theorem initial_state_in_bounds (points clusters : nat) (rand : nat -> Q) (n n' : nat) :
  unitStream rand ->
  length (fst (generateRandomPoints points rand n)) = points /\
  Forall (fun p => inBounds (mkCenter (x p) (y p)) /\ cluster p = None)
         (fst (generateRandomPoints points rand n)) /\
  length (fst (initializeRandom clusters rand n')) = clusters /\
  Forall inBounds (fst (initializeRandom clusters rand n')).
Proof.
  intros Hrand. split; [apply replicateG_length |].
  split; [| split; [apply replicateG_length |]].
  - apply replicateG_Forall. intros k. unfold genPoint, bind, ret, random. cbn.
    destruct (Hrand k), (Hrand (S k)). unfold inBounds. cbn. repeat split; lra.
  - apply replicateG_Forall. intros k. unfold genCenter, bind, ret, random. cbn.
    destruct (Hrand k), (Hrand (S k)). unfold inBounds. cbn. repeat split; lra.
Qed.

Lemma initial_state_in_bounds_witness :
  length (fst (generateRandomPoints 100 (fun _ => 1 # 3) 0%nat)) = 100%nat /\
  length (fst (initializeRandom 6 (fun _ => 1 # 3) 7%nat)) = 6%nat.
Proof.
  destruct (initial_state_in_bounds 100 6 (fun _ => 1 # 3) 0%nat 7%nat) as (H1 & _ & H2 & _).
  - intros k. split; lra.
  - split; [exact H1 | exact H2].
Defined.

(** *** K-Means++ *)

Lemma minOf_nonneg values : forall v, 0 <= v -> Forall (fun d => 0 <= d) values ->
  0 <= minOf v values.
Proof.
  unfold minOf. induction values as [| d values IH]; intros v Hv Hall; cbn [fold_left];
    [exact Hv |].
  inversion Hall; subst. apply IH; [| assumption].
  apply Q.min_glb; assumption.
Qed.

Lemma distances_defined (points : list DataPoint) (centroids : list Centroid) (p : DataPoint) :
  centroids <> [] ->
  Forall (fun c => exists q, c = Some q /\ In q points) centroids ->
  exists d, distanceToCentroids centroids p = Some d /\ 0 <= d.
Proof.
  intros Hne Hall.
  assert (H : exists ds,
             fold_right (fun c acc =>
                           match c, acc with
                           | Some c', Some ds =>
                               Some (euclideanDistance (x p) (y p) (x c') (y c') :: ds)
                           | _, _ => None
                           end) (Some []) centroids = Some ds /\
             length ds = length centroids /\ Forall (fun d => 0 <= d) ds).
  { clear Hne. induction Hall as [| c cs (q & -> & _) _ (ds & Heq & Hlen & Hds)].
    - exists []. repeat split. constructor.
    - cbn [fold_right]. rewrite Heq. eexists. split; [reflexivity |].
      split; [simpl; congruence |].
      constructor; [| exact Hds]. unfold euclideanDistance. simpl.
      assert (H1 := square_nonneg (x p - x q)). assert (H2 := square_nonneg (y p - y q)).
      lra. }
  destruct H as (ds & Hds & Hlen & Hpos).
  unfold distanceToCentroids. destruct centroids as [| c cs]; [congruence |].
  rewrite Hds. destruct ds as [| d ds]; [discriminate |].
  inversion Hpos; subst. eexists. split; [reflexivity |]. now apply minOf_nonneg.
Qed.

Lemma distancesTo_defined (all : list DataPoint) (centroids : list Centroid) :
  centroids <> [] ->
  Forall (fun c => exists q, c = Some q /\ In q all) centroids ->
  forall points, exists ds,
    distancesTo centroids points = Some ds /\ length ds = length points /\
    Forall (fun d => 0 <= d) ds.
Proof.
  intros Hne Hall. induction points as [| p points (ds & Hds & Hlen & Hpos)].
  - exists []. repeat split. constructor.
  - destruct (distances_defined all centroids p Hne Hall) as (d & Hd & Hd0).
    cbn [distancesTo]. rewrite Hd, Hds. exists (d :: ds).
    split; [reflexivity |]. split; [simpl; congruence | now constructor].
Qed.

Lemma fold_Qplus_nonneg ds : forall acc,
  0 <= acc -> Forall (fun d => 0 <= d) ds -> 0 <= fold_left Qplus ds acc.
Proof.
  induction ds as [| d ds IH]; intros acc Hacc Hall; cbn [fold_left]; [exact Hacc |].
  inversion Hall; subst. apply IH; [lra | assumption].
Qed.

Lemma pickIndex_found ds : forall r acc i,
  ds <> [] -> r <= fold_left Qplus ds acc ->
  exists j, pickIndex ds r acc i = Some j /\ (i <= j < i + length ds)%nat.
Proof.
  induction ds as [| d ds IH]; intros r acc i Hne Hr; [congruence |].
  cbn [pickIndex fold_left length] in *.
  destruct (Qle_bool r (acc + d)) eqn:E.
  - exists i. split; [reflexivity | lia].
  - destruct ds as [| d' ds].
    + cbn [fold_left] in Hr. apply Qle_bool_iff in Hr. congruence.
    + destruct (IH r (acc + d) (S i) ltac:(discriminate) Hr) as (j & Hj & Hlt).
      exists j. split; [exact Hj |]. cbn [length] in *. lia.
Qed.

Ltac case_ltb H :=
  unfold Centroid in *;
  match goal with
  | |- context [(?a <? ?b)%nat] => destruct (Nat.ltb_spec a b) as [H | H]
  end.

Lemma plusPlusLoop_finishes (clusters : nat) (points : list DataPoint) (rand : nat -> Q) :
  unitStream rand -> points <> [] ->
  forall fuel centroids n,
    centroids <> [] ->
    Forall (fun c => exists q, c = Some q /\ In q points) centroids ->
    (clusters <= length centroids + fuel)%nat ->
    exists cs n',
      plusPlusLoop fuel clusters points centroids rand n = (Done cs, n') /\
      length cs = Nat.max (length centroids) clusters /\
      Forall (fun c => exists q, c = Some q /\ In q points) cs.
Proof.
  intros Hrand Hpts. unfold Centroid.
  induction fuel as [| fuel IH]; intros centroids n Hne Hall Hfuel.
  - cbn [plusPlusLoop]. case_ltb Hlt; [lia |].
    exists centroids, n. split; [reflexivity |]. split; [lia | exact Hall].
  - cbn [plusPlusLoop]. case_ltb Hlt.
    + destruct (distancesTo_defined points centroids Hne Hall points)
        as (ds & Hds & Hlen & Hpos).
      rewrite Hds. unfold bind at 1. unfold random at 1. cbn iota.
      assert (Hsum : 0 <= fold_left Qplus ds 0) by (apply fold_Qplus_nonneg; [lra | exact Hpos]).
      assert (Hdne : ds <> []).
      { destruct ds; [| discriminate]. destruct points; [congruence | discriminate]. }
      destruct (pickIndex_found ds (rand n * fold_left Qplus ds 0) 0 0%nat Hdne)
        as (j & Hj & Hjlt).
      { destruct (Hrand n). nra. }
      rewrite Hj.
      destruct (nth_error points j) as [q |] eqn:Eq;
        [| apply nth_error_None in Eq; lia].
      destruct (IH (centroids ++ [Some q]) (S n)) as (cs & n' & Hrun & Hcs & Hin).
      * destruct centroids; discriminate.
      * apply Forall_app. split; [exact Hall |]. constructor; [| constructor].
        exists q. split; [reflexivity |]. now apply nth_error_In in Eq.
      * rewrite length_app. simpl. lia.
      * exists cs, n'. split; [exact Hrun |]. split; [| exact Hin].
        rewrite Hcs, length_app. simpl. lia.
    + exists centroids, n. split; [reflexivity |]. split; [lia | exact Hall].
Qed.

(** X16.  The mode ["kmeans++"] of [initializeCentroids] on data that is not
    empty: its [while] loop ends after at most [config.clusters - 1] rounds,
    and it returns [config.clusters] centroids (one when [config.clusters]
    is 0), each of them one of the data points. *)
Theorem initializePlusPlus_picks_data_points
        (fuel clusters : nat) (points : list DataPoint) (rand : nat -> Q) (n : nat) :
  unitStream rand -> points <> [] -> (clusters <= S fuel)%nat ->
  exists centroids n',
    initializePlusPlus fuel clusters points rand n = (Done centroids, n') /\
    length centroids = Nat.max 1 clusters /\
    Forall (fun c => exists p, c = Some p /\ In p points) centroids.
Proof.
  intros Hrand Hne Hfuel. unfold initializePlusPlus. unfold bind at 1. unfold random at 1.
  cbn iota.
  assert (Hidx : (Z.to_nat (Qfloor (rand n * inject_Z (Z.of_nat (length points))))
                  < length points)%nat).
  { destruct (Hrand n). apply floor_of_scaled; [assumption | assumption |].
    destruct points; [congruence | simpl; lia]. }
  destruct (nth_error points _) as [p |] eqn:Ep; [| apply nth_error_None in Ep; lia].
  apply (plusPlusLoop_finishes clusters points rand Hrand Hne fuel [Some p] (S n)).
  - discriminate.
  - constructor; [| constructor]. exists p. split; [reflexivity |].
    now apply nth_error_In in Ep.
  - simpl. lia.
Qed.

Lemma initializePlusPlus_picks_data_points_witness :
  exists centroids n',
    initializePlusPlus 2 3 [mkDataPoint 20 30 None; mkDataPoint 700 500 None;
                            mkDataPoint 40 50 None] (fun _ => 1 # 2) 0%nat
    = (Done centroids, n') /\
    length centroids = Nat.max 1 3 /\
    Forall (fun c => exists p, c = Some p /\
                     In p [mkDataPoint 20 30 None; mkDataPoint 700 500 None;
                           mkDataPoint 40 50 None]) centroids.
Proof.
  apply (initializePlusPlus_picks_data_points 2 3
           [mkDataPoint 20 30 None; mkDataPoint 700 500 None; mkDataPoint 40 50 None]
           (fun _ => 1 # 2) 0%nat).
  - intros k. split; lra.
  - discriminate.
  - lia.
Defined.

Lemma plusPlusLoop_without_points clusters centroids rand :
  (length centroids < clusters)%nat ->
  forall fuel n, fst (plusPlusLoop fuel clusters [] centroids rand n) = OutOfFuel.
Proof.
  intros Hlt. induction fuel as [| fuel IH]; intros n; cbn [plusPlusLoop];
    case_ltb H; try lia; [reflexivity |].
  cbn [distancesTo]. unfold bind, random. cbn [pickIndex]. apply IH.
Qed.

(** X17.  The mode ["kmeans++"] without data: the only centroid is
    [undefined], and for two clusters or more the [while] loop adds nothing
    and never ends, whatever the random numbers. *)
Theorem initializePlusPlus_without_points
        (fuel clusters : nat) (rand : nat -> Q) (n : nat) :
  fst (initializePlusPlus fuel clusters [] rand n)
  = if (clusters <=? 1)%nat then Done [None] else OutOfFuel.
Proof.
  unfold initializePlusPlus. unfold bind at 1. unfold random at 1. cbn iota.
  replace (nth_error (@nil DataPoint) _) with (@None DataPoint)
    by (now destruct (Z.to_nat _)).
  destruct (Nat.leb_spec clusters 1) as [Hle | Hgt].
  - destruct fuel; cbn [plusPlusLoop length]; case_ltb H; try lia; reflexivity.
  - apply plusPlusLoop_without_points. simpl. lia.
Qed.

End KMeansMore.

(** ** The neighbourhood function of the SOM page *)

Section SOMInfluence.

Import SOMPage.
Local Open Scope R_scope.

Lemma hypot_nonneg a b : 0 <= hypot a b.
Proof. unfold hypot. apply sqrt_pos. Qed.

Lemma gridDist_nonneg node bmu : 0 <= gridDist node bmu.
Proof. apply hypot_nonneg. Qed.

(** The decayed radius of a radius in the range of the slider is positive. *)
Lemma sigmaDecay_pos sigma iter iterations :
  sigmaInRange sigma -> 0 < sigmaDecay sigma iter iterations.
Proof.
  unfold sigmaInRange, sigmaDecay. intros [Hlo _].
  apply Rmult_lt_0_compat; [lra | apply exp_pos].
Qed.

(** The argument of the exponential falls as the distance grows. *)
Lemma exponent_decreasing (sigma d1 d2 : R) :
  sigma <> 0 -> 0 <= d1 -> d1 < d2 ->
  - (d2 ^ 2) / (2 * sigma ^ 2) < - (d1 ^ 2) / (2 * sigma ^ 2).
Proof.
  intros Hsigma Hd1 Hlt.
  assert (Hs : 0 < 2 * sigma ^ 2).
  { assert (0 < sigma ^ 2) by (simpl; rewrite Rmult_1_r; nra). lra. }
  assert (Hd : d1 ^ 2 < d2 ^ 2) by nra.
  unfold Rdiv. apply Rmult_lt_compat_r; [apply Rinv_0_lt_compat; exact Hs | lra].
Qed.

(** On the page: at any iteration, of two nodes the one farther from the
    best matching unit in the grid is moved by the smaller influence. *)
Corollary influence_of_farther_node sigma iter iterations (bmu near far : Node) :
  sigmaInRange sigma ->
  gridDist near bmu < gridDist far bmu ->
  influence (sigmaDecay sigma iter iterations) (gridDist far bmu)
  < influence (sigmaDecay sigma iter iterations) (gridDist near bmu).
Proof.
  intros Hsigma Hlt. unfold influence. apply exp_increasing.
  apply exponent_decreasing.
  - apply Rgt_not_eq. now apply sigmaDecay_pos.
  - apply gridDist_nonneg.
  - exact Hlt.
Qed.

(** The best matching unit itself, at distance 0, has the full influence 1. *)
Lemma influence_at_bmu sigma : influence sigma 0 = 1.
Proof.
  unfold influence. replace (- 0 ^ 2 / (2 * sigma ^ 2)) with 0; [apply exp_0 |].
  unfold Rdiv. simpl. ring.
Qed.

End SOMInfluence.

(** ** The activation tables *)

Section Activations.

Local Open Scope R_scope.

Lemma logistic_forms x : exp x / (1 + exp x) = 1 / (1 + exp (- x)).
Proof.
  rewrite exp_Ropp. assert (H := exp_pos x). field. split; lra.
Qed.

Lemma softmax_is_sigmoid_page x :
  func (PerceptronPage.activations softmax) x = func (PerceptronPage.activations sigmoid) x.
Proof. simpl. apply logistic_forms. Qed.

Lemma softmax_is_sigmoid_mlp x :
  func (Perceptron.activations softmax) x = func (Perceptron.activations sigmoid) x.
Proof. simpl. rewrite (Rplus_comm (exp x) 1). apply logistic_forms. Qed.

Lemma func_withSigmoid name x :
  func (PerceptronPage.activations (PerceptronPage.sigmoidForSoftmax name)) x
  = func (PerceptronPage.activations name) x.
Proof. destruct name; try reflexivity. symmetry. apply softmax_is_sigmoid_page. Qed.

Lemma layerOutput_withSigmoid cfg i layer currentInput :
  PerceptronPage.layerOutput (PerceptronPage.withSigmoid cfg) i layer currentInput
  = PerceptronPage.layerOutput cfg i layer currentInput.
Proof.
  unfold PerceptronPage.layerOutput, PerceptronPage.withSigmoid, PerceptronPage.totalLayers.
  simpl. apply map_ext. intros [v |]; [| reflexivity]. simpl. f_equal.
  destruct (i =? PerceptronPage.hiddenLayers cfg + 1 - 1)%nat; apply func_withSigmoid.
Qed.

Lemma layersFrom_withSigmoid cfg network rounds : forall i currentInput,
  PerceptronPage.layersFrom (PerceptronPage.withSigmoid cfg) network i rounds currentInput
  = PerceptronPage.layersFrom cfg network i rounds currentInput.
Proof.
  induction rounds as [| rounds IH]; intros i currentInput; simpl; [reflexivity |].
  destruct (nth_error network i) as [layer |]; [| reflexivity].
  now rewrite layerOutput_withSigmoid, IH.
Qed.

(** The table of src/components/algorithms/perceptron.tsx is another one:
    its Softmax entry is the exponential, which is not the Sigmoid. *)
Remark visualizer_softmax_is_exp :
  func (PerceptronVisualizer.activations softmax) 0 = 1 /\
  func (PerceptronVisualizer.activations sigmoid) 0 = 1 / 2.
Proof.
  simpl. rewrite Ropp_0, exp_0. split; [reflexivity | field].
Qed.

End Activations.

(** ** More on the SOM page: the data, the grid and the training loop *)

Section SOMTraining.

Import SOMPage.
Local Open Scope R_scope.

(** *** Arithmetic of the page *)

Lemma exp_of_nonpos e : e <= 0 -> 0 < exp e <= 1.
Proof.
  intros He. split; [apply exp_pos |].
  destruct (Rle_lt_or_eq_dec e 0 He) as [Hlt | ->].
  - left. rewrite <- exp_0. now apply exp_increasing.
  - rewrite exp_0. lra.
Qed.

Lemma decay_in_unit iter iterations : 0 < exp (- INR iter / INR iterations) <= 1.
Proof.
  apply exp_of_nonpos. unfold Rdiv.
  assert (H1 := pos_INR iter).
  assert (H2 : 0 <= / INR iterations).
  { destruct iterations as [| k]; [simpl; rewrite Rinv_0; lra |].
    left. apply Rinv_0_lt_compat. apply lt_0_INR. lia. }
  nra.
Qed.

Lemma lrDecay_in_unit learningRate iter iterations :
  0 <= learningRate <= 1 -> 0 <= lrDecay learningRate iter iterations <= 1.
Proof.
  intros H. unfold lrDecay. assert (He := decay_in_unit iter iterations). nra.
Qed.

Lemma influence_in_unit sigmaD d : 0 < sigmaD -> 0 < influence sigmaD d <= 1.
Proof.
  intros Hs. unfold influence. apply exp_of_nonpos. unfold Rdiv.
  assert (H1 : 0 <= d ^ 2) by (simpl; nra).
  assert (H2 : 0 < / (2 * sigmaD ^ 2)).
  { apply Rinv_0_lt_compat. simpl. nra. }
  nra.
Qed.

Lemma hypot_scale s a b : 0 <= s -> hypot (s * a) (s * b) = s * hypot a b.
Proof.
  intros Hs. unfold hypot.
  replace (s * a * (s * a) + s * b * (s * b)) with ((s * s) * (a * a + b * b)) by ring.
  rewrite sqrt_mult; [| nra | nra]. now rewrite sqrt_square.
Qed.

Lemma step_in_unit lr infl : 0 <= lr <= 1 -> 0 < infl <= 1 -> 0 <= lr * infl <= 1.
Proof. intros H1 H2. nra. Qed.

Lemma towards_in_range t a b : 0 <= t <= 1 -> -1 <= a <= 1 -> -1 <= b <= 1 ->
  -1 <= a + t * (b - a) <= 1.
Proof.
  intros Ht Ha Hb.
  replace (a + t * (b - a)) with ((1 - t) * a + t * b) by ring.
  split; nra.
Qed.

(** *** The data *)

Lemma dataPoint_on_ring r1 r2 :
  0 <= r2 < 1 ->
  hypot (fst (dataPoint r1 r2)) (snd (dataPoint r1 r2)) = 6 / 10 + r2 * (2 / 10) /\
  inSquare (fst (dataPoint r1 r2)) (snd (dataPoint r1 r2)).
Proof.
  intros Hr. unfold dataPoint. cbn [fst snd].
  set (radius := 6 / 10 + r2 * (2 / 10)). set (angle := r1 * 2 * PI).
  assert (Hrad : 0 <= radius <= 1) by (unfold radius; lra).
  split.
  - rewrite (Rmult_comm (cos angle)), (Rmult_comm (sin angle)).
    rewrite hypot_scale by lra. unfold hypot.
    replace (cos angle * cos angle + sin angle * sin angle) with 1.
    + rewrite sqrt_1. ring.
    + assert (H := sin2_cos2 angle). unfold Rsqr in H. lra.
  - assert (Hc := COS_bound angle). assert (Hs := SIN_bound angle).
    unfold inSquare. repeat split; nra.
Qed.

Lemma fixedDataFrom_length count rand : forall n, length (fixedDataFrom count rand n) = count.
Proof. induction count as [| count IH]; intros n; simpl; [reflexivity | now rewrite IH]. Qed.

Lemma fixedDataFrom_ring count rand :
  unitReals rand ->
  forall n, Forall (fun pt => 6 / 10 <= hypot (fst pt) (snd pt) < 8 / 10 /\
                              inSquare (fst pt) (snd pt))
                   (fixedDataFrom count rand n).
Proof.
  intros Hrand. induction count as [| count IH]; intros n; cbn [fixedDataFrom];
    constructor; [| apply IH].
  destruct (dataPoint_on_ring (rand n) (rand (S n)) (Hrand (S n))) as [-> Hsq].
  split; [| exact Hsq]. destruct (Hrand (S n)). lra.
Qed.

(** X18.  [fixedData] has 200 points, all on the ring of the radii 0.6 to
    0.8 around the origin, which lies inside the plotted square. *)
Theorem fixedData_on_ring (rand : nat -> R) :
  unitReals rand ->
  length (fixedData rand) = 200%nat /\
  Forall (fun pt => 6 / 10 <= hypot (fst pt) (snd pt) < 8 / 10 /\
                    inSquare (fst pt) (snd pt))
         (fixedData rand).
Proof.
  intros Hrand. split; [apply fixedDataFrom_length | now apply fixedDataFrom_ring].
Qed.

Lemma fixedData_on_ring_witness : length (fixedData (fun _ => 1 / 2)) = 200%nat.
Proof.
  apply (fixedData_on_ring (fun _ => 1 / 2)). intros n. lra.
Defined.

(** *** The best matching unit *)

Lemma findBMUFrom_inv px py grid : forall seen best,
  bmuInv px py seen best ->
  bmuInv px py (seen ++ grid) (findBMUFrom px py grid best).
Proof.
  induction grid as [| node rest IH]; intros seen best Hb; cbn [findBMUFrom].
  - now rewrite app_nil_r.
  - change (seen ++ node :: rest) with (seen ++ [node] ++ rest). rewrite app_assoc.
    apply IH. unfold bmuInv in *. fold (distToInput px py node).
    destruct (fst best) as [minDist |] eqn:Ebest.
    + destruct Hb as (Hd & k & Hk & Hall).
      assert (Hklt : (k < length seen)%nat) by (apply nth_error_Some; congruence).
      destruct (Rlt_dec (distToInput px py node) minDist) as [Hlt | Hge]; cbn [fst snd].
      * split; [reflexivity |]. exists (length seen).
        split; [rewrite nth_error_app2, Nat.sub_diag by lia; reflexivity |].
        intros k' node' Hk'.
        destruct (Nat.lt_ge_cases k' (length seen)) as [Hin | Hout].
        -- rewrite nth_error_app1 in Hk' by exact Hin.
           destruct (Hall k' node' Hk') as [Hle _]. split; [lra | intros _; lra].
        -- rewrite nth_error_app2 in Hk' by exact Hout.
           destruct (k' - length seen)%nat as [| m] eqn:Em; cbn in Hk'.
           ++ injection Hk' as <-. split; [lra | lia].
           ++ destruct m; discriminate.
      * rewrite Ebest. split; [exact Hd |]. exists k.
        split; [rewrite nth_error_app1 by exact Hklt; exact Hk |].
        intros k' node' Hk'.
        destruct (Nat.lt_ge_cases k' (length seen)) as [Hin | Hout].
        -- rewrite nth_error_app1 in Hk' by exact Hin. exact (Hall k' node' Hk').
        -- rewrite nth_error_app2 in Hk' by exact Hout.
           destruct (k' - length seen)%nat as [| m] eqn:Em; cbn in Hk'.
           ++ injection Hk' as <-. split; [lra | lia].
           ++ destruct m; discriminate.
    + subst seen. cbn [fst snd app]. split; [reflexivity |]. exists 0%nat.
      split; [reflexivity |].
      intros [| k'] node' Hk'; cbn in Hk'.
      * injection Hk' as <-. split; [lra | lia].
      * destruct k'; discriminate.
Qed.

(** X19.  The search of the best matching unit over a grid with a node
    returns a node of the grid that is nearest to the input, and among the
    nearest ones the first in the order of the grid. *)
Theorem bmu_is_first_nearest_node (px py : R) (first : Node) (rest : list Node) :
  let grid := first :: rest in
  let bmu := snd (findBMUFrom px py grid (None, first)) in
  exists k, nth_error grid k = Some bmu /\
            forall k' node, nth_error grid k' = Some node ->
              distToInput px py bmu <= distToInput px py node /\
              ((k' < k)%nat -> distToInput px py bmu < distToInput px py node).
Proof.
  intros grid bmu.
  assert (H := findBMUFrom_inv px py grid [] (None, first) eq_refl).
  cbn [app] in H. unfold bmuInv in H. fold bmu in H.
  destruct (fst (findBMUFrom px py grid (None, first))) as [d |].
  - destruct H as (-> & k & Hk & Hall). exists k. split; [exact Hk | exact Hall].
  - discriminate.
Qed.

(** *** One round of training *)

Lemma updateNode_place lr sigmaD bmu px py node :
  i (updateNode lr sigmaD bmu px py node) = i node /\
  j (updateNode lr sigmaD bmu px py node) = j node.
Proof. split; reflexivity. Qed.

Lemma updateNode_distance lr sigmaD bmu px py node :
  0 <= lr <= 1 -> 0 < sigmaD ->
  distToInput px py (updateNode lr sigmaD bmu px py node)
  = (1 - lr * influence sigmaD (gridDist node bmu)) * distToInput px py node.
Proof.
  intros Hlr Hs. unfold distToInput, updateNode. cbn [x y].
  assert (Ht := step_in_unit lr _ Hlr (influence_in_unit sigmaD (gridDist node bmu) Hs)).
  rewrite <- hypot_scale by lra. f_equal; ring.
Qed.

Lemma updateNode_inSquare lr sigmaD bmu px py node :
  0 <= lr <= 1 -> 0 < sigmaD -> inSquare px py -> inSquare (x node) (y node) ->
  inSquare (x (updateNode lr sigmaD bmu px py node)) (y (updateNode lr sigmaD bmu px py node)).
Proof.
  intros Hlr Hs [Hpx Hpy] [Hx Hy]. unfold updateNode. cbn [x y].
  assert (Ht := step_in_unit lr _ Hlr (influence_in_unit sigmaD (gridDist node bmu) Hs)).
  split; apply towards_in_range; assumption.
Qed.

Lemma learningRate_unit learningRate :
  learningRateInRange learningRate -> 0 <= learningRate <= 1.
Proof. unfold learningRateInRange. lra. Qed.

(** X20.  Over the reals, one round of training leaves every node at its
    place in the grid and moves it straight towards the input: its distance
    to the input shrinks by the factor [1 - lrDecay * influence], which lies
    in [0, 1), and by the factor [1 - lrDecay] for the best matching unit.
    (On binary64 the influence of a far node underflows to 0, and such a
    node stays where it is.) *)
Theorem trainStep_moves_towards_input
        (learningRate sigma : R) (iterations iter : nat) (px py : R)
        (first : Node) (rest : list Node) :
  learningRateInRange learningRate -> sigmaInRange sigma ->
  let grid := first :: rest in
  let bmu := snd (findBMUFrom px py grid (None, first)) in
  let lr := lrDecay learningRate iter iterations in
  let infl node := influence (sigmaDecay sigma iter iterations) (gridDist node bmu) in
  length (trainStep learningRate sigma iterations iter px py grid) = length grid /\
  infl bmu = 1 /\
  forall k node, nth_error grid k = Some node ->
    exists node',
      nth_error (trainStep learningRate sigma iterations iter px py grid) k = Some node' /\
      i node' = i node /\ j node' = j node /\
      0 <= 1 - lr * infl node < 1 /\
      distToInput px py node' = (1 - lr * infl node) * distToInput px py node /\
      distToInput px py node' <= distToInput px py node.
Proof.
  intros Hlr Hsigma grid bmu lr infl.
  assert (Hs := sigmaDecay_pos sigma iter iterations Hsigma).
  assert (Hlr1 := lrDecay_in_unit learningRate iter iterations (learningRate_unit _ Hlr)).
  assert (Hlr0 : 0 < lrDecay learningRate iter iterations).
  { unfold lrDecay. assert (He := decay_in_unit iter iterations).
    unfold learningRateInRange in Hlr. nra. }
  fold lr in Hlr1, Hlr0.
  split; [unfold trainStep, grid; now rewrite length_map |].
  split.
  { unfold infl, gridDist. rewrite !Z.sub_diag. unfold hypot. cbn [IZR].
    replace (0 * 0 + 0 * 0) with 0 by ring. rewrite sqrt_0. apply influence_at_bmu. }
  intros k node Hk.
  exists (updateNode lr (sigmaDecay sigma iter iterations) bmu px py node).
  split.
  { unfold trainStep, grid. fold grid. fold bmu. fold lr.
    rewrite nth_error_map. fold grid in Hk. now rewrite Hk. }
  split; [reflexivity |]. split; [reflexivity |].
  assert (Hinfl := influence_in_unit _ (gridDist node bmu) Hs). fold (infl node) in Hinfl.
  assert (Hd := hypot_nonneg (px - x node) (py - y node)). fold (distToInput px py node) in Hd.
  assert (Hf : 0 <= 1 - lr * infl node < 1) by nra.
  split; [exact Hf |].
  rewrite updateNode_distance by assumption. fold (infl node).
  split; [reflexivity |].
  apply Rle_trans with (1 * distToInput px py node); [| lra].
  apply Rmult_le_compat_r; [exact Hd | lra].
Qed.

Lemma trainStep_moves_towards_input_witness :
  length (trainStep (1 / 10) 1 100 0 0 0 [mkNode 1 1 0 0; mkNode (-1) 0 0 1]) = 2%nat.
Proof.
  apply (trainStep_moves_towards_input (1 / 10) 1 100 0 0 0 (mkNode 1 1 0 0)
           [mkNode (-1) 0 0 1]).
  - unfold learningRateInRange. lra.
  - unfold sigmaInRange. lra.
Defined.

Lemma trainStep_inSquare learningRate sigma iterations iter px py grid :
  learningRateInRange learningRate -> sigmaInRange sigma -> inSquare px py ->
  Forall (fun node => inSquare (x node) (y node)) grid ->
  Forall (fun node => inSquare (x node) (y node))
         (trainStep learningRate sigma iterations iter px py grid).
Proof.
  intros Hlr Hsigma Hp Hall. unfold trainStep. destruct grid as [| first rest]; [constructor |].
  apply Forall_map. revert Hall. apply Forall_impl. intros node Hn.
  apply updateNode_inSquare; try assumption.
  - apply lrDecay_in_unit. now apply learningRate_unit.
  - now apply sigmaDecay_pos.
Qed.

Lemma trainStep_places learningRate sigma iterations iter px py grid :
  map (fun node => (i node, j node)) (trainStep learningRate sigma iterations iter px py grid)
  = map (fun node => (i node, j node)) grid.
Proof.
  unfold trainStep. destruct grid as [| first rest]; [reflexivity |].
  rewrite map_map. reflexivity.
Qed.

(** *** The grid and the whole simulation *)

Lemma initColumns_length rand i count : forall j n,
  length (initColumns rand i j count n) = count.
Proof.
  induction count as [| count IH]; intros j n; simpl; [reflexivity | now rewrite IH].
Qed.

Lemma initColumns_inSquare rand i count :
  unitReals rand ->
  forall j n, Forall (fun node => inSquare (x node) (y node)) (initColumns rand i j count n).
Proof.
  intros Hrand. induction count as [| count IH]; intros j n; cbn [initColumns];
    constructor; [| apply IH].
  cbn [x y]. destruct (Hrand n), (Hrand (S n)). unfold inSquare. lra.
Qed.

Lemma initColumns_places rand i count : forall j n,
  map (fun node => (SOMPage.i node, SOMPage.j node)) (initColumns rand i j count n)
  = map (fun b => (i, (j + Z.of_nat b)%Z)) (seq 0 count).
Proof.
  induction count as [| count IH]; intros j n; [reflexivity |].
  cbn [initColumns map seq SOMPage.i SOMPage.j]. rewrite Z.add_0_r. f_equal.
  rewrite IH, <- seq_shift, map_map. apply map_ext. intros b. f_equal. lia.
Qed.

Lemma initRows_length rand gridSize count : forall i n,
  length (initRows rand gridSize i count n) = (count * gridSize)%nat.
Proof.
  induction count as [| count IH]; intros i n; [reflexivity |].
  cbn [initRows]. rewrite length_app, initColumns_length, IH. simpl. lia.
Qed.

Lemma initRows_inSquare rand gridSize count :
  unitReals rand ->
  forall i n, Forall (fun node => inSquare (x node) (y node)) (initRows rand gridSize i count n).
Proof.
  intros Hrand. induction count as [| count IH]; intros i n; cbn [initRows]; [constructor |].
  apply Forall_app. split; [now apply initColumns_inSquare | apply IH].
Qed.

Lemma initRows_places rand gridSize count : forall i n a b,
  (a < count)%nat -> (b < gridSize)%nat ->
  nth_error (map (fun node => (SOMPage.i node, SOMPage.j node))
                 (initRows rand gridSize i count n)) (a * gridSize + b)
  = Some ((i + Z.of_nat a)%Z, Z.of_nat b).
Proof.
  induction count as [| count IH]; intros i n a b Ha Hb; [lia |].
  cbn [initRows]. rewrite map_app. destruct a as [| a].
  - rewrite nth_error_app1 by (rewrite length_map, initColumns_length; simpl; lia).
    rewrite initColumns_places. cbn [Nat.mul Nat.add].
    rewrite nth_error_map, nth_error_seq.
    destruct (Nat.ltb_spec b gridSize); [| lia]. cbn. now rewrite Z.add_0_r.
  - rewrite nth_error_app2 by (rewrite length_map, initColumns_length; simpl; lia).
    rewrite length_map, initColumns_length.
    replace (S a * gridSize + b - gridSize)%nat with (a * gridSize + b)%nat by (simpl; lia).
    rewrite IH by lia. f_equal. f_equal. lia.
Qed.

Lemma pick_defined data r :
  data <> [] -> 0 <= r < 1 -> exists pt, pick data r = Some pt /\ In pt data.
Proof.
  intros Hne Hr. unfold pick.
  set (v := r * INR (length data)).
  assert (Hlen : 0 < INR (length data)).
  { apply lt_0_INR. destruct data; [congruence | simpl; lia]. }
  assert (Hv : 0 <= v < INR (length data)) by (unfold v; nra).
  destruct (base_Int_part v) as [Hlo Hhi].
  assert (H0 : (0 <= Int_part v)%Z).
  { assert (H : (-1 < Int_part v)%Z) by (apply lt_IZR; lra). lia. }
  assert (H1 : (Int_part v < Z.of_nat (length data))%Z).
  { apply lt_IZR. rewrite <- INR_IZR_INZ. lra. }
  destruct (Z.ltb_spec (Int_part v) 0) as [Hneg | _]; [lia |].
  destruct (nth_error data (Z.to_nat (Int_part v))) as [pt |] eqn:E.
  - exists pt. split; [reflexivity |]. now apply nth_error_In in E.
  - apply nth_error_None in E. lia.
Qed.

Lemma trainLoop_runs learningRate sigma iterations data rand :
  unitReals rand -> data <> [] ->
  Forall (fun pt => inSquare (fst pt) (snd pt)) data ->
  learningRateInRange learningRate -> sigmaInRange sigma ->
  forall rounds n iter grid,
    Forall (fun node => inSquare (x node) (y node)) grid ->
    exists grid',
      trainLoop learningRate sigma iterations data rand n iter rounds grid = Some grid' /\
      Forall (fun node => inSquare (x node) (y node)) grid' /\
      map (fun node => (i node, j node)) grid' = map (fun node => (i node, j node)) grid.
Proof.
  intros Hrand Hne Hdata Hlr Hsigma.
  induction rounds as [| rounds IH]; intros n iter grid Hgrid; cbn [trainLoop].
  - exists grid. split; [reflexivity |]. split; [exact Hgrid | reflexivity].
  - destruct (pick_defined data (rand n) Hne (Hrand n)) as ([px py] & -> & Hin).
    rewrite Forall_forall in Hdata. specialize (Hdata _ Hin). cbn [fst snd] in Hdata.
    destruct (IH (S n) (S iter) (trainStep learningRate sigma iterations iter px py grid))
      as (grid' & Hrun & Hsq & Hpl).
    { now apply trainStep_inSquare. }
    exists grid'. split; [exact Hrun |]. split; [exact Hsq |].
    rewrite Hpl. apply trainStep_places.
Qed.

Lemma toCanvas_in_box width height px py :
  2 * margin <= width -> 2 * margin <= height -> inSquare px py ->
  margin <= fst (toCanvas width height px py) <= width - margin /\
  margin <= snd (toCanvas width height px py) <= height - margin.
Proof.
  unfold toCanvas, inSquare, margin. cbn [fst snd]. intros Hw Hh [Hx Hy].
  split; split; nra.
Qed.

(** X21.  What [renderSOM] simulates at any frame, with data in the plotted
    square and the parameters in the ranges of their sliders: the training
    never throws, the grid keeps its [gridSize * gridSize] nodes, every
    node stays inside the plotted square and is drawn inside the bounding
    box, and the node at the index [a * gridSize + b], which the drawing of
    the connections reads, is the node of the place [(a, b)]. *)
Theorem simulate_keeps_grid
        (gridSize : nat) (learningRate sigma : R) (iterations frame : nat)
        (data : list (R * R)) (rand : nat -> R) (width height : R) :
  unitReals rand -> data <> [] ->
  Forall (fun pt => inSquare (fst pt) (snd pt)) data ->
  learningRateInRange learningRate -> sigmaInRange sigma ->
  2 * margin <= width -> 2 * margin <= height ->
  exists grid,
    simulate gridSize learningRate sigma iterations frame data rand = Some grid /\
    length grid = (gridSize * gridSize)%nat /\
    Forall (fun node =>
              inSquare (x node) (y node) /\
              margin <= fst (toCanvas width height (x node) (y node)) <= width - margin /\
              margin <= snd (toCanvas width height (x node) (y node)) <= height - margin)
           grid /\
    forall a b, (a < gridSize)%nat -> (b < gridSize)%nat ->
      exists node, nth_error grid (a * gridSize + b) = Some node /\
                   i node = Z.of_nat a /\ j node = Z.of_nat b.
Proof.
  intros Hrand Hne Hdata Hlr Hsigma Hw Hh. unfold simulate.
  destruct (trainLoop_runs learningRate sigma iterations data rand Hrand Hne Hdata Hlr Hsigma
              (Nat.min frame iterations) (2 * gridSize * gridSize) 0 (initGrid rand gridSize))
    as (grid & Hrun & Hsq & Hpl).
  { now apply initRows_inSquare. }
  exists grid. split; [exact Hrun |].
  assert (Hlen : length grid = (gridSize * gridSize)%nat).
  { rewrite <- (length_map (fun node => (i node, j node)) grid), Hpl, length_map.
    apply initRows_length. }
  split; [exact Hlen |]. split.
  - revert Hsq. apply Forall_impl. intros node Hn. split; [exact Hn |].
    now apply toCanvas_in_box.
  - intros a b Ha Hb.
    assert (Hnth := initRows_places rand gridSize gridSize 0 0 a b Ha Hb).
    fold (initGrid rand gridSize) in Hnth. rewrite <- Hpl, nth_error_map in Hnth.
    destruct (nth_error grid (a * gridSize + b)) as [node |]; [| discriminate].
    cbn in Hnth. injection Hnth as Hi Hj. exists node.
    split; [reflexivity |]. split; [lia | exact Hj].
Qed.

Lemma simulate_keeps_grid_witness :
  exists grid,
    simulate 5 (1 / 10) 1 100 7 [(0, 6 / 10); (7 / 10, 0)] (fun _ => 1 / 2) = Some grid /\
    length grid = (5 * 5)%nat.
Proof.
  destruct (simulate_keeps_grid 5 (1 / 10) 1 100 7 [(0, 6 / 10); (7 / 10, 0)]
              (fun _ => 1 / 2) 600 400) as (grid & Hrun & Hlen & _).
  - intros n. lra.
  - discriminate.
  - repeat constructor; cbn; lra.
  - unfold learningRateInRange. lra.
  - unfold sigmaInRange. lra.
  - unfold margin. lra.
  - unfold margin. lra.
  - exists grid. split; [exact Hrun | exact Hlen].
Defined.

End SOMTraining.

(** ** More on the perceptron page: the derivatives and the forward pass *)

Section PerceptronForward.

Import PerceptronPage.
Local Open Scope R_scope.

(** *** The derivatives of the table *)

Lemma derivable_pt_lim_same (f g : R -> R) x l :
  (forall z, f z = g z) -> derivable_pt_lim f x l -> derivable_pt_lim g x l.
Proof.
  intros Hfg Hf eps Heps. destruct (Hf eps Heps) as [delta Hd]. exists delta.
  intros h Hh Hlt. rewrite <- !Hfg. now apply Hd.
Qed.

Lemma logistic_derivative x :
  derivable_pt_lim (fun z => exp z / (1 + exp z)) x
    (exp x / (1 + exp x) * (1 - exp x / (1 + exp x))).
Proof.
  assert (Hpos := exp_pos x).
  assert (H := derivable_pt_lim_div exp (fct_cte 1 + exp)%F x (exp x) (0 + exp x)
                 (derivable_pt_lim_exp x)
                 (derivable_pt_lim_plus _ _ _ _ _ (derivable_pt_lim_const 1 x)
                                        (derivable_pt_lim_exp x))).
  unfold plus_fct, fct_cte in H. specialize (H ltac:(lra)).
  replace (exp x / (1 + exp x) * (1 - exp x / (1 + exp x)))
    with ((exp x * (1 + exp x) - (0 + exp x) * exp x) / Rsqr (1 + exp x));
    [exact H |].
  unfold Rsqr. field. lra.
Qed.

Lemma relu_derivative x :
  x <> 0 -> derivable_pt_lim (fun z => Rmax 0 z) x (if Rlt_dec 0 (Rmax 0 x) then 1 else 0).
Proof.
  intros Hx eps Heps. destruct (Rtotal_order x 0) as [Hneg | [H0 | Hpos]]; [| contradiction |].
  - rewrite (Rmax_left 0 x) by lra. destruct (Rlt_dec 0 0) as [H | _]; [lra |].
    exists (mkposreal (- x) ltac:(lra)). cbn [pos]. intros h Hh Hlt.
    assert (Hxh : x + h < 0) by (apply Rabs_def2 in Hlt; lra).
    rewrite (Rmax_left 0 (x + h)) by lra.
    replace ((0 - 0) / h - 0) with 0 by (field; exact Hh). rewrite Rabs_R0. exact Heps.
  - rewrite (Rmax_right 0 x) by lra. destruct (Rlt_dec 0 x) as [_ | H]; [| lra].
    exists (mkposreal x Hpos). cbn [pos]. intros h Hh Hlt.
    assert (Hxh : 0 < x + h) by (apply Rabs_def2 in Hlt; lra).
    rewrite (Rmax_right 0 (x + h)) by lra.
    replace ((x + h - x) / h - 1) with 0 by (field; exact Hh). rewrite Rabs_R0. exact Heps.
Qed.

(** X22.  In the table of src/unnamed/part_002 the field [derivative],
    given the output [func x], is the derivative of [func] at [x]: for
    Sigmoid, Identity and Softmax at every [x], and for ReLU at every [x]
    but 0. *)
Theorem derivative_field_is_the_derivative (name : ActivationName) (x : R) :
  (name = relu -> x <> 0) ->
  derivable_pt_lim (func (activations name)) x
                   (derivative (activations name) (func (activations name) x)).
Proof.
  intros Hx. destruct name; cbn [activations func derivative].
  - apply (derivable_pt_lim_same (fun z => exp z / (1 + exp z))).
    + intros z. apply logistic_forms.
    + rewrite <- logistic_forms. apply logistic_derivative.
  - apply relu_derivative. now apply Hx.
  - apply derivable_pt_lim_id.
  - apply logistic_derivative.
Qed.

Lemma derivative_field_is_the_derivative_witness :
  derivable_pt_lim (func (activations relu)) 1
                   (derivative (activations relu) (func (activations relu) 1)).
Proof.
  apply (derivative_field_is_the_derivative relu 1). intros _. lra.
Defined.

(** *** The forward pass *)

Lemma layerOutput_length cfg idx layer currentInput :
  length (layerOutput cfg idx layer currentInput) = length (weights layer).
Proof. unfold layerOutput. now rewrite !length_map. Qed.

Lemma layersFrom_none cfg network rounds : forall idx currentInput,
  (idx <= length network)%nat ->
  (layersFrom cfg network idx rounds currentInput = None
   <-> (length network < idx + rounds)%nat).
Proof.
  induction rounds as [| rounds IH]; intros idx currentInput Hidx; cbn [layersFrom].
  - split; [discriminate | lia].
  - destruct (nth_error network idx) as [layer |] eqn:E.
    + assert (Hlt : (idx < length network)%nat) by (apply nth_error_Some; congruence).
      rewrite IH by lia. lia.
    + apply nth_error_None in E. split; [lia | reflexivity].
Qed.

Lemma layersFrom_last cfg network rounds : forall idx currentInput out,
  layersFrom cfg network idx (S rounds) currentInput = Some out ->
  exists layer previous,
    nth_error network (idx + rounds) = Some layer /\
    out = layerOutput cfg (idx + rounds) layer previous.
Proof.
  induction rounds as [| rounds IH]; intros idx currentInput out.
  - cbn [layersFrom]. destruct (nth_error network idx) as [layer |] eqn:E; [| discriminate].
    intros [= <-]. exists layer, currentInput. rewrite Nat.add_0_r. now split.
  - change (layersFrom cfg network idx (S (S rounds)) currentInput)
      with (match nth_error network idx with
            | None => None
            | Some layer =>
                layersFrom cfg network (S idx) (S rounds) (layerOutput cfg idx layer currentInput)
            end).
    destruct (nth_error network idx) as [layer |]; [| discriminate].
    intros H. destruct (IH _ _ _ H) as (l & prev & Hl & Hout).
    exists l, prev. replace (idx + S rounds)%nat with (S idx + rounds)%nat by lia. now split.
Qed.

(** X23.  [getLayerOutput] throws exactly when [layerIndex] is not an index
    of a layer of the network; otherwise it returns one value for each row
    of weights of the layer [layerIndex]. *)
Theorem getLayerOutput_defined
        (cfg : NetworkConfig) (input : list Value) (layerIndex : nat) (network : list Layer) :
  (getLayerOutput cfg input layerIndex network = None
   <-> (length network <= layerIndex)%nat) /\
  (forall out, getLayerOutput cfg input layerIndex network = Some out ->
     exists layer, nth_error network layerIndex = Some layer /\
                   length out = length (weights layer)).
Proof.
  unfold getLayerOutput. split.
  - rewrite layersFrom_none by lia. lia.
  - intros out H. destruct (layersFrom_last _ _ _ _ _ _ H) as (layer & prev & Hl & ->).
    cbn [Nat.add] in Hl. exists layer. split; [exact Hl |]. apply layerOutput_length.
Qed.

Lemma layerOutput_same_weights cfg idx layer layer' currentInput :
  weights layer = weights layer' ->
  layerOutput cfg idx layer currentInput = layerOutput cfg idx layer' currentInput.
Proof. unfold layerOutput. now intros ->. Qed.

Lemma layersFrom_same_weights cfg network network' rounds :
  map weights network = map weights network' ->
  forall idx currentInput,
    layersFrom cfg network idx rounds currentInput
    = layersFrom cfg network' idx rounds currentInput.
Proof.
  intros Hw. induction rounds as [| rounds IH]; intros idx currentInput; cbn [layersFrom];
    [reflexivity |].
  assert (Hnth : nth_error (map weights network) idx = nth_error (map weights network') idx)
    by now rewrite Hw.
  rewrite !nth_error_map in Hnth.
  destruct (nth_error network idx) as [layer |], (nth_error network' idx) as [layer' |];
    cbn in Hnth; try discriminate; [| reflexivity].
  injection Hnth as Hsame. rewrite (layerOutput_same_weights _ _ _ _ _ Hsame). apply IH.
Qed.

(** X24.  The forward pass of [getLayerOutput] never reads the biases: two
    networks with the same weights give the same result, whatever their
    biases. *)
Theorem getLayerOutput_ignores_biases
        (cfg : NetworkConfig) (input : list Value) (layerIndex : nat)
        (network network' : list Layer) :
  map weights network = map weights network' ->
  getLayerOutput cfg input layerIndex network = getLayerOutput cfg input layerIndex network'.
Proof. intros Hw. unfold getLayerOutput. now apply layersFrom_same_weights. Qed.

Lemma getLayerOutput_ignores_biases_witness :
  getLayerOutput (mkConfig 1 sigmoid sigmoid) [Some 1; Some 2] 0 [mkLayer [[1; 1]] [0]]
  = getLayerOutput (mkConfig 1 sigmoid sigmoid) [Some 1; Some 2] 0 [mkLayer [[1; 1]] [5; 7]].
Proof.
  apply (getLayerOutput_ignores_biases (mkConfig 1 sigmoid sigmoid) [Some 1; Some 2] 0%nat
           [mkLayer [[1; 1]] [0]] [mkLayer [[1; 1]] [5; 7]]).
  reflexivity.
Defined.

Lemma logistic_in_unit v : 0 < 1 / (1 + exp (- v)) < 1.
Proof.
  assert (H := exp_pos (- v)).
  split.
  - apply Rdiv_lt_0_compat; lra.
  - apply (Rmult_lt_reg_r (1 + exp (- v))); [lra |].
    unfold Rdiv. rewrite Rmult_assoc, Rinv_l by lra. lra.
Qed.

(** X25.  When the activation of the layer [layerIndex] is Sigmoid or
    Softmax, every number that [getLayerOutput] returns lies strictly
    between 0 and 1. *)
Theorem getLayerOutput_in_unit_interval
        (cfg : NetworkConfig) (input : list Value) (layerIndex : nat) (network : list Layer)
        (out : list Value) :
  let name := if (layerIndex =? totalLayers cfg - 1)%nat
              then outputActivation cfg else activation cfg in
  name = sigmoid \/ name = softmax ->
  getLayerOutput cfg input layerIndex network = Some out ->
  forall v, In (Some v) out -> 0 < v < 1.
Proof.
  intros name Hname Hout v Hv. unfold getLayerOutput in Hout.
  destruct (layersFrom_last _ _ _ _ _ _ Hout) as (layer & prev & _ & ->).
  cbn [Nat.add] in Hv. unfold layerOutput in Hv. fold name in Hv.
  apply in_map_iff in Hv. destruct Hv as ([raw |] & Hraw & _); [| discriminate].
  cbn in Hraw. injection Hraw as <-.
  destruct Hname as [-> | ->]; cbn [activations func].
  - apply logistic_in_unit.
  - rewrite logistic_forms. apply logistic_in_unit.
Qed.

Lemma getLayerOutput_in_unit_interval_witness :
  0 < 1 / (1 + exp (- (0 + 1 * 1 + 1 * 2))) < 1.
Proof.
  apply (getLayerOutput_in_unit_interval (mkConfig 1 sigmoid sigmoid) [Some 1; Some 2] 0%nat
           [mkLayer [[1; 1]] [0]] [Some (1 / (1 + exp (- (0 + 1 * 1 + 1 * 2))))]).
  - left. reflexivity.
  - reflexivity.
  - left. reflexivity.
Defined.

End PerceptronForward.

(** ** [Math.exp] leaves the range of binary64 *)

Section Binary64Range.

Local Open Scope R_scope.

(** *** The exact exponential at the two thresholds *)

Lemma exp_times (n : nat) (y : R) : exp (INR n * y) = exp y ^ n.
Proof.
  induction n as [| n IH].
  - simpl. rewrite Rmult_0_l. apply exp_0.
  - rewrite S_INR, Rmult_plus_distr_r, Rmult_1_l, exp_plus, IH. simpl. ring.
Qed.

Lemma pow_strict (a b : R) (n : nat) : 0 <= a < b -> (0 < n)%nat -> a ^ n < b ^ n.
Proof.
  intros [Ha Hab] Hn. induction n as [| n IH]; [lia |].
  destruct n as [| n'].
  - simpl. lra.
  - assert (IH' := IH ltac:(lia)).
    assert (P : 0 <= a ^ S n') by (apply pow_le; exact Ha).
    change (a ^ S (S n')) with (a * a ^ S n').
    change (b ^ S (S n')) with (b * b ^ S n').
    apply Rmult_le_0_lt_compat; assumption.
Qed.

Lemma ratio_power (a b : Z) (k : nat) :
  (0 < b)%Z -> (2 * b ^ Z.of_nat k <= a ^ Z.of_nat k)%Z ->
  2 <= (1 + IZR (a - b) / IZR b) ^ k.
Proof.
  intros Hb Hle.
  assert (Hbr : 0 < IZR b) by now apply IZR_lt.
  replace (1 + IZR (a - b) / IZR b) with (IZR a * / IZR b)
    by (rewrite minus_IZR; field; lra).
  rewrite Rpow_mult_distr, pow_inv, !pow_IZR.
  assert (Hp : 0 < IZR (b ^ Z.of_nat k)) by (apply IZR_lt; lia).
  apply IZR_le in Hle. rewrite mult_IZR in Hle.
  apply (Rmult_le_reg_r (IZR (b ^ Z.of_nat k))); [exact Hp |].
  rewrite Rmult_assoc, Rinv_l by lra. lra.
Qed.

(** [2 ^ n < exp t], from [1 + y < exp y] at [y = t / (n * k)] and a
    comparison of integers. *)
Lemma exp_above_power_of_two (n k : nat) (t : Z) :
  (0 < t)%Z -> (0 < n)%nat -> (0 < k)%nat ->
  (2 * (Z.of_nat n * Z.of_nat k) ^ Z.of_nat k
   <= (Z.of_nat n * Z.of_nat k + t) ^ Z.of_nat k)%Z ->
  2 ^ n < exp (IZR t).
Proof.
  intros Ht Hn Hk Hle.
  set (m := (Z.of_nat n * Z.of_nat k)%Z) in *.
  assert (Hm : (0 < m)%Z) by (unfold m; lia).
  set (y := IZR t / IZR m).
  assert (Hy : 0 < y).
  { unfold y. apply Rdiv_lt_0_compat; now apply IZR_lt. }
  assert (E : IZR t = INR n * (INR k * y)).
  { unfold y, m. rewrite mult_IZR, <- !INR_IZR_INZ. field.
    split; apply not_0_INR; lia. }
  rewrite E, !exp_times.
  assert (H2 : 2 <= (1 + y) ^ k).
  { unfold y. replace t with (m + t - m)%Z by lia. apply ratio_power; assumption. }
  assert (H4 : 1 + y < exp y) by (apply exp_ineq1; lra).
  assert (H5 : (1 + y) ^ k < exp y ^ k) by (apply pow_strict; [lra | exact Hk]).
  apply Rle_lt_trans with (((1 + y) ^ k) ^ n).
  - apply pow_incr. lra.
  - apply pow_strict; [| exact Hn]. split; [apply pow_le; lra | exact H5].
Qed.

(** Above 710 the exponential is over [2 ^ 1024], beyond every finite
    binary64. *)
Lemma exp_overflows (x : R) : 710 <= x -> 2 ^ 1024 < exp x.
Proof.
  intros Hx.
  assert (H : 2 ^ 1024 < exp 710).
  { apply (exp_above_power_of_two 1024 1280 710); [reflexivity | lia | lia |].
    vm_compute. discriminate. }
  destruct (Rle_lt_or_eq_dec _ _ Hx) as [Hlt | <-]; [| exact H].
  apply Rlt_trans with (exp 710); [exact H | now apply exp_increasing].
Qed.

(** Below -746 it is under [2 ^ -1075], half the least positive binary64. *)
Lemma exp_underflows (x : R) : x <= -746 -> exp x < / 2 ^ 1075.
Proof.
  intros Hx.
  assert (H : 2 ^ 1075 < exp 746).
  { apply (exp_above_power_of_two 1075 512 746); [reflexivity | lia | lia |].
    vm_compute. discriminate. }
  assert (H' : exp (-746) < / 2 ^ 1075).
  { change (-746) with (Ropp 746). rewrite exp_Ropp. apply Rinv_lt_contravar; [| exact H].
    apply Rmult_lt_0_compat; [apply pow_lt; lra | apply exp_pos]. }
  destruct (Rle_lt_or_eq_dec _ _ Hx) as [Hlt | ->]; [| exact H'].
  apply Rlt_trans with (exp (-746)); [now apply exp_increasing | exact H'].
Qed.

(** *** [Math.exp] at the two ends *)

Lemma above_is_not_below (x : float) :
  (710 <=? x)%float = true -> (x <=? -746)%float = false.
Proof.
  rewrite !leb_spec.
  assert (E1 : Prim2SF 710 = S754_finite false 6245226045767680 (-43)) by reflexivity.
  assert (E2 : Prim2SF (-746) = S754_finite true 6561885394567168 (-43)) by reflexivity.
  rewrite E1, E2. unfold SFleb.
  destruct (Prim2SF x) as [s | s | | s m e]; unfold SFcompare;
    try (destruct s; intros H; try discriminate H; reflexivity).
  discriminate.
Qed.


Lemma Math_exp_overflow (middle : float -> float) (x : float) :
  (710 <=? x)%float = true -> Binary64.Math_exp middle x = infinity.
Proof.
  intros H. unfold Binary64.Math_exp. now rewrite (above_is_not_below x H), H.
Qed.

End Binary64Range.

(** ** The neighbourhood function, over the reals and on binary64 *)

Section SOMInfluenceBinary64.

Local Open Scope R_scope.



End SOMInfluenceBinary64.

(** ** Softmax and Sigmoid, over the reals and on binary64 *)

Section ActivationsBinary64.

Local Open Scope R_scope.

(** At 800 the Softmax of either table is [NaN], [Infinity / Infinity], and
    its Sigmoid is 1, whatever [Math.exp] returns between its thresholds;
    the Softmax is [NaN] at 710 already. *)
Lemma softmax_differs_from_sigmoid_on_binary64 :
  (forall middle,
      PerceptronPage64.func middle softmax 800 = nan /\
      PerceptronPage64.func middle sigmoid 800 = 1%float /\
      PerceptronPage64.func middle softmax 710 = nan) /\
  (forall middle,
      Perceptron64.func middle softmax 800 = nan /\
      Perceptron64.func middle sigmoid 800 = 1%float /\
      Perceptron64.func middle softmax 710 = nan) /\
  (nan =? 1)%float = false.
Proof. repeat split; reflexivity. Qed.

(** C10.  In the tables of the two pages the scalar Softmax and the Sigmoid
    are the same function of a real number,
    [exp x / (1 + exp x) = 1 / (1 + exp (-x))], and over the reals the
    forward pass of [getLayerOutput] is the same with Sigmoid selected
    wherever Softmax was.  On binary64 the two entries are not pointwise
    equal: from 710 on the Softmax of either table is [NaN]. *)
Theorem softmax_is_sigmoid_over_the_reals :
  (forall x, func (PerceptronPage.activations softmax) x
             = func (PerceptronPage.activations sigmoid) x) /\
  (forall x, func (Perceptron.activations softmax) x
             = func (Perceptron.activations sigmoid) x) /\
  (forall x, exp x / (1 + exp x) = 1 / (1 + exp (- x))) /\
  (forall cfg input layerIndex network,
      PerceptronPage.getLayerOutput (PerceptronPage.withSigmoid cfg) input layerIndex network
      = PerceptronPage.getLayerOutput cfg input layerIndex network) /\
  (forall (middle : float -> float) (x : float),
      (710 <=? x)%float = true ->
      PerceptronPage64.func middle softmax x = nan /\
      Perceptron64.func middle softmax x = nan).
Proof.
  split; [exact softmax_is_sigmoid_page | split; [exact softmax_is_sigmoid_mlp | split]].
  - exact logistic_forms.
  - split.
    + intros cfg input layerIndex network. apply layersFrom_withSigmoid.
    + intros middle x Hx. cbn [PerceptronPage64.func Perceptron64.func].
      rewrite (Math_exp_overflow middle x Hx). split; reflexivity.
Qed.

End ActivationsBinary64.

(** ** The request of the decision-tree page *)

Section BuildTree.

Import Fetch DecisionTreeVisualizer.
Local Open Scope string_scope.

(** What the page does as stated: the request is a POST with the body
    [{ dataset, params: { max_depth, min_samples_split, criterion } }], and
    the [tree] and [feature_names] of the answer become the state. *)
Lemma buildTreeRequest_shape env selectedDataset p r :
  buildTreeRequest env selectedDataset p = Some r ->
  method r = "POST" /\
  body r = mkBody selectedDataset
                  (mkTreeParams (maxDepth p) (minSamplesSplit p) (criterion p)).
Proof.
  unfold buildTreeRequest.
  destruct (String.eqb selectedDataset EmptyString); [discriminate |].
  intros [= <-]. split; reflexivity.
Qed.

Lemma applyResponse_sets t names st :
  applyResponse (Json t names) st = mkState t names.
Proof. reflexivity. Qed.

(** The URL of the request does not depend on the environment: the
    placeholder is not filled in. *)
Lemma buildTreeUrl_constant env :
  evalUrl env buildTreeUrl = "${process.env.NEXT_PUBLIC_API_URL}/build_tree".
Proof. reflexivity. Qed.

(** C6.  The page does not request [API_URL/build_tree].  With the backend at
    [http://localhost:8000] the page requests the URL made of the characters
    between the quotes, not [http://localhost:8000/build_tree]; the requests
    of the random-forest page and of the DBSCAN page, written in backquotes,
    do go to the backend. *)
Theorem build_tree_url_not_interpolated :
  let env := apiEnv "http://localhost:8000" in
  (exists r, buildTreeRequest env "iris" initialParams = Some r /\
             url r = "${process.env.NEXT_PUBLIC_API_URL}/build_tree" /\
             url r <> intendedUrl "http://localhost:8000") /\
  evalUrl env RandomForestPage.buildForestUrl = "http://localhost:8000/build_forest" /\
  evalUrl env DBSCANFetch.dbscanUrl = "http://localhost:8000/dbscan".
Proof.
  cbv zeta. split; [| split; reflexivity].
  eexists. split; [reflexivity |]. split; [reflexivity |].
  simpl. discriminate.
Qed.

End BuildTree.

(** ** The drawing of the decision tree *)

Section TreeDrawing.

Import DecisionTreeVisualizer.
Local Open Scope Q_scope.

(** Induction on a tree, with its subtrees where it has them. *)
Lemma Node_induction (P : Node -> Prop) :
  (forall feature threshold lft rgt value impurity,
      match lft with Some l => P l | None => True end ->
      match rgt with Some r => P r | None => True end ->
      P (mkNode feature threshold lft rgt value impurity)) ->
  forall node, P node.
Proof.
  intros H. fix IH 1. intros [feature threshold lft rgt value impurity].
  apply H.
  - destruct lft as [l |]; [apply IH | exact I].
  - destruct rgt as [r |]; [apply IH | exact I].
Qed.

Lemma shapeWithin_wider xlo xhi ylo yhi xlo' xhi' ylo' yhi' s :
  xlo' <= xlo -> xhi <= xhi' -> ylo' <= ylo -> yhi <= yhi' ->
  shapeWithin xlo xhi ylo yhi s -> shapeWithin xlo' xhi' ylo' yhi' s.
Proof.
  intros H1 H2 H3 H4. destruct s as [x1 y1 x2 y2 | x y r fill]; cbn [shapeWithin].
  - intros ((? & ?) & (? & ?) & (? & ?) & (? & ?)). repeat split; lra.
  - intros (Hr & (? & ?) & (? & ?)). split; [exact Hr |]. repeat split; lra.
Qed.

Lemma half_twice dx : dx / 2 + dx / 2 == dx.
Proof. field. Qed.

Lemma half_pos dx : 0 < dx -> 0 < dx / 2.
Proof. intros H. assert (E := half_twice dx). lra. Qed.

Lemma levels_nonneg (d : nat) dy : 0 <= dy -> 0 <= inject_Z (Z.of_nat d) * dy.
Proof.
  intros Hdy. apply Qmult_le_0_compat; [| exact Hdy]. change 0 with (inject_Z 0).
  rewrite <- Zle_Qle. lia.
Qed.

Lemma levels_below (d D : nat) dy :
  (S d <= D)%nat -> 0 <= dy ->
  dy + inject_Z (Z.of_nat d) * dy <= inject_Z (Z.of_nat D) * dy.
Proof.
  intros Hd Hdy.
  assert (H : inject_Z (Z.of_nat d) + 1 <= inject_Z (Z.of_nat D)).
  { change 1 with (inject_Z 1). rewrite <- inject_Z_plus, <- Zle_Qle. lia. }
  assert (H' := Qmult_le_compat_r _ _ dy H Hdy). lra.
Qed.

Lemma depth_of_children feature threshold lft rgt value impurity :
  match lft with
  | Some l => (S (depth l) <= depth (mkNode feature threshold lft rgt value impurity))%nat
  | None => True
  end /\
  match rgt with
  | Some r => (S (depth r) <= depth (mkNode feature threshold lft rgt value impurity))%nat
  | None => True
  end.
Proof. destruct lft as [l |], rgt as [r |]; cbn [depth]; split; trivial; lia. Qed.

Lemma drawNode_within node : forall x y dx dy,
  0 < dx -> 0 <= dy ->
  Forall (shapeWithin (x - 2 * dx) (x + 2 * dx) y (y + inject_Z (Z.of_nat (depth node)) * dy))
         (drawNode node x y dx dy).
Proof.
  induction node as [feature threshold lft rgt value impurity IHl IHr] using Node_induction.
  intros x y dx dy Hdx Hdy.
  destruct (depth_of_children feature threshold lft rgt value impurity) as [Hdl Hdr].
  set (node := mkNode feature threshold lft rgt value impurity) in *.
  assert (HD := levels_nonneg (depth node) dy Hdy).
  assert (Hh := half_twice dx). assert (Hhp := half_pos dx Hdx).
  change (drawNode node x y dx dy)
    with ((match lft with
           | Some l => Line x y (x - dx) (y + dy) :: drawNode l (x - dx) (y + dy) (dx / 2) dy
           | None => []
           end)
          ++ (match rgt with
              | Some r => Line x y (x + dx) (y + dy) :: drawNode r (x + dx) (y + dy) (dx / 2) dy
              | None => []
              end)
          ++ [Circle x y radius (fillOf node)]).
  apply Forall_app. split; [| apply Forall_app; split].
  - destruct lft as [l |]; [| constructor].
    assert (Hlv := levels_below _ _ dy Hdl Hdy).
    assert (Hl0 := levels_nonneg (depth l) dy Hdy).
    constructor.
    + cbn [shapeWithin]. repeat split; lra.
    + specialize (IHl (x - dx) (y + dy) (dx / 2) dy Hhp Hdy).
      revert IHl. apply Forall_impl. intros s. apply shapeWithin_wider; lra.
  - destruct rgt as [r |]; [| constructor].
    assert (Hlv := levels_below _ _ dy Hdr Hdy).
    assert (Hr0 := levels_nonneg (depth r) dy Hdy).
    constructor.
    + cbn [shapeWithin]. repeat split; lra.
    + specialize (IHr (x + dx) (y + dy) (dx / 2) dy Hhp Hdy).
      revert IHr. apply Forall_impl. intros s. apply shapeWithin_wider; lra.
  - constructor; [| constructor]. cbn [shapeWithin]. split; [reflexivity |].
    repeat split; lra.
Qed.

(** X26.  A tree no deeper than the greatest [maxDepth] of the slider, 6,
    is drawn inside the canvas of 700 by [treeHeight - 50 = 550]: every
    circle, with its radius, and every edge. *)
Theorem tree_drawn_inside_canvas (p : Params) (t : Node) :
  (maxDepth p <= 6)%Z -> treeHeight p = 600%Z ->
  (Z.of_nat (depth t) <= maxDepth p)%Z ->
  Forall (insideCanvas canvasWidth (canvasHeight p)) (drawTree (Some t) canvasWidth).
Proof.
  intros Hmax Hheight Hdepth. unfold drawTree, canvasHeight, canvasWidth. rewrite Hheight.
  assert (H := drawNode_within t (700 / 2) 50 (700 / 5) 80 ltac:(reflexivity) ltac:(discriminate)).
  revert H. apply Forall_impl. intros s.
  assert (Hd : inject_Z (Z.of_nat (depth t)) <= 6).
  { change 6 with (inject_Z 6). rewrite <- Zle_Qle. lia. }
  assert (Hd0 : 0 <= inject_Z (Z.of_nat (depth t))).
  { change 0 with (inject_Z 0). rewrite <- Zle_Qle. lia. }
  assert (E1 : 700 / 2 == 350) by reflexivity.
  assert (E2 : 700 / 5 == 140) by reflexivity.
  assert (E3 : inject_Z (600 - 50) == 550) by reflexivity.
  destruct s as [x1 y1 x2 y2 | x y r fill]; cbn [shapeWithin insideCanvas].
  - intros ((? & ?) & (? & ?) & (? & ?) & (? & ?)). repeat split; lra.
  - intros (-> & (? & ?) & (? & ?)). unfold radius. repeat split; lra.
Qed.

Lemma tree_drawn_inside_canvas_witness :
  let leaf v := mkNode None None None None (Some v) (Some 0) in
  Forall (insideCanvas canvasWidth (canvasHeight initialParams))
         (drawTree (Some (mkNode (Some 2%Z) (Some (5 # 2)) (Some (leaf 0%Z)) (Some (leaf 1%Z))
                                 None (Some (1 # 2))))
                   canvasWidth).
Proof.
  intros leaf. apply tree_drawn_inside_canvas.
  - simpl. lia.
  - reflexivity.
  - simpl. lia.
Defined.

(** X27.  With positive [dx] and [dy], the centre of every circle and the
    two ends of every edge of the left subtree of a node lie strictly to the
    left of the centre of the node, those of its right subtree strictly to
    its right, and both below it.  (The circles themselves, of radius 20,
    are not bounded by this.) *)
Theorem subtrees_drawn_on_their_sides
        (feature : option Z) (threshold : option Q) (lft rgt : option Node)
        (value : option Z) (impurity : option Q) (x y dx dy : Q) :
  0 < dx -> 0 < dy ->
  (forall l, lft = Some l ->
     Forall (shapeWithin (x - 2 * dx) x
                         (y + dy) (y + dy + inject_Z (Z.of_nat (depth l)) * dy))
            (drawNode l (x - dx) (y + dy) (dx / 2) dy)) /\
  (forall r, rgt = Some r ->
     Forall (shapeWithin x (x + 2 * dx)
                         (y + dy) (y + dy + inject_Z (Z.of_nat (depth r)) * dy))
            (drawNode r (x + dx) (y + dy) (dx / 2) dy)).
Proof.
  intros Hdx Hdy.
  assert (Hh := half_twice dx). assert (Hhp := half_pos dx Hdx).
  split.
  - intros l _.
    assert (H := drawNode_within l (x - dx) (y + dy) (dx / 2) dy Hhp ltac:(lra)).
    revert H. apply Forall_impl. intros s. apply shapeWithin_wider; lra.
  - intros r _.
    assert (H := drawNode_within r (x + dx) (y + dy) (dx / 2) dy Hhp ltac:(lra)).
    revert H. apply Forall_impl. intros s. apply shapeWithin_wider; lra.
Qed.

Lemma subtrees_drawn_on_their_sides_witness :
  let leaf v := mkNode None None None None (Some v) (Some 0) in
  Forall (shapeWithin (350 - 2 * 140) 350
                      (50 + 80) (50 + 80 + inject_Z (Z.of_nat (depth (leaf 0%Z))) * 80))
         (drawNode (leaf 0%Z) (350 - 140) (50 + 80) (140 / 2) 80).
Proof.
  intros leaf.
  apply (proj1 (subtrees_drawn_on_their_sides (Some 2%Z) (Some (5 # 2)) (Some (leaf 0%Z))
                  (Some (leaf 1%Z)) None (Some (1 # 2)) 350 50 140 80
                  ltac:(reflexivity) ltac:(reflexivity)) (leaf 0%Z) eq_refl).
Defined.

Lemma drawNode_counts node : forall x y dx dy,
  length (filter isCircle (drawNode node x y dx dy)) = size node /\
  length (drawNode node x y dx dy) = (2 * size node - 1)%nat.
Proof.
  induction node as [feature threshold lft rgt value impurity IHl IHr] using Node_induction.
  intros x y dx dy.
  assert (Hpos : forall n, (1 <= size n)%nat) by (intros [? ? ? ? ? ?]; cbn [size]; lia).
  cbn [drawNode size]. rewrite !filter_app, !length_app. cbn [filter isCircle length].
  destruct lft as [l |], rgt as [r |]; cbn [filter isCircle length].
  - destruct (IHl (x - dx) (y + dy) (dx / 2) dy) as [Hl1 Hl2].
    destruct (IHr (x + dx) (y + dy) (dx / 2) dy) as [Hr1 Hr2].
    rewrite Hl1, Hl2, Hr1, Hr2. assert (Hl := Hpos l). assert (Hr := Hpos r). split; lia.
  - destruct (IHl (x - dx) (y + dy) (dx / 2) dy) as [Hl1 Hl2].
    rewrite Hl1, Hl2. assert (Hl := Hpos l). split; lia.
  - destruct (IHr (x + dx) (y + dy) (dx / 2) dy) as [Hr1 Hr2].
    rewrite Hr1, Hr2. assert (Hr := Hpos r). split; lia.
  - split; reflexivity.
Qed.

(** X28.  [drawNode] draws one circle for every node of the tree and one
    edge for every node but the root, and the circle of the root last, over
    its edges: purple when the root has a child, and else in the colour of
    its class. *)
Theorem every_node_drawn_once (node : Node) (x y dx dy : Q) :
  length (filter isCircle (drawNode node x y dx dy)) = size node /\
  length (filter (fun s => negb (isCircle s)) (drawNode node x y dx dy))
  = (size node - 1)%nat /\
  last (drawNode node x y dx dy) (Line 0 0 0 0) = Circle x y radius (fillOf node) /\
  ((0 < depth node)%nat -> fillOf node = "purple"%string).
Proof.
  destruct (drawNode_counts node x y dx dy) as [Hc Hall].
  split; [exact Hc |]. split; [| split].
  - assert (H := filter_length isCircle (drawNode node x y dx dy)).
    rewrite Hc, Hall in H. lia.
  - destruct node as [feature threshold lft rgt value impurity]. cbn [drawNode].
    rewrite app_assoc. apply last_last.
  - destruct node as [feature threshold [l |] [r |] value impurity]; cbn [depth fillOf];
      try reflexivity. lia.
Qed.

End TreeDrawing.
